(** * LLM-Scraper: the batch manager (manager/main.go) and the chunk
    merge of the parser (manager/parser.go), embedded in Rocq.

    The Go code is translated function by function.  Go's [int] is a
    64-bit integer whose wrap-around is written out; Go maps are stdpp
    [gmap]s; the effects of [processURL] (HTTP posts, sleeps, files) are
    threaded through an explicit [World]; what a goroutine does to the
    shared [BatchProcess] is recorded in a trace of [Event]s.  Functions
    of Go's standard library and of the model client, whose code is not
    part of the repository, are parameters (the classes [GoStrings],
    [ManagerLib] and [JSON], the oracles [net] and [client]). *)

From Stdlib Require Import ZArith Lia Ascii DecimalString.
From stdpp Require Import base gmap strings list fin_maps.

Local Open Scope string_scope.
Local Open Scope Z_scope.
Local Open Scope list_scope.

(** ** Go's [int] on a 64-bit platform *)

Module GoInt.

Definition min_int : Z := - 2 ^ 63.
Definition max_int : Z := 2 ^ 63 - 1.

(** Two's-complement wrap-around of a mathematical integer. *)
Definition wrap (z : Z) : Z := (z + 2 ^ 63) mod 2 ^ 64 - 2 ^ 63.

Definition add (a b : Z) : Z := wrap (a + b).
Definition mul (a b : Z) : Z := wrap (a * b).

(** Go's [/] truncates toward zero; the divisor is never 0 where the
    manager divides (see [collectStep]). *)
Definition div (a b : Z) : Z := wrap (Z.quot a b).

(** [len] of a slice. *)
Definition len {A} (l : list A) : Z := Z.of_nat (length l).

(** [%d] of [fmt]. *)
Definition itoa (z : Z) : string := NilZero.string_of_int (Z.to_int z).

End GoInt.

(** ** Results of fallible Go calls *)

(** [(T, error)]: a value or the text of a non-nil error. *)
Inductive result (A : Type) : Type :=
| Ok (a : A)
| Err (e : string).
Arguments Ok {A} a.
Arguments Err {A} e.

(** A call that can also panic (index out of range, failed type
    assertion). *)
Inductive outcome (A : Type) : Type :=
| Ret (a : A)
| Fail (e : string)
| Panic (msg : string).
Arguments Ret {A} a.
Arguments Fail {A} e.
Arguments Panic {A} msg.

(** ** Package [strings], the part that is plain byte manipulation *)

Module Strings.

(** [strings.Join]. *)
Fixpoint Join (elems : list string) (sep : string) : string :=
  match elems with
  | [] => ""
  | [e] => e
  | e :: rest => e +:+ sep +:+ Join rest sep
  end.

(** [strings.HasPrefix]. *)
Fixpoint HasPrefix (s prefix : string) : bool :=
  match prefix, s with
  | EmptyString, _ => true
  | String c p, String d t => bool_decide (c = d) && HasPrefix t p
  | String _ _, EmptyString => false
  end.

(** [strings.Contains]. *)
Fixpoint Contains (s substr : string) : bool :=
  HasPrefix s substr ||
  match s with
  | EmptyString => false
  | String _ t => Contains t substr
  end.

(** [strings.ReplaceAll] for a non-empty [old]: non-overlapping
    occurrences, left to right.  [skip] counts the bytes of a match that
    are still to be dropped. *)
Fixpoint replace_from (skip : nat) (s old new : string) : string :=
  match s with
  | EmptyString => EmptyString
  | String c t =>
      match skip with
      | S k => replace_from k t old new
      | O =>
          if HasPrefix s old
          then new +:+ replace_from (String.length old - 1) t old new
          else String c (replace_from O t old new)
      end
  end.

Definition ReplaceAll (s old new : string) : string :=
  match old with
  | EmptyString => s
  | _ => replace_from O s old new
  end.

(** ASCII white space and ASCII lower-casing: what [strings.TrimSpace]
    and [strings.ToLower] do on ASCII text.  They instantiate [GoLib] in
    the examples; the theorems hold for every instance. *)
Definition is_space (c : ascii) : bool :=
  let n := nat_of_ascii c in
  bool_decide (n = 32%nat) || (bool_decide (9 ≤ n)%nat && bool_decide (n ≤ 13)%nat).

Fixpoint trim_left (s : string) : string :=
  match s with
  | String c t => if is_space c then trim_left t else s
  | EmptyString => EmptyString
  end.

Fixpoint trim_right (s : string) : string :=
  match s with
  | EmptyString => EmptyString
  | String c t =>
      match trim_right t with
      | EmptyString => if is_space c then EmptyString else String c EmptyString
      | t' => String c t'
      end
  end.

Definition ascii_TrimSpace (s : string) : string := trim_right (trim_left s).

Definition lower_byte (c : ascii) : ascii :=
  let n := nat_of_ascii c in
  if bool_decide (65 ≤ n)%nat && bool_decide (n ≤ 90)%nat
  then ascii_of_nat (n + 32) else c.

Fixpoint ascii_ToLower (s : string) : string :=
  match s with
  | EmptyString => EmptyString
  | String c t => String (lower_byte c) (ascii_ToLower t)
  end.

End Strings.

(** [strings.TrimSpace] and [strings.ToLower] work on Unicode runes; the
    code below only passes their results on or compares them, so they are
    taken as they are. *)
Class GoStrings := {
  strings_TrimSpace : string → string;
  strings_ToLower : string → string
}.

(** The line feed of the Go literal with a backslash and an n. *)
Definition newline : string := String (ascii_of_nat 10) EmptyString.

(** ** manager/main.go *)

Module Manager.

(** [time.Time]: the zero value, or an instant in nanoseconds. *)
Inductive Time : Type :=
| zeroTime
| instant (ns : Z).

(** A [float64], by its bits; the manager only stores and forwards them. *)
Inductive float64 : Type :=
| Float64 (bits : Z).

(** The literal 0.7. *)
Definition f0_7 : float64 := Float64 4604480259023595110.

Module BatchJob.
Record t : Type := mk {
  ModelNumber : string;
  URL : string;
  Status : string;
  Error : string;
  Progress : Z;
  ParseDescription : option string
}.
End BatchJob.

(** A [chan bool] of the [clients] slice, by its identity. *)
Definition chan : Type := nat.

Module BatchProcess.
Record t : Type := mk {
  ID : string;
  Jobs : list BatchJob.t;
  Status : string;
  Progress : Z;
  StartTime : Time;
  EndTime : Time;
  clients : list chan
}.
End BatchProcess.

Module ParseRequest.
Record t : Type := mk {
  URL : string;
  ModelNumber : string;
  ParseDescription : option string;
  MinConfidence : float64;
  ShowAllImages : bool
}.
End ParseRequest.

Module ImageMatch.
Record t : Type := mk {
  URL : string;
  Confidence : float64;
  Context : string
}.
End ImageMatch.

(** The two [interface{}] payloads are kept as the JSON text they were
    decoded from: the manager only writes them back. *)
Module ParseResponse.
Record t : Type := mk {
  SiteID : string;
  ContentAnalysis : string;
  ImageMatches : list ImageMatch.t;
  DownloadedFiles : list string;
  PDFLinks : list string;
  GeminiResult : string;
  Status : string;
  Error : string
}.
End ParseResponse.

(** The library calls of main.go whose code is outside the repository:
    [filepath.Join] and the JSON codecs at the types the manager uses.
    [json_Unmarshal_errorResp] decodes into the anonymous struct with the
    single field [Error]. *)
Class ManagerLib := {
  filepath_Join : string → string → string;
  json_Marshal_ParseRequest : ParseRequest.t → result string;
  json_Unmarshal_errorResp : string → result string;
  json_Unmarshal_ParseResponse : string → result ParseResponse.t;
  json_MarshalIndent_ParseResponse : ParseResponse.t → result string;
  json_MarshalIndent_ImageMatches : list ImageMatch.t → result string
}.

(** *** The world [processURL] acts on *)

(** An [*http.Response] after the round trip: the status code and what
    [io.ReadAll] of its body yields. *)
Record Response : Type := {
  StatusCode : Z;
  Body : result string
}.

(** What [client.Post] returns: a nil response with an error; a
    response with a nil error; or a response together with an error,
    which [net/http] gives when the redirect policy of the client stops
    a redirect (the response is the last one received, its body
    closed). *)
Inductive PostResult : Type :=
| PostErr (e : string)
| PostOk (r : Response)
| PostBoth (r : Response) (e : string).

(** A post or a sleep, as the code makes them one after the other. *)
Inductive Action : Type :=
| Posted (url body : string)
| Slept (seconds : Z).

(** The oracles say how the environment answers ([net] by the number of
    posts issued so far); the logs record what the code did, [timeline]
    the posts and the sleeps in the order in which they were made. *)
Record World : Type := {
  net : nat → PostResult;
  mkdir_err : string → option string;
  write_err : string → option string;
  posts : list (string * string);
  sleeps : list Z;
  dirs : list string;
  files : list (string * string);
  timeline : list Action
}.

Definition log_post (url body : string) (w : World) : World :=
  {| net := net w; mkdir_err := mkdir_err w; write_err := write_err w;
     posts := posts w ++ [(url, body)]; sleeps := sleeps w;
     dirs := dirs w; files := files w;
     timeline := timeline w ++ [Posted url body] |}.

Definition log_sleep (seconds : Z) (w : World) : World :=
  {| net := net w; mkdir_err := mkdir_err w; write_err := write_err w;
     posts := posts w; sleeps := sleeps w ++ [seconds];
     dirs := dirs w; files := files w;
     timeline := timeline w ++ [Slept seconds] |}.

Definition log_dir (path : string) (w : World) : World :=
  {| net := net w; mkdir_err := mkdir_err w; write_err := write_err w;
     posts := posts w; sleeps := sleeps w;
     dirs := dirs w ++ [path]; files := files w; timeline := timeline w |}.

Definition log_file (path data : string) (w : World) : World :=
  {| net := net w; mkdir_err := mkdir_err w; write_err := write_err w;
     posts := posts w; sleeps := sleeps w;
     dirs := dirs w; files := files w ++ [(path, data)]; timeline := timeline w |}.

(** A Go function returning [error] and acting on the world. *)
Definition IO (A : Type) : Type := World → result A * World.

#[export] Instance IO_ret : MRet IO := λ A a w, (Ok a, w).

#[export] Instance IO_bind : MBind IO := λ A B f m w,
  match m w with
  | (Ok a, w') => f a w'
  | (Err e, w') => (Err e, w')
  end.

Definition io_fail {A} (e : string) : IO A := λ w, (Err e, w).

Definition io_lift {A} (r : result A) : IO A := λ w, (r, w).

(** [fmt.Errorf(prefix + "%v", err)] around a failing call. *)
Definition errorf {A} (prefix : string) (m : IO A) : IO A := λ w,
  match m w with
  | (Err e, w') => (Err (prefix +:+ e), w')
  | r => r
  end.

Definition os_MkdirAll (path : string) : IO unit := λ w,
  match mkdir_err w path with
  | Some e => (Err e, w)
  | None => (Ok (), log_dir path w)
  end.

Definition os_WriteFile (path data : string) : IO unit := λ w,
  match write_err w path with
  | Some e => (Err e, w)
  | None => (Ok (), log_file path data w)
  end.

Definition time_Sleep (seconds : Z) : IO unit := λ w, (Ok (), log_sleep seconds w).

(** [client.Post]: the oracle answers the next post. *)
Definition client_Post (url body : string) : World → PostResult * World := λ w,
  (net w (length (posts w)), log_post url body w).

(** *** [saveResults] and [processURL] *)

Section ProcessURL.
Context `{ManagerLib}.

(** [saveResults]: the result document, then the image matches and the
    document links when there are any. *)
Definition saveResults (job : BatchJob.t) (modelDir : string)
    (result : ParseResponse.t) : IO unit :=
  let resultsDir := filepath_Join modelDir "results" in
  _ ← errorf "failed to create results directory: " (os_MkdirAll resultsDir);
  let resultsFile := filepath_Join resultsDir "parse_results.json" in
  resultData ← errorf "failed to marshal results: "
                 (io_lift (json_MarshalIndent_ParseResponse result));
  _ ← errorf "failed to write results file: " (os_WriteFile resultsFile resultData);
  _ ← (if bool_decide (0 < GoInt.len (ParseResponse.ImageMatches result))
       then
         let imagesFile := filepath_Join resultsDir "image_matches.csv" in
         imageData ← errorf "failed to marshal image matches: "
                       (io_lift (json_MarshalIndent_ImageMatches
                                   (ParseResponse.ImageMatches result)));
         errorf "failed to write image matches file: " (os_WriteFile imagesFile imageData)
       else mret ());
  if bool_decide (0 < GoInt.len (ParseResponse.PDFLinks result))
  then
    let pdfFile := filepath_Join resultsDir "pdf_links.txt" in
    let pdfData := Strings.Join (ParseResponse.PDFLinks result) newline in
    errorf "failed to write PDF links file: " (os_WriteFile pdfFile pdfData)
  else mret ().

Definition maxRetries : Z := 3.
Definition retryDelay : Z := 5.
Definition serviceURL : string := "http://your-python-service/parse".

(** The retry loop, [remaining] iterations from [attempt] on.  It carries
    the variables [resp] and [lastErr] of the source: every post assigns
    [resp], with nil or with the response that came with the error; a
    post without error leaves the loop. *)
Fixpoint postLoop (remaining : nat) (attempt : Z) (jsonData : string)
    (resp : option Response) (lastErr : option string) (w : World)
    : (option Response * option string) * World :=
  match remaining with
  | O => ((resp, lastErr), w)
  | S remaining' =>
      let w1 := if bool_decide (0 < attempt) then snd (time_Sleep retryDelay w) else w in
      let '(r, w2) := client_Post serviceURL jsonData w1 in
      match r with
      | PostOk rsp => ((Some rsp, lastErr), w2)
      | PostErr e => postLoop remaining' (GoInt.add attempt 1) jsonData None (Some e) w2
      | PostBoth rsp e =>
          postLoop remaining' (GoInt.add attempt 1) jsonData (Some rsp) (Some e) w2
      end
  end.

(** The whole loop, from [attempt := 0] with [resp] and [lastErr] nil. *)
Definition retryPosts (jsonData : string) : IO (option Response * option string) :=
  λ w, let '(vars, w') := postLoop (Z.to_nat maxRetries) 0 jsonData None None w in
       (Ok vars, w').

(** [%v] of an [error]. *)
Definition error_string (err : option string) : string :=
  match err with
  | Some e => e
  | None => "<nil>"
  end.

(** What follows the retry loop once [resp] is not nil. *)
Definition handleResponse (job : BatchJob.t) (modelDir : string) (resp : Response)
    : IO unit :=
  body ← errorf "failed to read response: " (io_lift (Body resp));
  if bool_decide (StatusCode resp ≠ 200)
  then
    match json_Unmarshal_errorResp body with
    | Err _ =>
        io_fail ("server error (status " +:+ GoInt.itoa (StatusCode resp) +:+ "): " +:+ body)
    | Ok errorResp_Error =>
        io_fail ("server error (status " +:+ GoInt.itoa (StatusCode resp) +:+ "): "
                 +:+ errorResp_Error)
    end
  else
    parseResponse ← errorf "failed to parse response: "
                      (io_lift (json_Unmarshal_ParseResponse body));
    if bool_decide (ParseResponse.Status parseResponse ≠ "success")
    then io_fail ("processing failed: " +:+ ParseResponse.Error parseResponse)
    else errorf "failed to save results: " (saveResults job modelDir parseResponse).

(** The request for a job: the description is passed on when it is
    there and not empty. *)
Definition requestFor (job : BatchJob.t) : ParseRequest.t :=
  ParseRequest.mk (BatchJob.URL job) (BatchJob.ModelNumber job)
    (match BatchJob.ParseDescription job with
     | Some d => if bool_decide (d ≠ "") then Some d else None
     | None => None
     end)
    f0_7 false.

(** [processURL].  The calls to [log.Printf] and the deferred close of
    the body are left out. *)
Definition processURL (job : BatchJob.t) (baseDir : string) : IO unit :=
  let modelDir := filepath_Join baseDir (BatchJob.ModelNumber job) in
  _ ← errorf "failed to create directory: " (os_MkdirAll modelDir);
  let request := requestFor job in
  jsonData ← errorf "failed to marshal request: "
               (io_lift (json_Marshal_ParseRequest request));
  '(resp, lastErr) ← retryPosts jsonData;
  match resp with
  | None =>
      io_fail ("failed after " +:+ GoInt.itoa maxRetries +:+ " attempts: "
               +:+ error_string lastErr)
  | Some resp => handleResponse job modelDir resp
  end.

(** The body of a worker of [startProcessing] for one job taken from the
    queue: the job as it is sent to the results channel. *)
Definition worker (job : BatchJob.t) (w : World) : BatchJob.t * World :=
  match processURL job "./data" w with
  | (Err e, w') =>
      (BatchJob.mk (BatchJob.ModelNumber job) (BatchJob.URL job) "failed" e
         (BatchJob.Progress job) (BatchJob.ParseDescription job), w')
  | (Ok _, w') =>
      (BatchJob.mk (BatchJob.ModelNumber job) (BatchJob.URL job) "completed"
         (BatchJob.Error job) (BatchJob.Progress job) (BatchJob.ParseDescription job), w')
  end.

(** The worker pool, seen from the results channel.  [sched] lists the
    queue positions in the order in which their results are sent; every
    job is taken from the queue by exactly one worker, so [sched] is a
    permutation of the positions. *)
Fixpoint runWorkers (jobs : list BatchJob.t) (sched : list nat) (w : World)
    : list BatchJob.t * World :=
  match sched with
  | [] => ([], w)
  | i :: rest =>
      match jobs !! i with
      | Some job =>
          let '(done_job, w1) := worker job w in
          let '(more, w2) := runWorkers jobs rest w1 in
          (done_job :: more, w2)
      | None => runWorkers jobs rest w
      end
  end.

End ProcessURL.

(** *** The shared batch and the goroutine that collects results *)

(** The fields of a [BatchProcess] that change after its creation. *)
Inductive Field : Type :=
| FID
| FJobs
| FStatus
| FProgress
| FEndTime
| FClients.

(** The status update that [notifyClients] builds. *)
Record Update : Type := {
  update_id : string;
  update_status : string;
  update_progress : Z;
  update_jobs : list BatchJob.t
}.

(** What a goroutine does to the batch, in program order: [bp.mu.Lock()]
    and [Unlock()], reads and writes of fields, the update built by
    [notifyClients], a non-blocking send on a client's channel, and
    [close(results)]. *)
Inductive Event : Type :=
| EvLock
| EvUnlock
| EvRead (f : Field)
| EvWrite (f : Field)
| EvUpdate (u : Update)
| EvSend (c : chan)
| EvClose.

(** The key under which [updateJob] looks a job up. *)
Definition sameJob (j job : BatchJob.t) : bool :=
  bool_decide (BatchJob.ModelNumber j = BatchJob.ModelNumber job)
  && bool_decide (BatchJob.URL j = BatchJob.URL job).

(** The scan of [updateJob]: the index at which it breaks. *)
Fixpoint findJob (jobs : list BatchJob.t) (job : BatchJob.t) : option nat :=
  match jobs with
  | [] => None
  | j :: rest => if sameJob j job then Some O else S <$> findJob rest job
  end.

Definition setJobs (bp : BatchProcess.t) (jobs : list BatchJob.t) : BatchProcess.t :=
  BatchProcess.mk (BatchProcess.ID bp) jobs (BatchProcess.Status bp)
    (BatchProcess.Progress bp) (BatchProcess.StartTime bp) (BatchProcess.EndTime bp)
    (BatchProcess.clients bp).

Definition setStatus (bp : BatchProcess.t) (status : string) : BatchProcess.t :=
  BatchProcess.mk (BatchProcess.ID bp) (BatchProcess.Jobs bp) status
    (BatchProcess.Progress bp) (BatchProcess.StartTime bp) (BatchProcess.EndTime bp)
    (BatchProcess.clients bp).

Definition setProgress (bp : BatchProcess.t) (progress : Z) : BatchProcess.t :=
  BatchProcess.mk (BatchProcess.ID bp) (BatchProcess.Jobs bp) (BatchProcess.Status bp)
    progress (BatchProcess.StartTime bp) (BatchProcess.EndTime bp)
    (BatchProcess.clients bp).

Definition setEndTime (bp : BatchProcess.t) (t : Time) : BatchProcess.t :=
  BatchProcess.mk (BatchProcess.ID bp) (BatchProcess.Jobs bp) (BatchProcess.Status bp)
    (BatchProcess.Progress bp) (BatchProcess.StartTime bp) t
    (BatchProcess.clients bp).

(** [updateJob]: under the lock, [bp.Jobs[i] = job] at the first match. *)
Definition updateJob (bp : BatchProcess.t) (job : BatchJob.t)
    : BatchProcess.t * list Event :=
  match findJob (BatchProcess.Jobs bp) job with
  | Some i =>
      (setJobs bp (<[i := job]> (BatchProcess.Jobs bp)),
       [EvLock; EvRead FJobs; EvWrite FJobs; EvUnlock])
  | None => (bp, [EvLock; EvRead FJobs; EvUnlock])
  end.

(** [notifyClients]: under the lock, build the update and try to send on
    every client's channel. *)
Definition notifyClients (bp : BatchProcess.t) : list Event :=
  [EvLock; EvRead FID; EvRead FStatus; EvRead FProgress; EvRead FJobs;
   EvUpdate {| update_id := BatchProcess.ID bp;
               update_status := BatchProcess.Status bp;
               update_progress := BatchProcess.Progress bp;
               update_jobs := BatchProcess.Jobs bp |};
   EvRead FClients]
  ++ (EvSend <$> BatchProcess.clients bp) ++ [EvUnlock].

(** The collecting goroutine of [startProcessing]: its local variables,
    the batch it shares, and what has been done to the batch so far, by
    [startProcessing] before the loop and by the collector since. *)
Record Collector : Type := {
  bp : BatchProcess.t;
  completed : Z;
  total : Z;
  trace : list Event
}.

(** One iteration of [for job := range results]. [now] is the instant
    that [time.Now()] returns if this iteration calls it. *)
Definition collectStep (now : Z) (st : Collector) (job : BatchJob.t) : Collector :=
  let completed := GoInt.add (completed st) 1 in
  let '(bp1, tr1) := updateJob (bp st) job in
  let bp2 := setProgress bp1 (GoInt.div (GoInt.mul completed 100) (total st)) in
  let tr2 := trace st ++ tr1 ++ [EvWrite FProgress] ++ notifyClients bp2 in
  if bool_decide (completed = total st)
  then
    let bp3 := setStatus bp2 "completed" in
    let bp4 := setEndTime bp3 (instant now) in
    {| bp := bp4; completed := completed; total := total st;
       trace := tr2 ++ [EvClose; EvWrite FStatus; EvWrite FEndTime] ++ notifyClients bp4 |}
  else
    {| bp := bp2; completed := completed; total := total st; trace := tr2 |}.

(** The loop over the jobs received from the results channel. *)
Definition collect (now : Z) (st : Collector) (results : list BatchJob.t) : Collector :=
  foldl (collectStep now) st results.

(** The collector as it starts.  By then, and before any result is
    received, [startProcessing] has written [bp.Status = "processing"]
    and read [bp.Jobs] four times, never taking the lock: [len(bp.Jobs)]
    for the capacity of each of the two channels, [bp.Jobs] for the
    [range] of the goroutine that sends the jobs (evaluated once, before
    the first job is sent), and [total := len(bp.Jobs)]. *)
Definition startCollector (bp : BatchProcess.t) : Collector :=
  {| bp := setStatus bp "processing";
     completed := 0;
     total := GoInt.len (BatchProcess.Jobs bp);
     trace := [EvWrite FStatus; EvRead FJobs; EvRead FJobs; EvRead FJobs; EvRead FJobs] |}.

(** [startProcessing] once the collecting goroutine has read all that
    the workers send. *)
Definition startProcessing `{ManagerLib} (bp : BatchProcess.t) (sched : list nat)
    (now : Z) (w : World) : Collector * World :=
  let st := startCollector bp in
  let '(results, w') := runWorkers (BatchProcess.Jobs (Manager.bp st)) sched w in
  (collect now st results, w').

(** The accesses to fields of the batch made while the lock is not held
    ([held] says whether it is at the start of the trace). *)
Fixpoint unguarded (held : bool) (tr : list Event) : list Event :=
  match tr with
  | [] => []
  | EvLock :: rest => unguarded true rest
  | EvUnlock :: rest => unguarded false rest
  | EvRead f :: rest =>
      if held then unguarded held rest else EvRead f :: unguarded held rest
  | EvWrite f :: rest =>
      if held then unguarded held rest else EvWrite f :: unguarded held rest
  | _ :: rest => unguarded held rest
  end.

(** How often the results channel was closed, and the updates built. *)
Definition is_close (e : Event) : bool :=
  match e with
  | EvClose => true
  | _ => false
  end.

Definition closes (tr : list Event) : nat :=
  length (filter (λ e, is_close e) tr).

Definition updates (tr : list Event) : list Update :=
  omap (λ e, match e with EvUpdate u => Some u | _ => None end) tr.


(** *** [handleFileUpload] *)

Section Upload.
Context `{GoStrings}.

(** [getColumnIndex]. *)
Fixpoint getColumnIndex_from (i : Z) (headers : list string) (columnName : string) : Z :=
  match headers with
  | [] => -1
  | header :: rest =>
      if bool_decide (strings_ToLower (strings_TrimSpace header) = strings_ToLower columnName)
      then i
      else getColumnIndex_from (GoInt.add i 1) rest columnName
  end.

Definition getColumnIndex (headers : list string) (columnName : string) : Z :=
  getColumnIndex_from 0 headers columnName.

(** The loop that fills [requiredColumns] with the position of each
    required header; a later header of the same name overwrites. *)
Fixpoint locateColumns (i : Z) (headers : list string) (requiredColumns : gmap string Z)
    : gmap string Z :=
  match headers with
  | [] => requiredColumns
  | header :: rest =>
      let header := strings_ToLower (strings_TrimSpace header) in
      locateColumns (GoInt.add i 1) rest
        (match requiredColumns !! header with
         | Some _ => <[header := i]> requiredColumns
         | None => requiredColumns
         end)
  end.

(** The required columns that were not found.  Go ranges over the map in
    an unspecified order; the order only chooses which of two missing
    columns the message names. *)
Definition missingColumns (requiredColumns : gmap string Z) : list string :=
  fst <$> filter (λ kv, snd kv = -1) (map_to_list requiredColumns).

(** [m[key]] of a [map[string]int]: zero when the key is absent. *)
Definition columnOf (requiredColumns : gmap string Z) (key : string) : Z :=
  default 0 (requiredColumns !! key).

(** [record[i]]: [None] stands for the index-out-of-range panic. *)
Definition index (record : list string) (i : Z) : option string :=
  if bool_decide (0 ≤ i) then record !! Z.to_nat i else None.

(** The loop over [reader.Read()]: the list holds what the successive
    calls return, and its end is [io.EOF].  Every record becomes a job. *)
Fixpoint readRecords (headers : list string) (requiredColumns : gmap string Z)
    (reader : list (result (list string))) (jobs : list BatchJob.t)
    : outcome (list BatchJob.t) :=
  match reader with
  | [] => Ret jobs
  | Err _ :: _ => Fail "Error reading CSV file"
  | Ok record :: rest =>
      match index record (columnOf requiredColumns "model_number"),
            index record (columnOf requiredColumns "url") with
      | Some modelNumber, Some url =>
          let descriptionIdx := getColumnIndex headers "parse_description" in
          let description :=
            if bool_decide (descriptionIdx ≠ -1)
               && bool_decide (descriptionIdx < GoInt.len record)
            then
              match index record descriptionIdx with
              | Some d => if bool_decide (d ≠ "") then Some d else None
              | None => None
              end
            else None in
          readRecords headers requiredColumns rest
            (jobs ++ [BatchJob.mk modelNumber url "pending" "" 0 description])
      | _, _ => Panic "index out of range"
      end
  end.

(** The JSON object sent back on success. *)
Record UploadResponse : Type := {
  batch_id : string;
  status : string;
  message : string
}.

(** [handleFileUpload] once the multipart form is parsed. [file] is
    [None] when the form has no part of that name; [t_id] and [t_start]
    are the two readings of the clock.  [Fail] is a reply with status
    400.  The optional config part only assigns two package variables
    that main.go does not declare, and is left out. *)
Definition handleFileUpload (file : option (list (result (list string))))
    (t_id t_start : Z) (processes : gmap string BatchProcess.t)
    : outcome UploadResponse * gmap string BatchProcess.t :=
  match file with
  | None => (Fail "Failed to retrieve the file", processes)
  | Some [] | Some (Err _ :: _) => (Fail "Failed to read CSV header", processes)
  | Some (Ok headers :: reader) =>
      let requiredColumns :=
        locateColumns 0 headers {[ "url" := -1; "model_number" := -1 ]} in
      match missingColumns requiredColumns with
      | column :: _ => (Fail ("Missing required column: " +:+ column), processes)
      | [] =>
          let batchID := "batch_" +:+ GoInt.itoa t_id in
          match readRecords headers requiredColumns reader [] with
          | Panic msg => (Panic msg, processes)
          | Fail msg => (Fail msg, processes)
          | Ret jobs =>
              if bool_decide (GoInt.len jobs = 0)
              then (Fail "No valid jobs found in the CSV file", processes)
              else
                let process :=
                  BatchProcess.mk batchID jobs "pending" 0 (instant t_start) zeroTime [] in
                (Ret {| batch_id := batchID; status := "pending";
                        message := "Successfully queued " +:+ GoInt.itoa (GoInt.len jobs)
                                   +:+ " jobs" |},
                 <[batchID := process]> processes)
          end
      end
  end.

End Upload.


End Manager.

(** ** manager/parser.go: [parseWithGemini] *)

Module Parser.

#[local] Set Warnings "-register-all".

(** The dynamic types an [interface{}] takes in [parseWithGemini].
    [encoding/json] stores a JSON string as [string], a number as
    [float64], an array as [[]interface{}], an object as
    [map[string]interface{}], [null] as nil; a [[]string] is only ever
    built by the Go code itself. *)
Inductive value : Type :=
| VString (s : string)
| VStrings (l : list string)
| VSlice (l : list value)
| VFloat (bits : Z)
| VBool (b : bool)
| VNil
| VMap (m : list (string * value)).

(** [json.Unmarshal] into a [map[string]interface{}] variable that is
    nil before the call: an error, or the map it leaves there, which is
    still nil ([None]) when the text is the JSON [null]. *)
Class JSON := {
  json_Unmarshal_map : string → result (option (gmap string value))
}.

(** The fields of [UnifiedParser] that [parseWithGemini] uses.  [client]
    answers the chat completion request number [i] (counted within one
    call of [parseWithGemini]) for a model name and a message content
    with the contents of the choices, or with an error; [sem] is the
    error of [sem.Acquire], if any. *)
Record UnifiedParser : Type := {
  ModelName : string;
  prompt : string;
  client : nat → string → string → result (list string);
  sem : option string
}.

(** An element of [foundResults]. *)
Inductive found : Type :=
| FoundText (content : string)
| FoundRecord (result : gmap string value).

(** What [parseWithGemini] returns as [interface{}]. *)
Inductive GeminiResult : Type :=
| ResultText (s : string)
| ResultRecord (m : gmap string value).

(** [containsAny]. *)
Fixpoint containsAny (s : string) (substrings : list string) : bool :=
  match substrings with
  | [] => false
  | substr :: rest => if Strings.Contains s substr then true else containsAny s rest
  end.

(** [ensureKeyExists]. *)
Definition ensureKeyExists (m : gmap string value) (key : string) (defaultValue : value)
    : gmap string value :=
  match m !! key with
  | Some _ => m
  | None => <[key := defaultValue]> m
  end.

(** The loop of [dedupeStringSlice] and of [removeDuplicates]. *)
Fixpoint dedupeLoop (slice : list string) (allKeys : gmap string bool) (lst : list string)
    : list string :=
  match slice with
  | [] => lst
  | item :: rest =>
      match allKeys !! item with
      | None => dedupeLoop rest (<[item := true]> allKeys) (lst ++ [item])
      | Some _ => dedupeLoop rest allKeys lst
      end
  end.

Definition removeDuplicates (slice : list string) : list string :=
  dedupeLoop slice ∅ [].

(** [dedupeStringSlice]. *)
Definition dedupeStringSlice (m : gmap string value) (key : string) : gmap string value :=
  match m !! key with
  | Some (VStrings slice) => <[key := VStrings (removeDuplicates slice)]> m
  | _ => m
  end.

(** [min]. *)
Definition min (a b : Z) : Z := if bool_decide (a < b) then a else b.

(** [s[a:b]] for [0 <= a <= b <= len(s)]. *)
Definition slice {A} (s : list A) (a b : Z) : list A :=
  take (Z.to_nat (b - a)) (drop (Z.to_nat a) s).

Definition chunkSize : Z := 3.

(** The slices [domChunks[i:min(i+chunkSize, len(domChunks))]] that the
    loop [for i := 0; i < len(domChunks); i += chunkSize] visits, in
    order (see [chunkGroups_slice]). *)
Fixpoint chunkGroups (domChunks : list string) : list (list string) :=
  match domChunks with
  | [] => []
  | [a] => [[a]]
  | [a; b] => [[a; b]]
  | a :: b :: c :: rest => [a; b; c] :: chunkGroups rest
  end.

Section ParseWithGemini.
Context `{GoStrings} `{JSON}.

(** The order in which [range] visits a map: any enumeration of its
    entries. *)
Variable rangeOrder : gmap string value → list (string * value).

(** The test that makes the loop [continue] without keeping anything. *)
Definition isNoResult (content : string) : bool :=
  bool_decide (content = "")
  || bool_decide (strings_ToLower content = "no match")
  || bool_decide (strings_ToLower content = "not found")
  || bool_decide (strings_ToLower content = "no information").

(** [result[key] = []string{val}] when [result[key]] is a string other
    than the placeholder. *)
Definition promoteString (result : gmap string value) (key : string) : gmap string value :=
  match result !! key with
  | Some (VString val) =>
      if bool_decide (val ≠ "NO_MATCH") then <[key := VStrings [val]]> result else result
  | _ => result
  end.

(** The record kept for a response that decodes as a JSON object. *)
Definition backfill (result : gmap string value) : gmap string value :=
  let result := ensureKeyExists result "name" (VString "NO_MATCH") in
  let result := ensureKeyExists result "model_number" (VString "NO_MATCH") in
  let result := ensureKeyExists result "serial_number" (VString "NO_MATCH") in
  let result := ensureKeyExists result "warranty_info" (VString "NO_MATCH") in
  let result := ensureKeyExists result "user_manual" (VStrings []) in
  let result := ensureKeyExists result "other_documents" (VStrings []) in
  foldl promoteString result ["user_manual"; "other_documents"].

(** What one response adds to [foundResults]: the body of the loop from
    [strings.TrimSpace] on.  [Ret None] is the [continue]; the panic is
    that of [ensureKeyExists] assigning into a nil map. *)
Definition classify (isProductInfo : bool) (content : string) : outcome (option found) :=
  let content := strings_TrimSpace content in
  if isNoResult content then Ret None
  else if isProductInfo then
    match json_Unmarshal_map content with
    | Ok (Some result) => Ret (Some (FoundRecord (backfill result)))
    | Ok None => Panic "assignment to entry in nil map"
    | Err _ => Ret (Some (FoundRecord {[ "raw_content" := VString content ]}))
    end
  else Ret (Some (FoundText content)).

(** The message content sent for a chunk group. *)
Definition promptFor (p : UnifiedParser) (chunkGroup parseDescription : string) : string :=
  Strings.ReplaceAll (Strings.ReplaceAll (prompt p) "{dom_content}" chunkGroup)
    "{parse_description}" parseDescription.

(** The loop over the chunk groups.  [call] counts the requests made;
    it is returned with the outcome. *)
Fixpoint groupLoop (p : UnifiedParser) (isProductInfo : bool) (parseDescription : string)
    (groups : list (list string)) (call : nat) (foundResults : list found)
    : outcome (list found) * nat :=
  match groups with
  | [] => (Ret foundResults, call)
  | group :: rest =>
      let chunkGroup := Strings.Join group " " in
      match client p call (ModelName p) (promptFor p chunkGroup parseDescription) with
      | Err e => (Fail ("gemini request failed: " +:+ e), S call)
      | Ok [] => (Panic "index out of range [0] with length 0", S call)
      | Ok (content :: _) =>
          match classify isProductInfo content with
          | Ret None => groupLoop p isProductInfo parseDescription rest (S call) foundResults
          | Ret (Some f) =>
              groupLoop p isProductInfo parseDescription rest (S call) (foundResults ++ [f])
          | Fail e => (Fail e, S call)
          | Panic msg => (Panic msg, S call)
          end
      end
  end.

(** [v.([]string)] without the comma-ok form: [None] is the panic. *)
Definition assertStrings (v : option value) : option (list string) :=
  match v with
  | Some (VStrings l) => Some l
  | _ => None
  end.

(** The [switch k] inside the loop over the entries of one record. *)
Definition mergeEntry (combinedResults : gmap string value) (kv : string * value)
    : option (gmap string value) :=
  let '(k, v) := kv in
  if bool_decide (k = "user_manual") || bool_decide (k = "other_documents")
  then
    match v with
    | VStrings lst =>
        cur ← assertStrings (combinedResults !! k);
        Some (<[k := VStrings (cur ++ lst)]> combinedResults)
    | VString str =>
        if bool_decide (str ≠ "NO_MATCH")
        then
          cur ← assertStrings (combinedResults !! k);
          Some (<[k := VStrings (cur ++ [str])]> combinedResults)
        else Some combinedResults
    | _ => Some combinedResults
    end
  else
    match v with
    | VString str =>
        if bool_decide (str ≠ "NO_MATCH")
        then
          match combinedResults !! k with
          | Some (VString cur) =>
              if bool_decide (cur = "NO_MATCH")
              then Some (<[k := VString str]> combinedResults)
              else Some combinedResults
          | _ => Some combinedResults
          end
        else Some combinedResults
    | _ => Some combinedResults
    end.

(** [for k, v := range result], over the entries in the order given. *)
Fixpoint mergeEntries (entries : list (string * value)) (combinedResults : gmap string value)
    : option (gmap string value) :=
  match entries with
  | [] => Some combinedResults
  | kv :: rest =>
      combinedResults ← mergeEntry combinedResults kv;
      mergeEntries rest combinedResults
  end.

(** [for _, result := range foundResults] of the product-information
    branch; [None] is a panic of a type assertion. *)
Fixpoint combineLoop (foundResults : list found) (combinedResults : gmap string value)
    : option (gmap string value) :=
  match foundResults with
  | [] => Some combinedResults
  | FoundText _ :: _ => None
  | FoundRecord result :: rest =>
      match result !! "raw_content" with
      | Some rawContent =>
          match assertStrings (combinedResults !! "additional_info"), rawContent with
          | Some info, VString raw =>
              combineLoop rest (<["additional_info" := VStrings (info ++ [raw])]> combinedResults)
          | _, _ => None
          end
      | None =>
          combinedResults ← mergeEntries (rangeOrder result) combinedResults;
          combineLoop rest combinedResults
      end
  end.

(** [combinedResults] as it is initialised. *)
Definition initialCombined : gmap string value :=
  {[ "name" := VString "NO_MATCH";
     "model_number" := VString "NO_MATCH";
     "serial_number" := VString "NO_MATCH";
     "warranty_info" := VString "NO_MATCH";
     "user_manual" := VStrings [];
     "other_documents" := VStrings [];
     "additional_info" := VStrings [] ]}.

(** The product-information branch after the loop over the groups. *)
Definition combineProduct (foundResults : list found) : option (gmap string value) :=
  combinedResults ← combineLoop foundResults initialCombined;
  let combinedResults := dedupeStringSlice combinedResults "user_manual" in
  let combinedResults := dedupeStringSlice combinedResults "other_documents" in
  Some (dedupeStringSlice combinedResults "additional_info").

(** [interfaceSliceToStringSlice]; [None] is the panic of [v.(string)]. *)
Fixpoint interfaceSliceToStringSlice (input : list found) : option (list string) :=
  match input with
  | [] => Some []
  | FoundText s :: rest => (s ::.) <$> interfaceSliceToStringSlice rest
  | FoundRecord _ :: _ => None
  end.

(** [parseWithGemini], with the number of requests it has made. *)
Definition parseWithGemini (p : UnifiedParser) (domChunks : list string)
    (parseDescription : string) : outcome GeminiResult * nat :=
  match sem p with
  | Some e => (Fail ("failed to acquire semaphore: " +:+ e), O)
  | None =>
      let isProductInfo :=
        containsAny (strings_ToLower parseDescription)
          ["extract product"; "product information"; "product details"] in
      match groupLoop p isProductInfo parseDescription (chunkGroups domChunks) O [] with
      | (Fail e, calls) => (Fail e, calls)
      | (Panic msg, calls) => (Panic msg, calls)
      | (Ret foundResults, calls) =>
          if bool_decide (GoInt.len foundResults = 0)
          then (Ret (ResultText "NO_MATCH"), calls)
          else if isProductInfo
          then
            match combineProduct foundResults with
            | Some combinedResults => (Ret (ResultRecord combinedResults), calls)
            | None => (Panic "interface conversion", calls)
            end
          else
            match interfaceSliceToStringSlice foundResults with
            | Some fragments => (Ret (ResultText (Strings.Join fragments newline)), calls)
            | None => (Panic "interface conversion", calls)
            end
      end
  end.


End ParseWithGemini.

End Parser.

(** ** Concrete libraries, worlds and batches for the examples *)

Module Demo.
Import Manager.

#[export] Instance asciiStrings : GoStrings := {|
  strings_TrimSpace := Strings.ascii_TrimSpace;
  strings_ToLower := Strings.ascii_ToLower
|}.

(** The double quote. *)
Definition dq : string := String (ascii_of_nat 34) EmptyString.

(** The JSON text of a string without characters to escape. *)
Definition jstr (s : string) : string := dq +:+ s +:+ dq.

(** The JSON text of an object with one member. *)
Definition jobj (key val : string) : string := "{" +:+ jstr key +:+ ": " +:+ val +:+ "}".

(** The body of an error reply of the service, and one that is no JSON. *)
Definition errorBody : string := jobj "error" (jstr "model overloaded").
Definition htmlBody : string := "<html>Bad Gateway</html>".

(** The body of a successful reply, and what it decodes to. *)
Definition successBody : string := jobj "status" (jstr "success").
Definition successResponse : ParseResponse.t :=
  ParseResponse.mk "example.com" "null" [] [] ["http://example.com/manual.pdf"] "null"
    "success" "".

(** Codecs that know the texts above; [filepath.Join] on clean paths. *)
#[export] Instance lib : ManagerLib := {|
  filepath_Join a b := a +:+ "/" +:+ b;
  json_Marshal_ParseRequest r := Ok (jobj "url" (jstr (ParseRequest.URL r)));
  json_Unmarshal_errorResp body :=
    if bool_decide (body = errorBody) then Ok "model overloaded"
    else Err "invalid character '<' looking for beginning of value";
  json_Unmarshal_ParseResponse body :=
    if bool_decide (body = successBody) then Ok successResponse
    else Err "unexpected end of JSON input";
  json_MarshalIndent_ParseResponse r := Ok (jobj "site_id" (jstr (ParseResponse.SiteID r)));
  json_MarshalIndent_ImageMatches l := Ok "[]"
|}.

(** A world whose file system works and whose network answers the
    successive posts as listed, then refuses connections. *)
Definition world (answers : list PostResult) : World :=
  {| net := λ n, default (PostErr "connection refused") (answers !! n);
     mkdir_err := λ _, None;
     write_err := λ _, None;
     posts := []; sleeps := []; dirs := []; files := []; timeline := [] |}.

Definition reply (code : Z) (body : string) : PostResult :=
  PostOk {| StatusCode := code; Body := Ok body |}.

Definition pending (modelNumber url : string) : BatchJob.t :=
  BatchJob.mk modelNumber url "pending" "" 0 None.

Definition batch (jobs : list BatchJob.t) : BatchProcess.t :=
  BatchProcess.mk "batch_1" jobs "pending" 0 (instant 1) zeroTime [7%nat].

(** Two distinct jobs; a job list that holds the same pair twice. *)
Definition twoJobs : list BatchJob.t :=
  [pending "M1" "http://a.example/1"; pending "M2" "http://a.example/2"].

Definition duplicateJobs : list BatchJob.t :=
  [pending "M1" "http://a.example/1"; pending "M2" "http://a.example/2";
   pending "M1" "http://a.example/1"].

(** Responses of the model for a chunk group, as JSON texts, and what
    [encoding/json] decodes them to: a JSON string becomes a [string], a
    JSON array a [[]interface{}]. *)
Definition serialAB : string := jobj "serial_number" (jstr "AB123").
Definition modelX9 : string := jobj "model_number" (jstr "X9").
Definition serialZZ : string := jobj "serial_number" (jstr "ZZ999").
Definition manualString : string := jobj "user_manual" (jstr "manual.pdf").
Definition specString : string := jobj "user_manual" (jstr "spec.pdf").
Definition manualArray : string := jobj "user_manual" ("[" +:+ jstr "manual.pdf" +:+ "]").
Definition specArray : string := jobj "user_manual" ("[" +:+ jstr "spec.pdf" +:+ "]").

Definition decoded : list (string * gmap string Parser.value) :=
  [(serialAB, {[ "serial_number" := Parser.VString "AB123" ]});
   (modelX9, {[ "model_number" := Parser.VString "X9" ]});
   (serialZZ, {[ "serial_number" := Parser.VString "ZZ999" ]});
   (manualString, {[ "user_manual" := Parser.VString "manual.pdf" ]});
   (specString, {[ "user_manual" := Parser.VString "spec.pdf" ]});
   (manualArray, {[ "user_manual" := Parser.VSlice [Parser.VString "manual.pdf"] ]});
   (specArray, {[ "user_manual" := Parser.VSlice [Parser.VString "spec.pdf"] ]})].

#[export] Instance json : Parser.JSON := {|
  Parser.json_Unmarshal_map s :=
    match list_find (λ kv, kv.1 = s) decoded with
    | Some (_, (_, m)) => Ok (Some m)
    | None =>
        if bool_decide (s = "null") then Ok None
        else Err "invalid character looking for beginning of value"
    end
|}.

(** A parser whose semaphore has room and whose model answers the
    successive requests as listed, then times out. *)
Definition parser (answers : list (result (list string))) : Parser.UnifiedParser :=
  {| Parser.ModelName := "gemini-pro";
     Parser.prompt := "Content: {dom_content} Query: {parse_description}";
     Parser.client := λ i _ _, default (Err "context deadline exceeded") (answers !! i);
     Parser.sem := None |}.

(** One order in which the entries of a map can be visited. *)
Definition rangeOrder (m : gmap string Parser.value) : list (string * Parser.value) :=
  map_to_list m.

(** Seven chunks: three chunk groups. *)
Definition sevenChunks : list string := ["c1"; "c2"; "c3"; "c4"; "c5"; "c6"; "c7"].

(** An upload with the two required columns and three data rows, the
    second with an empty url. *)
Definition uploadWithEmptyURL : option (list (result (list string))) :=
  Some [Ok ["model_number"; "url"];
        Ok ["M1"; "http://a.example/1"];
        Ok ["M2"; ""];
        Ok ["M3"; "http://a.example/3"]].


End Demo.


(** ** Notions used in the statements *)

Module Notions.
Import Manager.

(** The pair that identifies a job within a batch. *)
Definition jobKey (j : BatchJob.t) : string * string :=
  (BatchJob.ModelNumber j, BatchJob.URL j).

(** An entry that has an entry with the same pair before it. *)
Definition shadowed (jobs : list BatchJob.t) (i : nat) (ji : BatchJob.t) : Prop :=
  jobs !! i = Some ji
  ∧ ∃ j jj, (j < i)%nat ∧ jobs !! j = Some jj ∧ jobKey jj = jobKey ji.

(** Two worlds with the same file system: the same oracles for it and
    the same directories and files so far. *)
Definition same_fs (w1 w2 : World) : Prop :=
  mkdir_err w1 = mkdir_err w2 ∧ write_err w1 = write_err w2
  ∧ dirs w1 = dirs w2 ∧ files w1 = files w2.

(** A computation that depends on the file system only and leaves the
    network and the sleeps alone. *)
Definition fs_only {A} (m : IO A) : Prop :=
  ∀ w1 w2, same_fs w1 w2 →
    (m w1).1 = (m w2).1 ∧ same_fs (m w1).2 (m w2).2
    ∧ posts (m w1).2 = posts w1 ∧ sleeps (m w1).2 = sleeps w1
    ∧ net (m w1).2 = net w1 ∧ timeline (m w1).2 = timeline w1.

(** The world after the sleep that precedes every attempt but the
    first. *)
Definition slept (attempt : Z) (w : World) : World :=
  if bool_decide (0 < attempt) then log_sleep retryDelay w else w.

(** The first [k] answers of the network, counted from the posts already
    made in [w], are transport errors. *)
Definition transport_failures (w : World) (k : nat) : Prop :=
  ∀ i, (i < k)%nat → ∃ e, net w (length (posts w) + i) = PostErr e.

(** The error that a post returns, if any, and the response that it
    assigns to [resp]. *)
Definition post_error (r : PostResult) : option string :=
  match r with
  | PostErr e => Some e
  | PostBoth _ e => Some e
  | PostOk _ => None
  end.

Definition post_response (r : PostResult) : option Response :=
  match r with
  | PostErr _ => None
  | PostBoth rsp _ => Some rsp
  | PostOk rsp => Some rsp
  end.

(** The first [k] posts, counted from the posts already made in [w],
    return an error, with or without a response. *)
Definition post_errors (w : World) (k : nat) : Prop :=
  ∀ i, (i < k)%nat → is_Some (post_error (net w (length (posts w) + i))).

(** [n] retries of a request: each a sleep of the delay followed by the
    post; and [n] attempts: a post followed by [n - 1] retries. *)
Fixpoint retries (n : nat) (jsonData : string) : list Action :=
  match n with
  | O => []
  | S n' => Slept retryDelay :: Posted serviceURL jsonData :: retries n' jsonData
  end.

Definition attempts (n : nat) (jsonData : string) : list Action :=
  match n with
  | O => []
  | S n' => Posted serviceURL jsonData :: retries n' jsonData
  end.

(** Whether the lock is held at the end of a trace, given whether it is
    at its start. *)
Fixpoint lockHeld (held : bool) (tr : list Event) : bool :=
  match tr with
  | [] => held
  | EvLock :: rest => lockHeld true rest
  | EvUnlock :: rest => lockHeld false rest
  | _ :: rest => lockHeld held rest
  end.


End Notions.

Module MergeNotions.
Import Parser.

(** A response that the loop over the groups does not keep: empty once
    trimmed, or one of the three phrases whatever the case of its
    letters. *)
Definition discarded `{GoStrings} (content : string) : Prop :=
  let c := strings_TrimSpace content in
  c = "" ∨ strings_ToLower c = "no match" ∨ strings_ToLower c = "not found"
  ∨ strings_ToLower c = "no information".

(** The fields of the merged record that hold one string, and those that
    hold a list of strings filled from the records. *)
Definition scalarKeys : list string :=
  ["name"; "model_number"; "serial_number"; "warranty_info"].

Definition listKeys : list string := ["user_manual"; "other_documents"].

Definition isListKey (k : string) : bool :=
  bool_decide (k = "user_manual") || bool_decide (k = "other_documents").

(** The value, other than the placeholder, that a record decoded from a
    response offers for a scalar field. *)
Definition scalarOf (k : string) (r : gmap string value) : option string :=
  match r !! "raw_content", r !! k with
  | None, Some (VString s) => if bool_decide (s ≠ "NO_MATCH") then Some s else None
  | _, _ => None
  end.

(** The first such value in the order of the records, or the
    placeholder. *)
Definition firstScalar (k : string) (records : list (gmap string value)) : string :=
  default "NO_MATCH" (head (omap (scalarOf k) records)).

(** The strings that a record holds as a [[]string], or as one string
    other than the placeholder, for a list field. *)
Definition listOf (k : string) (r : gmap string value) : list string :=
  match r !! "raw_content", r !! k with
  | None, Some (VStrings l) => l
  | None, Some (VString s) => if bool_decide (s ≠ "NO_MATCH") then [s] else []
  | _, _ => []
  end.

(** A list without its repetitions, every element at the place of its
    first occurrence. *)
Fixpoint firstSeen (l : list string) : list string :=
  match l with
  | [] => []
  | x :: t => x :: filter (λ y, y ≠ x) (firstSeen t)
  end.

(** What merging an entry [(k, v)] does to the value [old] that
    [combinedResults] has for [k]; [None] for [v] is no entry. *)
Definition step (k : string) (old : option value) (v : option value) : option value :=
  match v with
  | None => old
  | Some v =>
      if isListKey k
      then
        match v, old with
        | VStrings l, Some (VStrings cur) => Some (VStrings (cur ++ l))
        | VString s, Some (VStrings cur) =>
            if bool_decide (s ≠ "NO_MATCH") then Some (VStrings (cur ++ [s])) else old
        | _, _ => old
        end
      else
        match v, old with
        | VString s, Some (VString cur) =>
            if bool_decide (s ≠ "NO_MATCH") && bool_decide (cur = "NO_MATCH")
            then Some (VString s) else old
        | _, _ => old
        end
  end.

(** What merging a whole record does to the value for [k], for a key
    other than [additional_info]. *)
Definition mergeKey (k : string) (old : option value) (r : gmap string value) : option value :=
  match r !! "raw_content" with
  | Some _ => old
  | None => step k old (r !! k)
  end.

(** The three lists of [combinedResults] are lists of strings. *)
Definition listsTyped (c : gmap string value) : Prop :=
  (∃ l, c !! "user_manual" = Some (VStrings l))
  ∧ (∃ l, c !! "other_documents" = Some (VStrings l))
  ∧ (∃ l, c !! "additional_info" = Some (VStrings l)).

End MergeNotions.


(** ** Notions used in the further statements *)

Module UploadNotions.
Import Manager.

(** A header as [handleFileUpload] compares it. *)
Definition normalize `{GoStrings} (header : string) : string :=
  strings_ToLower (strings_TrimSpace header).

(** The position of the last, and of the first, header that normalizes
    to [name]. *)
Fixpoint lastIndex `{GoStrings} (name : string) (headers : list string) : option nat :=
  match headers with
  | [] => None
  | header :: rest =>
      match lastIndex name rest with
      | Some j => Some (S j)
      | None => if bool_decide (normalize header = name) then Some O else None
      end
  end.

Fixpoint firstIndex `{GoStrings} (name : string) (headers : list string) : option nat :=
  match headers with
  | [] => None
  | header :: rest =>
      if bool_decide (normalize header = name) then Some O
      else S <$> firstIndex name rest
  end.

(** The field of a record at a position that may be missing. *)
Definition fieldAt (record : list string) (j : option nat) : option string :=
  j ≫= (record !!.).

(** The job that a record of the file stands for: the fields under the
    last [model_number] and [url] headers, and, as description, the field
    under the first [parse_description] header when it is not empty. *)
Definition jobOfRecord `{GoStrings} (headers record : list string) : BatchJob.t :=
  BatchJob.mk
    (default "" (fieldAt record (lastIndex "model_number" headers)))
    (default "" (fieldAt record (lastIndex "url" headers)))
    "pending" "" 0
    (match fieldAt record (firstIndex (strings_ToLower "parse_description") headers) with
     | Some d => if bool_decide (d ≠ "") then Some d else None
     | None => None
     end).

(** A job as ingestion creates it. *)
Definition freshJob (j : BatchJob.t) : Prop :=
  BatchJob.Status j = "pending" ∧ BatchJob.Error j = "" ∧ BatchJob.Progress j = 0.

End UploadNotions.


Module ParseNotions.
Import Parser MergeNotions.

Section Kept.
Context `{GoStrings} `{JSON}.

(** Whether a query asks for product information. *)
Definition isProductQuery (parseDescription : string) : bool :=
  containsAny (strings_ToLower parseDescription)
    ["extract product"; "product information"; "product details"].

(** The text that is kept of a response to a query that does not ask
    for product information. *)
Definition keptText (content : string) : option string :=
  let c := strings_TrimSpace content in
  if isNoResult c then None else Some c.

(** The record that is kept of a response to a product-information
    query: the decoded object with its missing fields filled in, or the
    trimmed response itself as a raw fragment when it is not JSON. *)
Definition keptRecord (content : string) : option (gmap string value) :=
  let c := strings_TrimSpace content in
  if isNoResult c then None
  else match json_Unmarshal_map c with
       | Ok (Some m) => Some (backfill m)
       | Ok None => None
       | Err _ => Some {[ "raw_content" := VString c ]}
       end.

(** A response that decodes to the JSON [null] although it is not
    discarded. *)
Definition decodesToNull (content : string) : Prop :=
  isNoResult (strings_TrimSpace content) = false
  ∧ json_Unmarshal_map (strings_TrimSpace content) = Ok None.

(** The first choices [answers] of the responses to the requests for
    the chunk groups, in the order of the groups. *)
Definition answered (p : UnifiedParser) (parseDescription : string)
    (groups : list (list string)) (answers : list string) : Prop :=
  length answers = length groups
  ∧ ∀ i g c, groups !! i = Some g → answers !! i = Some c →
      ∃ others, client p i (ModelName p)
                  (promptFor p (Strings.Join g " ") parseDescription) = Ok (c :: others).

End Kept.

(** The raw fragment that a record stands for. *)
Definition rawOf (r : gmap string value) : option string :=
  match r !! "raw_content" with
  | Some (VString s) => Some s
  | _ => None
  end.

(** The raw fragments of the records are strings. *)
Definition rawTyped (records : list (gmap string value)) : Prop :=
  ∀ r v, r ∈ records → r !! "raw_content" = Some v → ∃ s, v = VString s.

(** The merged record, field by field. *)
Definition mergedRecord (records : list (gmap string value)) : gmap string value :=
  {[ "name" := VString (firstScalar "name" records);
     "model_number" := VString (firstScalar "model_number" records);
     "serial_number" := VString (firstScalar "serial_number" records);
     "warranty_info" := VString (firstScalar "warranty_info" records);
     "user_manual" := VStrings (firstSeen (concat (listOf "user_manual" <$> records)));
     "other_documents" := VStrings (firstSeen (concat (listOf "other_documents" <$> records)));
     "additional_info" := VStrings (firstSeen (omap rawOf records)) ]}.

End ParseNotions.


(** ** manager/main.go: the clients of [handleWebSocket] *)

Module Sockets.
Import Manager.

Definition setClients (bp : BatchProcess.t) (clients : list chan) : BatchProcess.t :=
  BatchProcess.mk (BatchProcess.ID bp) (BatchProcess.Jobs bp) (BatchProcess.Status bp)
    (BatchProcess.Progress bp) (BatchProcess.StartTime bp) (BatchProcess.EndTime bp)
    clients.

(** [process.clients = append(process.clients, updates)], under the
    lock; [updates] is the channel that [make] has just returned. *)
Definition register (bp : BatchProcess.t) (updates : chan) : BatchProcess.t * list Event :=
  (setClients bp (BatchProcess.clients bp ++ [updates]),
   [EvLock; EvRead FClients; EvWrite FClients; EvUnlock]).

(** The scan of the deferred function: the index at which it breaks. *)
Fixpoint findClient (clients : list chan) (updates : chan) : option nat :=
  match clients with
  | [] => None
  | ch :: rest => if bool_decide (ch = updates) then Some O else S <$> findClient rest updates
  end.

(** The deferred function of [handleWebSocket] up to [Unlock]:
    [clients = append(clients[:i], clients[i+1:]...)] at the first [i]
    with [clients[i] == updates]. *)
Definition unregister (bp : BatchProcess.t) (updates : chan) : BatchProcess.t * list Event :=
  match findClient (BatchProcess.clients bp) updates with
  | Some i =>
      (setClients bp (take i (BatchProcess.clients bp) ++ drop (S i) (BatchProcess.clients bp)),
       [EvLock; EvRead FClients; EvWrite FClients; EvUnlock])
  | None => (bp, [EvLock; EvRead FClients; EvUnlock])
  end.

(** The channels on which a trace sends. *)
Definition sends (tr : list Event) : list chan :=
  omap (λ e, match e with EvSend c => Some c | _ => None end) tr.

End Sockets.


(** ** manager/parser.go: [preprocessContent] and [findPdfLinks] *)

Module Links.
Import Parser.

#[local] Set Warnings "-register-all".

(** The nodes of [golang.org/x/net/html]: the fields that the two
    functions read, with the children of a node in the order of
    [FirstChild], [NextSibling]. *)
Inductive NodeType : Type :=
| ErrorNode
| TextNode
| DocumentNode
| ElementNode
| CommentNode
| DoctypeNode.

Record Attribute : Type := {
  Key : string;
  Val : string
}.

Inductive Node : Type :=
| mkNode (type : NodeType) (Data : string) (Attr : list Attribute) (children : list Node).

Definition is_text (t : NodeType) : bool :=
  match t with
  | TextNode => true
  | _ => false
  end.

Definition is_element (t : NodeType) : bool :=
  match t with
  | ElementNode => true
  | _ => false
  end.

(** [html.Parse], and the functions of [net/url] that [findPdfLinks]
    calls. *)
Class Html := {
  html_Parse : string → result Node
}.

Class Url := {
  URL : Type;
  url_Parse : string → result URL;
  IsAbs : URL → bool;
  ResolveReference : URL → URL → URL;
  url_String : URL → string
}.

(** [strings.HasSuffix]. *)
Definition strings_HasSuffix (s suffix : string) : bool :=
  (String.length suffix <=? String.length s)%nat
  && bool_decide (String.substring (String.length s - String.length suffix)
                            (String.length suffix) s = suffix).

Section Walks.
Context `{GoStrings} `{Html} `{Url}.

(** The closure [f] of [preprocessContent], threading [texts]. *)
Fixpoint walkText (n : Node) (texts : list string) : list string :=
  match n with
  | mkNode type Data _ children =>
      let texts :=
        if is_text type && bool_decide (strings_TrimSpace Data ≠ "")
        then texts ++ [strings_TrimSpace Data]
        else texts in
      (fix siblings (cs : list Node) (texts : list string) : list string :=
         match cs with
         | [] => texts
         | c :: rest => siblings rest (walkText c texts)
         end) children texts
  end.

(** [preprocessContent]; the nil slice of the error case is the empty
    list. *)
Definition preprocessContent (htmlContent : string) : list string :=
  match html_Parse htmlContent with
  | Err _ => []
  | Ok doc => walkText doc []
  end.

(** [hasSuffix]. *)
Fixpoint hasSuffix_loop (s : string) (suffixes : list string) : bool :=
  match suffixes with
  | [] => false
  | suffix :: rest =>
      if strings_HasSuffix s (strings_ToLower suffix) then true else hasSuffix_loop s rest
  end.

Definition hasSuffix (s : string) (suffixes : list string) : bool :=
  hasSuffix_loop (strings_ToLower s) suffixes.

Definition allowedExtensions : list string := [".pdf"; ".docx"].

(** [for _, a := range n.Attr] of [findPdfLinks], threading [links];
    [baseURL] is [p.siteScraper.baseURL]. *)
Fixpoint attrLoop (baseURL : string) (attrs : list Attribute) (links : list string)
    : list string :=
  match attrs with
  | [] => links
  | a :: rest =>
      if bool_decide (Key a = "href")
      then
        let href := strings_TrimSpace (Val a) in
        if bool_decide (href ≠ "")
        then
          if Strings.HasPrefix href "#" then attrLoop baseURL rest links
          else if hasSuffix href allowedExtensions
          then
            match url_Parse href with
            | Err _ => attrLoop baseURL rest links
            | Ok u =>
                if IsAbs u
                then attrLoop baseURL rest (links ++ [url_String u])
                else
                  match url_Parse baseURL with
                  | Err _ => attrLoop baseURL rest links
                  | Ok base =>
                      attrLoop baseURL rest (links ++ [url_String (ResolveReference base u)])
                  end
            end
          else attrLoop baseURL rest links
        else attrLoop baseURL rest links
      else attrLoop baseURL rest links
  end.

(** The closure [f] of [findPdfLinks], threading [links]. *)
Fixpoint walkLinks (baseURL : string) (n : Node) (links : list string) : list string :=
  match n with
  | mkNode type Data Attr children =>
      let links :=
        if is_element type && bool_decide (Data = "a")
        then attrLoop baseURL Attr links
        else links in
      (fix siblings (cs : list Node) (links : list string) : list string :=
         match cs with
         | [] => links
         | c :: rest => siblings rest (walkLinks baseURL c links)
         end) children links
  end.

(** [findPdfLinks]. *)
Definition findPdfLinks (baseURL htmlContent : string) : result (list string) :=
  match html_Parse htmlContent with
  | Err e => Err ("failed to parse HTML content: " +:+ e)
  | Ok doc => Ok (removeDuplicates (walkLinks baseURL doc []))
  end.

End Walks.

End Links.

Module LinksNotions.
Import Parser Links.

(** The nodes of a tree in document order. *)
Fixpoint nodesOf (n : Node) : list Node :=
  match n with
  | mkNode _ _ _ children =>
      n :: (fix siblings (cs : list Node) : list Node :=
              match cs with
              | [] => []
              | c :: rest => nodesOf c ++ siblings rest
              end) children
  end.

Definition typeOf (n : Node) : NodeType := match n with mkNode t _ _ _ => t end.
Definition dataOf (n : Node) : string := match n with mkNode _ d _ _ => d end.
Definition attrsOf (n : Node) : list Attribute := match n with mkNode _ _ a _ => a end.

(** The attributes of the [a] elements of a tree, in document order. *)
Definition anchorAttrs (doc : Node) : list Attribute :=
  concat ((λ n, if is_element (typeOf n) && bool_decide (dataOf n = "a")
                then attrsOf n else []) <$> nodesOf doc).

Section Linked.
Context `{GoStrings} `{Html} `{Url}.

(** The text of a text node that is not blank. *)
Definition textOf (n : Node) : option string :=
  if is_text (typeOf n) && bool_decide (strings_TrimSpace (dataOf n) ≠ "")
  then Some (strings_TrimSpace (dataOf n)) else None.

(** The attribute [a] is an [href] to a document, and [link] is the
    address it stands for: its own when it is absolute, and otherwise
    the one it resolves to from [baseURL]. *)
Definition linked (baseURL : string) (a : Attribute) (link : string) : Prop :=
  Key a = "href"
  ∧ strings_TrimSpace (Val a) ≠ ""
  ∧ Strings.HasPrefix (strings_TrimSpace (Val a)) "#" = false
  ∧ (strings_HasSuffix (strings_ToLower (strings_TrimSpace (Val a))) (strings_ToLower ".pdf")
       = true
     ∨ strings_HasSuffix (strings_ToLower (strings_TrimSpace (Val a))) (strings_ToLower ".docx")
       = true)
  ∧ ∃ u, url_Parse (strings_TrimSpace (Val a)) = Ok u
         ∧ if IsAbs u then link = url_String u
           else ∃ base, url_Parse baseURL = Ok base
                        ∧ link = url_String (ResolveReference base u).

End Linked.

End LinksNotions.


(** ** More sample data *)

Module Samples.
Import Manager Parser Links.

(** A world whose network answers the first post with a success and
    whose file system refuses every write. *)
Definition fullDisk : World :=
  {| net := λ n, default (PostErr "connection refused")
                   ([Demo.reply 200 Demo.successBody] !! n);
     mkdir_err := λ _, None;
     write_err := λ _, Some "no space left on device";
     posts := []; sleeps := []; dirs := []; files := []; timeline := [] |}.

(** A JSON object whose raw_content is the number 5, and a decoder that
    knows it and the texts of [Demo.decoded]. *)
Definition rawNumber : string := Demo.jobj "raw_content" "5".

Definition jsonRaw : JSON := {|
  json_Unmarshal_map s :=
    if bool_decide (s = rawNumber)
    then Ok (Some {[ "raw_content" := VFloat 4617315517961601024 ]})
    else json_Unmarshal_map (JSON := Demo.json) s
|}.

(** A parsed page: a text, a relative link to a manual, a blank text, a
    link within the page, an absolute link, and the first link again. *)
Definition anchor (attrs : list Attribute) (children : list Node) : Node :=
  mkNode ElementNode "a" attrs children.

Definition href (val : string) : Attribute := {| Key := "href"; Val := val |}.

Definition page : Node :=
  mkNode DocumentNode "" []
    [mkNode ElementNode "html" []
       [mkNode ElementNode "body" []
          [mkNode TextNode " Model X9 " [] [];
           anchor [href " /docs/Manual.PDF "] [mkNode TextNode "manual" [] []];
           mkNode TextNode "   " [] [];
           anchor [href "#top.pdf"; {| Key := "class"; Val := "x.pdf" |}] [];
           anchor [href "http://b.example/spec.docx"] [];
           anchor [href "/docs/Manual.PDF"] []]]].

Definition html : Html := {|
  html_Parse s := if bool_decide (s = "page") then Ok page else Err "unexpected EOF"
|}.

(** URLs as their texts; a reference is resolved by appending it to the
    base. *)
Definition url : Url := {|
  URL := string;
  url_Parse s := Ok s;
  IsAbs u := Strings.HasPrefix u "http://";
  ResolveReference base u := base +:+ u;
  url_String u := u
|}.

End Samples.


(** * Properties *)

(** ** Go integers *)

Lemma wrap_small (z : Z) : GoInt.min_int ≤ z ≤ GoInt.max_int → GoInt.wrap z = z.
Proof.
  unfold GoInt.wrap, GoInt.min_int, GoInt.max_int. intros Hz.
  rewrite Z.mod_small; lia.
Qed.

Lemma add_small (a b : Z) :
  GoInt.min_int ≤ a + b ≤ GoInt.max_int → GoInt.add a b = a + b.
Proof. apply wrap_small. Qed.

Lemma mul_small (a b : Z) :
  GoInt.min_int ≤ a * b ≤ GoInt.max_int → GoInt.mul a b = a * b.
Proof. apply wrap_small. Qed.

Lemma div_small (a b : Z) :
  0 ≤ a ≤ GoInt.max_int → 0 < b → GoInt.div a b = a `div` b.
Proof.
  intros Ha Hb. unfold GoInt.div. rewrite Z.quot_div_nonneg by lia.
  apply wrap_small. unfold GoInt.min_int.
  split; [transitivity 0; [lia | apply Z.div_pos; lia] |].
  transitivity a; [apply Z.div_le_upper_bound; nia | lia].
Qed.

(** ** The collecting goroutine *)

Section Collector.
Import Manager Notions Sockets.

Lemma closes_app (a b : list Event) : closes (a ++ b) = (closes a + closes b)%nat.
Proof. unfold closes. by rewrite filter_app, length_app. Qed.

Lemma closes_cons (e : Event) (l : list Event) :
  closes (e :: l) = ((if is_close e then 1 else 0) + closes l)%nat.
Proof.
  unfold closes. rewrite filter_cons. destruct e; simpl; try done.
Qed.

Lemma closes_sends (cs : list chan) : closes (EvSend <$> cs) = O.
Proof. induction cs as [|c cs IH]; [done | exact IH]. Qed.

Lemma closes_notifyClients (b : BatchProcess.t) : closes (notifyClients b) = O.
Proof.
  unfold notifyClients. rewrite !closes_app, closes_sends. reflexivity.
Qed.

Lemma updates_app (a b : list Event) : updates (a ++ b) = updates a ++ updates b.
Proof. apply omap_app. Qed.

Lemma updates_cons (e : Event) (l : list Event) :
  updates (e :: l) = match e with EvUpdate u => u :: updates l | _ => updates l end.
Proof. by destruct e. Qed.

Lemma updates_sends (cs : list chan) : updates (EvSend <$> cs) = [].
Proof. induction cs as [|c cs IH]; [done | exact IH]. Qed.

Lemma updates_notifyClients (b : BatchProcess.t) :
  updates (notifyClients b) =
  [{| update_id := BatchProcess.ID b; update_status := BatchProcess.Status b;
      update_progress := BatchProcess.Progress b; update_jobs := BatchProcess.Jobs b |}].
Proof.
  unfold notifyClients. rewrite !updates_app, updates_sends. reflexivity.
Qed.

(** [updateJob] touches the job list only, and closes nothing. *)
Lemma updateJob_frame (b : BatchProcess.t) (job : BatchJob.t) :
  let '(b', tr) := updateJob b job in
  BatchProcess.ID b' = BatchProcess.ID b
  ∧ BatchProcess.Status b' = BatchProcess.Status b
  ∧ BatchProcess.Progress b' = BatchProcess.Progress b
  ∧ BatchProcess.EndTime b' = BatchProcess.EndTime b
  ∧ BatchProcess.clients b' = BatchProcess.clients b
  ∧ length (BatchProcess.Jobs b') = length (BatchProcess.Jobs b)
  ∧ closes tr = O.
Proof.
  unfold updateJob. destruct (findJob (BatchProcess.Jobs b) job) as [i|]; simpl.
  - rewrite length_insert. repeat split.
  - repeat split.
Qed.

(** What one iteration of the loop does, as long as fewer results than
    jobs have been received and the product by 100 fits an [int]. *)
Lemma collectStep_spec (now : Z) (st : Collector) (job : BatchJob.t) :
  0 ≤ completed st < total st →
  total st * 100 ≤ GoInt.max_int →
  let st' := collectStep now st job in
  completed st' = completed st + 1
  ∧ total st' = total st
  ∧ BatchProcess.ID (bp st') = BatchProcess.ID (bp st)
  ∧ length (BatchProcess.Jobs (bp st')) = length (BatchProcess.Jobs (bp st))
  ∧ BatchProcess.Progress (bp st') = ((completed st + 1) * 100) `div` total st
  ∧ (completed st + 1 = total st →
       BatchProcess.Status (bp st') = "completed"
       ∧ BatchProcess.EndTime (bp st') = instant now
       ∧ closes (trace st') = S (closes (trace st))
       ∧ last (updates (trace st')) =
           Some {| update_id := BatchProcess.ID (bp st);
                   update_status := "completed";
                   update_progress := BatchProcess.Progress (bp st');
                   update_jobs := BatchProcess.Jobs (bp st') |})
  ∧ (completed st + 1 ≠ total st →
       BatchProcess.Status (bp st') = BatchProcess.Status (bp st)
       ∧ BatchProcess.EndTime (bp st') = BatchProcess.EndTime (bp st)
       ∧ closes (trace st') = closes (trace st)).
Proof.
  intros Hc Ht. unfold collectStep.
  pose proof (updateJob_frame (bp st) job) as Hu.
  destruct (updateJob (bp st) job) as [b1 tr1].
  destruct Hu as (Hid & Hst & Hpr & Het & Hcl & Hlen & Hclose).
  assert (Hadd : GoInt.add (completed st) 1 = completed st + 1).
  { apply add_small. unfold GoInt.min_int, GoInt.max_int in *. lia. }
  assert (Hmul : GoInt.mul (completed st + 1) 100 = (completed st + 1) * 100).
  { apply mul_small. unfold GoInt.min_int, GoInt.max_int in *. lia. }
  assert (Hdiv : GoInt.div ((completed st + 1) * 100) (total st)
                 = ((completed st + 1) * 100) `div` total st).
  { apply div_small; unfold GoInt.max_int in *; lia. }
  rewrite Hadd, Hmul, Hdiv. case_bool_decide as Hfin; simpl.
  - split_and!; try done; try lia.
    intros _. split_and!; try done.
    + rewrite !closes_app, !closes_cons, !closes_notifyClients, Hclose. simpl. lia.
    + rewrite !updates_app, !updates_cons, !updates_notifyClients.
      rewrite !app_assoc, last_snoc. simpl. by rewrite Hid.
  - split_and!; try done.
    intros _. split_and!; try done.
    rewrite !closes_app, !closes_cons, closes_notifyClients, Hclose. simpl. lia.
Qed.

Lemma collect_snoc (now : Z) (st : Collector) (rs : list BatchJob.t) (r : BatchJob.t) :
  collect now st (rs ++ [r]) = collectStep now (collect now st rs) r.
Proof. unfold collect. by rewrite foldl_app. Qed.

(** The state of the collector after it has received [rs], when no more
    results arrive than there are jobs. *)
Lemma collect_spec (now : Z) (st : Collector) (rs : list BatchJob.t) :
  0 ≤ completed st →
  completed st + GoInt.len rs ≤ total st →
  total st * 100 ≤ GoInt.max_int →
  let st' := collect now st rs in
  completed st' = completed st + GoInt.len rs
  ∧ total st' = total st
  ∧ BatchProcess.ID (bp st') = BatchProcess.ID (bp st)
  ∧ length (BatchProcess.Jobs (bp st')) = length (BatchProcess.Jobs (bp st))
  ∧ (rs ≠ [] →
       BatchProcess.Progress (bp st')
       = ((completed st + GoInt.len rs) * 100) `div` total st)
  ∧ (completed st + GoInt.len rs < total st →
       BatchProcess.Status (bp st') = BatchProcess.Status (bp st)
       ∧ BatchProcess.EndTime (bp st') = BatchProcess.EndTime (bp st)
       ∧ closes (trace st') = closes (trace st))
  ∧ (rs ≠ [] → completed st + GoInt.len rs = total st →
       BatchProcess.Status (bp st') = "completed"
       ∧ BatchProcess.EndTime (bp st') = instant now
       ∧ closes (trace st') = S (closes (trace st))
       ∧ last (updates (trace st')) =
           Some {| update_id := BatchProcess.ID (bp st);
                   update_status := "completed";
                   update_progress := BatchProcess.Progress (bp st');
                   update_jobs := BatchProcess.Jobs (bp st') |}).
Proof.
  intros Hc0. induction rs as [|r rs IH] using rev_ind; intros Hle Hmax.
  - unfold GoInt.len in *. simpl in *. split_and!; try done; try lia.
  - unfold GoInt.len in *. rewrite length_app in *. simpl in *.
    rewrite collect_snoc.
    destruct IH as (Hcmp & Htot & Hid & Hlen & _ & Hbefore & _); [lia | done |].
    destruct Hbefore as (Hst & Het & Hcl); [lia|].
    pose proof (collectStep_spec now (collect now st rs) r) as Hstep.
    rewrite Hcmp, Htot in Hstep.
    destruct Hstep as (Hc' & Ht' & Hid' & Hlen' & Hpr' & Hfin & Hnot); [lia | done |].
    replace (completed st + Z.of_nat (length rs + 1))
      with (completed st + Z.of_nat (length rs) + 1) by lia.
    split_and!; try congruence.
    + intros Hlt. assert (Hne : completed st + Z.of_nat (length rs) + 1 ≠ total st) by lia.
      destruct (Hnot Hne) as (? & ? & ?). split_and!; congruence.
    + intros _ Heq. destruct (Hfin Heq) as (? & ? & ? & Hlast).
      split_and!; congruence.
Qed.

(** [runWorkers] sends one result for every position of the schedule
    that is a position of the queue, each with a terminal status. *)
Lemma runWorkers_length `{ManagerLib} (jobs : list BatchJob.t) (sched : list nat) (w : World) :
  Forall (λ i, (i < length jobs)%nat) sched →
  length (runWorkers jobs sched w).1 = length sched.
Proof.
  revert w. induction sched as [|i sched IH]; intros w Hall; [done|].
  inversion Hall as [|? ? Hi Hrest]; subst. simpl.
  destruct (lookup_lt_is_Some_2 jobs i Hi) as [job Hjob]. rewrite Hjob.
  destruct (worker job w) as [d w1]. specialize (IH w1 Hrest).
  destruct (runWorkers jobs sched w1) as [more w2]. simpl in *. by rewrite IH.
Qed.

Lemma worker_terminal `{ManagerLib} (job : BatchJob.t) (w : World) :
  BatchJob.Status (worker job w).1 = "completed"
  ∨ BatchJob.Status (worker job w).1 = "failed".
Proof.
  unfold worker. destruct (processURL job "./data" w) as [[?|e] w']; simpl; auto.
Qed.

Lemma runWorkers_terminal `{ManagerLib} (jobs : list BatchJob.t) (sched : list nat) (w : World) :
  Forall (λ r, BatchJob.Status r = "completed" ∨ BatchJob.Status r = "failed")
    (runWorkers jobs sched w).1.
Proof.
  revert w. induction sched as [|i sched IH]; intros w; simpl; [constructor|].
  destruct (jobs !! i) as [job|]; [|apply IH].
  pose proof (worker_terminal job w) as Hterm.
  destruct (worker job w) as [d w1]. specialize (IH w1).
  destruct (runWorkers jobs sched w1) as [more w2]. simpl in *. by constructor.
Qed.


(** *** The sends of the collector *)

Lemma sends_app (a b : list Event) : sends (a ++ b) = sends a ++ sends b.
Proof. apply omap_app. Qed.

(** [notifyClients] tries one send on every client's channel, in the
    order of the clients. *)
Lemma sends_notifyClients (b : BatchProcess.t) :
  sends (notifyClients b) = BatchProcess.clients b.
Proof.
  unfold notifyClients, sends. cbn [app omap list_omap]. rewrite omap_app.
  cbn [omap list_omap]. rewrite app_nil_r.
  induction (BatchProcess.clients b) as [|c cs IH]; [done|].
  cbn [fmap list_fmap omap list_omap]. by f_equal.
Qed.

Lemma sends_updateJob (b : BatchProcess.t) (job : BatchJob.t) :
  sends (updateJob b job).2 = [].
Proof. unfold updateJob. by destruct (findJob (BatchProcess.Jobs b) job). Qed.

(** One iteration notifies every client once, and once more when it is
    the iteration that completes the batch; the trace of that iteration
    ends with the notification of the completed batch. *)
Lemma collectStep_sends (now : Z) (st : Collector) (job : BatchJob.t) :
  let st' := collectStep now st job in
  BatchProcess.clients (bp st') = BatchProcess.clients (bp st)
  ∧ sends (trace st')
    = sends (trace st) ++ BatchProcess.clients (bp st)
      ++ (if bool_decide (GoInt.add (completed st) 1 = total st)
          then BatchProcess.clients (bp st) else [])
  ∧ (GoInt.add (completed st) 1 = total st →
     ∃ before, trace st'
               = before ++ [EvClose; EvWrite FStatus; EvWrite FEndTime]
                 ++ notifyClients (bp st')).
Proof.
  unfold collectStep.
  pose proof (updateJob_frame (bp st) job) as Hu.
  pose proof (sends_updateJob (bp st) job) as Hnone.
  destruct (updateJob (bp st) job) as [b1 tr1].
  destruct Hu as (_ & _ & _ & _ & Hcl & _). simpl in Hnone.
  case_bool_decide as Hfin; cbn [trace bp].
  - split_and!; [done | | intros _; by eexists].
    rewrite !sends_app, !sends_notifyClients, Hnone. cbn [BatchProcess.clients setEndTime
      setStatus setProgress]. rewrite Hcl. simpl. by rewrite <- !app_assoc.
  - split_and!; [done | | done].
    rewrite !sends_app, !sends_notifyClients, Hnone. cbn [BatchProcess.clients setProgress].
    rewrite Hcl. simpl. by rewrite app_nil_r.
Qed.

(** The sends after the collector has received [rs]: every client has
    been notified once for each result, and once more if the batch is
    completed. *)
Lemma collect_sends (b : BatchProcess.t) (now : Z) (rs : list BatchJob.t) :
  let N := length (BatchProcess.Jobs b) in
  let st' := collect now (startCollector b) rs in
  (1 ≤ N)%nat →
  Z.of_nat N * 100 ≤ GoInt.max_int →
  (length rs ≤ N)%nat →
  BatchProcess.clients (bp st') = BatchProcess.clients b
  ∧ sends (trace st')
    = concat (replicate (length rs) (BatchProcess.clients b))
      ++ (if bool_decide (length rs = N) then BatchProcess.clients b else [])
  ∧ (length rs = N →
     ∃ before, trace st'
               = before ++ [EvClose; EvWrite FStatus; EvWrite FEndTime]
                 ++ notifyClients (bp st')).
Proof.
  intros N st' HN Hmax. unfold st'. clear st'.
  induction rs as [|r rs IH] using rev_ind; intros Hlen.
  - simpl. rewrite bool_decide_eq_false_2 by (simpl; lia).
    split_and!; [done | done | simpl; lia].
  - rewrite length_app in Hlen. simpl in Hlen.
    destruct IH as (Hcl & Hsends & _); [lia|].
    rewrite bool_decide_eq_false_2, app_nil_r in Hsends by lia.
    pose proof (collect_spec now (startCollector b) rs) as Hc.
    simpl in Hc. unfold GoInt.len in Hc. fold N in Hc.
    destruct Hc as (Hcmp & Htot & _); [lia | lia | exact Hmax |].
    rewrite collect_snoc.
    destruct (collectStep_sends now (collect now (startCollector b) rs) r)
      as (Hcl' & Hsends' & Hlast).
    rewrite Hcmp, Htot in Hsends', Hlast.
    assert (Hadd : GoInt.add (0 + Z.of_nat (length rs)) 1 = Z.of_nat (length rs) + 1).
    { rewrite add_small; [lia|]. unfold GoInt.min_int, GoInt.max_int in *. lia. }
    rewrite Hadd in Hsends', Hlast. rewrite length_app. simpl.
    split_and!.
    + by rewrite Hcl'.
    + rewrite Hsends', Hsends, Hcl.
      replace (length rs + 1)%nat with (S (length rs)) by lia.
      rewrite replicate_S_end, concat_app. simpl. rewrite app_nil_r, <- app_assoc.
      do 2 f_equal. destruct (decide (S (length rs) = N)) as [Heq|Hne].
      * by rewrite !bool_decide_eq_true_2 by lia.
      * by rewrite !bool_decide_eq_false_2 by lia.
    + intros Heq. apply Hlast. lia.
Qed.

End Collector.

(** ** C1: progress and the completion of a batch *)

Section BatchCompletion.
Import Manager Notions Sockets.
Context `{ManagerLib}.

(** C1. For a freshly ingested batch [b] with [N >= 1] jobs (fewer than
    2^48, which every Go slice of jobs has), whatever the workers do in
    the world [w] and in whatever order [sched] the results arrive: the
    workers send exactly [N] results, each with a terminal status; after
    the collector has received [k <= N] of them the progress of the batch
    is [floor (100 * k / N)]; while [k < N] the batch is still
    processing, its end time untouched and the completion branch not
    taken; and when all [N] are received the progress is 100, the status
    is completed, the end time is the instant read from the clock, the
    completion branch has been taken exactly once, and the last update
    built for the observers shows the completed batch.  The final
    notification is issued: what the collector does ends, after the
    close of the results channel and the writes of the status and of the
    end time, with the [notifyClients] of the completed batch, which
    tries one send on the channel of every client; with it every client
    has been sent [N + 1] notifications, one for each result and the
    final one. *)
Theorem C1_progress_and_single_completion
    (b : BatchProcess.t) (sched : list nat) (now : Z) (w : World) :
  let N := length (BatchProcess.Jobs b) in
  (1 ≤ N)%nat →
  Z.of_nat N < 2 ^ 48 →
  BatchProcess.Progress b = 0 →
  sched ≡ₚ seq 0 N →
  let results := (runWorkers (BatchProcess.Jobs b) sched w).1 in
  let after (k : nat) := collect now (startCollector b) (take k results) in
  length results = N
  ∧ Forall (λ r, BatchJob.Status r = "completed" ∨ BatchJob.Status r = "failed") results
  ∧ (∀ k, (k ≤ N)%nat →
       BatchProcess.Progress (bp (after k)) = (100 * Z.of_nat k) `div` Z.of_nat N)
  ∧ (∀ k, (k < N)%nat →
       BatchProcess.Status (bp (after k)) = "processing"
       ∧ BatchProcess.EndTime (bp (after k)) = BatchProcess.EndTime b
       ∧ closes (trace (after k)) = O)
  ∧ let fin := (startProcessing b sched now w).1 in
    BatchProcess.Progress (bp fin) = 100
    ∧ BatchProcess.Status (bp fin) = "completed"
    ∧ BatchProcess.EndTime (bp fin) = instant now
    ∧ closes (trace fin) = 1%nat
    ∧ last (updates (trace fin)) =
        Some {| update_id := BatchProcess.ID b; update_status := "completed";
                update_progress := 100; update_jobs := BatchProcess.Jobs (bp fin) |}
    ∧ (∃ before, trace fin
                 = before ++ [EvClose; EvWrite FStatus; EvWrite FEndTime]
                   ++ notifyClients (bp fin))
    ∧ sends (notifyClients (bp fin)) = BatchProcess.clients b
    ∧ sends (trace fin) = concat (replicate (S N) (BatchProcess.clients b)).
Proof.
  intros N HN Hbound Hfresh Hperm results after.
  assert (Hlen : length results = N).
  { unfold results. rewrite runWorkers_length.
    - rewrite Hperm. apply length_seq.
    - rewrite Hperm. apply Forall_forall. intros i Hi.
      apply elem_of_seq in Hi. lia. }
  assert (Hmax : total (startCollector b) * 100 ≤ GoInt.max_int).
  { unfold startCollector, GoInt.len, GoInt.max_int. simpl. fold N. lia. }
  assert (Hspec : ∀ k, (k ≤ N)%nat →
            let st' := after k in
            (k ≠ O → BatchProcess.Progress (bp st') = (Z.of_nat k * 100) `div` Z.of_nat N)
            ∧ (k = O → BatchProcess.Progress (bp st') = 0)
            ∧ ((k < N)%nat →
                 BatchProcess.Status (bp st') = "processing"
                 ∧ BatchProcess.EndTime (bp st') = BatchProcess.EndTime b
                 ∧ closes (trace st') = O)
            ∧ (k = N →
                 BatchProcess.Status (bp st') = "completed"
                 ∧ BatchProcess.EndTime (bp st') = instant now
                 ∧ closes (trace st') = 1%nat
                 ∧ last (updates (trace st')) =
                     Some {| update_id := BatchProcess.ID b; update_status := "completed";
                             update_progress := BatchProcess.Progress (bp st');
                             update_jobs := BatchProcess.Jobs (bp st') |})).
  { intros k Hk. unfold after.
    pose proof (collect_spec now (startCollector b) (take k results)) as Hc.
    assert (Hlk : GoInt.len (take k results) = Z.of_nat k).
    { unfold GoInt.len. rewrite length_take. lia. }
    rewrite Hlk in Hc. simpl in Hc. unfold GoInt.len in Hc. fold N in Hc.
    destruct Hc as (_ & _ & _ & _ & Hpr & Hbefore & Hfin); [lia | lia | exact Hmax |].
    split_and!.
    - intros Hk0. rewrite Hpr; [done|]. intros Hnil.
      apply (f_equal length) in Hnil. rewrite length_take in Hnil. simpl in Hnil. lia.
    - intros ->. by rewrite take_0.
    - intros Hlt. apply Hbefore. lia.
    - intros ->. apply Hfin; [|lia]. intros Hnil.
      apply (f_equal length) in Hnil. rewrite length_take in Hnil. simpl in Hnil. lia. }
  split_and!.
  - exact Hlen.
  - apply runWorkers_terminal.
  - intros k Hk. destruct (Hspec k Hk) as (Hpos & Hzero & _).
    destruct (decide (k = O)) as [->|Hk0].
    + rewrite Hzero by done. by rewrite Z.mul_0_r, Z.div_0_l by lia.
    + rewrite Hpos by done. f_equal. lia.
  - intros k Hk. destruct (Hspec k) as (_ & _ & Hbefore & _); [lia|]. by apply Hbefore.
  - unfold startProcessing. simpl.
    fold results. destruct (runWorkers (BatchProcess.Jobs b) sched w) as [rs w'] eqn:Hrun.
    simpl in results. subst results. simpl.
    destruct (Hspec N) as (Hpos & _ & _ & Hfin); [lia|].
    unfold after in Hpos, Hfin. rewrite <- Hlen, take_ge in Hpos, Hfin by lia.
    destruct Hfin as (Hst & Het & Hcl & Hlast); [done|].
    assert (Hp100 : BatchProcess.Progress (bp (collect now (startCollector b) rs)) = 100).
    { rewrite Hpos by lia. rewrite Hlen. symmetry. apply Z.div_unique_exact; lia. }
    destruct (collect_sends b now rs) as (Hclients & Hsends & Hends);
      [exact HN | simpl in Hmax; unfold GoInt.len in Hmax; exact Hmax | fold N; lia |].
    fold N in Hsends, Hends. rewrite Hlen, bool_decide_eq_true_2 in Hsends by done.
    assert (Hissued :
      (∃ before, trace (collect now (startCollector b) rs)
                 = before ++ [EvClose; EvWrite FStatus; EvWrite FEndTime]
                   ++ notifyClients (bp (collect now (startCollector b) rs)))
      ∧ sends (notifyClients (bp (collect now (startCollector b) rs)))
        = BatchProcess.clients b
      ∧ sends (trace (collect now (startCollector b) rs))
        = concat (replicate (S N) (BatchProcess.clients b))).
    { split_and!.
      - by apply Hends.
      - by rewrite sends_notifyClients.
      - rewrite Hsends, replicate_S_end, concat_app. simpl. by rewrite app_nil_r. }
    destruct Hissued as (Hends' & Hto & Hall).
    split_and!; try done; first [by rewrite Hlast, Hp100 | exact Hends' | exact Hto | exact Hall].
Qed.

End BatchCompletion.

(** ** C10: duplicate pairs in the job list *)

Section Duplicates.
Import Manager Notions.

Lemma sameJob_key (j job : BatchJob.t) : sameJob j job = true ↔ jobKey j = jobKey job.
Proof.
  unfold sameJob, jobKey. rewrite andb_true_iff, !bool_decide_eq_true.
  split; [intros [-> ->]; done | intros [= -> ->]; done].
Qed.

(** [findJob] returns the first position whose job has the key. *)
Lemma findJob_Some (jobs : list BatchJob.t) (job : BatchJob.t) (idx : nat) :
  findJob jobs job = Some idx →
  (∃ j, jobs !! idx = Some j ∧ jobKey j = jobKey job)
  ∧ (∀ k jk, (k < idx)%nat → jobs !! k = Some jk → jobKey jk ≠ jobKey job).
Proof.
  revert idx. induction jobs as [|j jobs IH]; intros idx; simpl; [done|].
  destruct (sameJob j job) eqn:Hsame.
  - intros [= <-]. split; [|intros; lia].
    exists j. split; [done | by apply sameJob_key].
  - destruct (findJob jobs job) as [i'|]; [|done]. simpl. intros [= <-].
    destruct (IH i' eq_refl) as [Hat Hbefore]. split; [exact Hat|].
    intros [|k] jk Hk Hjk; simpl in Hjk.
    + injection Hjk as <-. intros Hkey. apply sameJob_key in Hkey. congruence.
    + apply (Hbefore k); [lia | done].
Qed.

(** No call of [updateJob] reaches a shadowed entry, and the entry stays
    shadowed. *)
Lemma updateJob_shadowed (b : BatchProcess.t) (job : BatchJob.t) (i : nat) (ji : BatchJob.t) :
  shadowed (BatchProcess.Jobs b) i ji →
  shadowed (BatchProcess.Jobs (updateJob b job).1) i ji.
Proof.
  intros (Hi & j & jj & Hlt & Hj & Hkey). unfold updateJob.
  destruct (findJob (BatchProcess.Jobs b) job) as [idx|] eqn:Hfind; simpl;
    [|by split; [|exists j, jj]].
  destruct (findJob_Some _ _ _ Hfind) as [(jx & Hx & Hxkey) Hfirst].
  assert (Hne : idx ≠ i).
  { intros ->. apply (Hfirst j jj Hlt Hj). congruence. }
  split; [by rewrite list_lookup_insert_ne|].
  destruct (decide (idx = j)) as [->|Hnj].
  - exists j, job. split_and!; [done| |congruence].
    apply list_lookup_insert_eq. by apply lookup_lt_Some in Hj.
  - exists j, jj. split_and!; [done| |done]. by rewrite list_lookup_insert_ne.
Qed.

Lemma collectStep_jobs (now : Z) (st : Collector) (job : BatchJob.t) :
  BatchProcess.Jobs (bp (collectStep now st job))
  = BatchProcess.Jobs (updateJob (bp st) job).1.
Proof.
  unfold collectStep. destruct (updateJob (bp st) job) as [b1 tr1].
  by case_bool_decide.
Qed.

Lemma collect_shadowed (now : Z) (rs : list BatchJob.t) (st : Collector)
    (i : nat) (ji : BatchJob.t) :
  shadowed (BatchProcess.Jobs (bp st)) i ji →
  shadowed (BatchProcess.Jobs (bp (collect now st rs))) i ji.
Proof.
  induction rs as [|r rs IH] using rev_ind; [done|].
  intros Hsh. rewrite collect_snoc, collectStep_jobs.
  by apply updateJob_shadowed, IH.
Qed.

Lemma findJob_None (jobs : list BatchJob.t) (job : BatchJob.t) :
  findJob jobs job = None ↔ jobKey job ∉ jobKey <$> jobs.
Proof.
  induction jobs as [|j jobs IH]; simpl.
  - split; [intros _; apply not_elem_of_nil | done].
  - rewrite not_elem_of_cons, <- IH. destruct (sameJob j job) eqn:Hsame.
    + apply sameJob_key in Hsame. split; [done | intros [Hne _]; congruence].
    + assert (Hne : jobKey job ≠ jobKey j).
      { intros Heq. symmetry in Heq. apply sameJob_key in Heq. congruence. }
      destruct (findJob jobs job); simpl; split; try done. by intros [_ ?].
Qed.

Lemma findJob_insert (jobs : list BatchJob.t) (job : BatchJob.t) (i : nat) :
  findJob jobs job = Some i → findJob (<[i:=job]> jobs) job = Some i.
Proof.
  assert (Hrefl : sameJob job job = true) by by apply sameJob_key.
  revert i. induction jobs as [|j jobs IH]; intros i; simpl; [done|].
  destruct (sameJob j job) eqn:Hsame.
  - intros [= <-]. simpl. by rewrite Hrefl.
  - destruct (findJob jobs job) as [i'|] eqn:Hf'; [|done].
    intros [= <-]. simpl. rewrite Hsame. by rewrite (IH i' eq_refl).
Qed.

(** What [updateJob] does to the batch. *)
Lemma updateJob_spec (b : BatchProcess.t) (job : BatchJob.t) :
  jobKey <$> BatchProcess.Jobs (updateJob b job).1 = jobKey <$> BatchProcess.Jobs b
  ∧ (jobKey job ∉ jobKey <$> BatchProcess.Jobs b → (updateJob b job).1 = b)
  ∧ (∀ i, findJob (BatchProcess.Jobs b) job = Some i →
       BatchProcess.Jobs (updateJob b job).1 !! i = Some job
       ∧ findJob (BatchProcess.Jobs (updateJob b job).1) job = Some i
       ∧ ∀ k, k ≠ i →
           BatchProcess.Jobs (updateJob b job).1 !! k = BatchProcess.Jobs b !! k)
  ∧ BatchProcess.Status (updateJob b job).1 = BatchProcess.Status b
  ∧ BatchProcess.Progress (updateJob b job).1 = BatchProcess.Progress b
  ∧ BatchProcess.clients (updateJob b job).1 = BatchProcess.clients b.
Proof.
  pose proof (updateJob_frame b job) as Hframe.
  unfold updateJob in *.
  destruct (findJob (BatchProcess.Jobs b) job) as [idx|] eqn:Hfind; simpl in *.
  - destruct (findJob_Some _ _ _ Hfind) as [(jx & Hx & Hkey) Hfirst].
    assert (Hlt : (idx < length (BatchProcess.Jobs b))%nat) by by eapply lookup_lt_Some.
    split_and!; try done.
    + rewrite list_fmap_insert. apply list_insert_id.
      rewrite list_lookup_fmap, Hx. simpl. by rewrite Hkey.
    + intros Hnot. exfalso. apply Hnot. apply list_elem_of_fmap. exists jx.
      split; [done | by eapply list_elem_of_lookup_2].
    + intros i [= <-]. split_and!.
      * by apply list_lookup_insert_eq.
      * by apply findJob_insert.
      * intros k Hk. by apply list_lookup_insert_ne.
  - by split_and!.
Qed.

Lemma collect_keys (now : Z) (st : Collector) (rs : list BatchJob.t) :
  jobKey <$> BatchProcess.Jobs (bp (collect now st rs))
  = jobKey <$> BatchProcess.Jobs (bp st).
Proof.
  induction rs as [|r rs IH] using rev_ind; [done|].
  rewrite collect_snoc, collectStep_jobs.
  destruct (updateJob_spec (bp (collect now st rs)) r) as (-> & _). exact IH.
Qed.

(** [findJob] finds the first position of a pair that the list holds. *)
Lemma findJob_first (jobs : list BatchJob.t) (job : BatchJob.t) (idx : nat) (jx : BatchJob.t) :
  jobs !! idx = Some jx →
  jobKey jx = jobKey job →
  (∀ k jk, (k < idx)%nat → jobs !! k = Some jk → jobKey jk ≠ jobKey job) →
  findJob jobs job = Some idx.
Proof.
  revert idx. induction jobs as [|j jobs IH]; intros idx Hx Hkey Hfirst; [done|].
  cbn [findJob]. destruct idx as [|idx].
  - injection Hx as ->. apply sameJob_key in Hkey. by rewrite Hkey.
  - assert (Hne : sameJob j job = false).
    { destruct (sameJob j job) eqn:Hsame; [|done]. apply sameJob_key in Hsame.
      by destruct (Hfirst O j (Nat.lt_0_succ idx) eq_refl). }
    rewrite Hne, (IH idx); [done | done | done |].
    intros k jk Hk Hjk. apply (Hfirst (S k) jk); [lia | done].
Qed.

Lemma key_first_position (jobs : list BatchJob.t) (job : BatchJob.t) :
  jobKey job ∈ jobKey <$> jobs →
  ∃ idx jx, jobs !! idx = Some jx ∧ jobKey jx = jobKey job
            ∧ ∀ k jk, (k < idx)%nat → jobs !! k = Some jk → jobKey jk ≠ jobKey job.
Proof.
  intros Hin. destruct (findJob jobs job) as [idx|] eqn:Hfind.
  - destruct (findJob_Some _ _ _ Hfind) as [(jx & Hx & Hkey) Hfirst]. by exists idx, jx.
  - by apply findJob_None in Hfind.
Qed.

(** [updateJob] stores the job at the first position of its pair. *)
Lemma updateJob_first (b : BatchProcess.t) (job : BatchJob.t) (idx : nat) (jx : BatchJob.t) :
  BatchProcess.Jobs b !! idx = Some jx →
  jobKey jx = jobKey job →
  (∀ k jk, (k < idx)%nat → BatchProcess.Jobs b !! k = Some jk → jobKey jk ≠ jobKey job) →
  BatchProcess.Jobs (updateJob b job).1 = <[idx := job]> (BatchProcess.Jobs b).
Proof.
  intros Hx Hkey Hfirst. unfold updateJob.
  by rewrite (findJob_first _ _ _ _ Hx Hkey Hfirst).
Qed.

(** An update for another pair leaves the entry alone. *)
Lemma updateJob_other (b : BatchProcess.t) (job : BatchJob.t) (f : nat) (x : BatchJob.t) :
  BatchProcess.Jobs b !! f = Some x →
  jobKey job ≠ jobKey x →
  BatchProcess.Jobs (updateJob b job).1 !! f = Some x.
Proof.
  intros Hx Hne. unfold updateJob.
  destruct (findJob (BatchProcess.Jobs b) job) as [idx|] eqn:Hfind; [|done].
  destruct (findJob_Some _ _ _ Hfind) as [(jx & Hjx & Hkey) _]. simpl.
  rewrite list_lookup_insert_ne; [done|]. intros ->. congruence.
Qed.

(** The first entry of a pair holds the last result received for the
    pair. *)
Lemma collect_first (now : Z) (st : Collector) (f : nat) (jf : BatchJob.t)
    (pre post : list BatchJob.t) (r : BatchJob.t) :
  BatchProcess.Jobs (bp st) !! f = Some jf →
  (∀ k jk, (k < f)%nat → BatchProcess.Jobs (bp st) !! k = Some jk → jobKey jk ≠ jobKey jf) →
  jobKey r = jobKey jf →
  Forall (λ r', jobKey r' ≠ jobKey jf) post →
  BatchProcess.Jobs (bp (collect now st (pre ++ r :: post))) !! f = Some r.
Proof.
  intros Hf Hfirst Hkey Hpost.
  assert (Hkeys : jobKey <$> BatchProcess.Jobs (bp (collect now st pre))
                  = jobKey <$> BatchProcess.Jobs (bp st)) by apply collect_keys.
  assert (Hat : ∃ x, BatchProcess.Jobs (bp (collect now st pre)) !! f = Some x
                     ∧ jobKey x = jobKey r).
  { apply (f_equal (λ l, l !! f)) in Hkeys. rewrite !list_lookup_fmap, Hf in Hkeys.
    destruct (BatchProcess.Jobs (bp (collect now st pre)) !! f) as [x|]; [|done].
    exists x. split; [done|]. simpl in Hkeys. congruence. }
  destruct Hat as (x & Hx & Hxkey).
  assert (Hfirst' : ∀ k jk, (k < f)%nat →
            BatchProcess.Jobs (bp (collect now st pre)) !! k = Some jk → jobKey jk ≠ jobKey r).
  { intros k jk Hk Hjk.
    pose proof (f_equal (λ l, l !! k) Hkeys) as Hkk. simpl in Hkk.
    rewrite !list_lookup_fmap, Hjk in Hkk.
    destruct (BatchProcess.Jobs (bp st) !! k) as [jk0|] eqn:Hk0; [|done].
    assert (Hsame : jobKey jk = jobKey jk0) by (simpl in Hkk; congruence).
    rewrite Hsame, Hkey. by apply (Hfirst k). }
  assert (Hstep : BatchProcess.Jobs (bp (collect now st (pre ++ [r]))) !! f = Some r).
  { rewrite collect_snoc, collectStep_jobs.
    rewrite (updateJob_first _ r f x Hx Hxkey Hfirst').
    apply list_lookup_insert_eq. by eapply lookup_lt_Some. }
  replace (pre ++ r :: post) with ((pre ++ [r]) ++ post) by (by rewrite <- app_assoc).
  clear Hx Hfirst' Hkeys. induction post as [|r' post IH] using rev_ind.
  - by rewrite app_nil_r.
  - apply Forall_app in Hpost as [Hpost Hr']. rewrite Forall_singleton in Hr'.
    rewrite app_assoc, collect_snoc, collectStep_jobs.
    apply updateJob_other; [by apply IH | congruence].
Qed.

(** C10. In a batch whose job list holds a pair twice, at positions
    [j < i]: [updateJob] leaves the batch alone for a job whose pair the
    list does not hold, and otherwise stores the job at the first
    position that holds its pair and nowhere else.  So the first entry
    of the pair, at some [f ≤ j], receives every result for the pair
    and ends up holding the last of them, while the entry at [i] keeps
    the state it was ingested with, whatever results arrive and however
    many; each result received still adds one to [completed], and once
    as many results as jobs have been received the batch is completed
    with progress 100 although the entry at [i] was never updated. *)
Theorem C10_later_duplicate_never_updated
    (b : BatchProcess.t) (now : Z) (rs : list BatchJob.t)
    (i j : nat) (ji jj : BatchJob.t) :
  let N := length (BatchProcess.Jobs b) in
  Z.of_nat N < 2 ^ 48 →
  (j < i)%nat →
  BatchProcess.Jobs b !! j = Some jj →
  BatchProcess.Jobs b !! i = Some ji →
  jobKey jj = jobKey ji →
  (∀ (b' : BatchProcess.t) job,
     (jobKey job ∉ jobKey <$> BatchProcess.Jobs b' → (updateJob b' job).1 = b')
     ∧ ∀ idx jx,
         BatchProcess.Jobs b' !! idx = Some jx →
         jobKey jx = jobKey job →
         (∀ k jk, (k < idx)%nat → BatchProcess.Jobs b' !! k = Some jk → jobKey jk ≠ jobKey job) →
         BatchProcess.Jobs (updateJob b' job).1 = <[idx := job]> (BatchProcess.Jobs b'))
  ∧ (∃ f jf,
       (f ≤ j)%nat
       ∧ BatchProcess.Jobs b !! f = Some jf
       ∧ jobKey jf = jobKey ji
       ∧ (∀ k jk, (k < f)%nat → BatchProcess.Jobs b !! k = Some jk → jobKey jk ≠ jobKey ji)
       ∧ ∀ pre r post,
           rs = pre ++ r :: post →
           jobKey r = jobKey ji →
           Forall (λ r', jobKey r' ≠ jobKey ji) post →
           BatchProcess.Jobs (bp (collect now (startCollector b) rs)) !! f = Some r)
  ∧ BatchProcess.Jobs (bp (collect now (startCollector b) rs)) !! i = Some ji
  ∧ (∀ k, (k ≤ N)%nat → completed (collect now (startCollector b) (take k rs))
                          = Z.of_nat (Nat.min k (length rs)))
  ∧ (length rs = N →
       BatchProcess.Status (bp (collect now (startCollector b) rs)) = "completed"
       ∧ BatchProcess.Progress (bp (collect now (startCollector b) rs)) = 100).
Proof.
  intros N Hbound Hlt Hj Hi Hkey.
  assert (HN : (1 ≤ N)%nat).
  { apply lookup_lt_Some in Hi. unfold N. lia. }
  assert (Hmax : total (startCollector b) * 100 ≤ GoInt.max_int).
  { unfold startCollector, GoInt.len, GoInt.max_int. simpl. fold N. lia. }
  split_and!.
  - intros b' job. split.
    + intros Hnot. by destruct (updateJob_spec b' job) as (_ & Hnone & _); apply Hnone.
    + intros idx jx Hx Hk Hfirst. by apply updateJob_first with jx.
  - assert (Hin : jobKey ji ∈ jobKey <$> BatchProcess.Jobs b).
    { apply list_elem_of_fmap. exists ji. split; [done|]. by eapply list_elem_of_lookup_2. }
    destruct (key_first_position _ _ Hin) as (f & jf & Hf & Hfkey & Hfirst).
    exists f, jf. split_and!; try done.
    + destruct (decide (f ≤ j)%nat) as [|Hgt]; [done|].
      destruct (Hfirst j jj); [lia | done | done].
    + intros pre r post -> Hr Hpost.
      apply collect_first with jf; try done.
      * intros k jk Hk Hjk. rewrite Hfkey. by apply (Hfirst k).
      * congruence.
      * eapply Forall_impl; [exact Hpost|]. simpl. intros r' Hr'. congruence.
  - apply (collect_shadowed now rs (startCollector b) i ji).
    split; [done|]. by exists j, jj.
  - intros k Hk.
    pose proof (collect_spec now (startCollector b) (take k rs)) as Hc.
    unfold GoInt.len in Hc. rewrite length_take in Hc. simpl in Hc.
    unfold GoInt.len in Hc. fold N in Hc.
    destruct Hc as (Hcmp & _); [lia | lia | done |]. rewrite Hcmp. lia.
  - intros Hlen.
    pose proof (collect_spec now (startCollector b) rs) as Hc.
    unfold GoInt.len in Hc. rewrite Hlen in Hc. simpl in Hc.
    unfold GoInt.len in Hc. fold N in Hc.
    destruct Hc as (_ & _ & _ & _ & Hpr & _ & Hfin); [lia | lia | done |].
    assert (Hnil : rs ≠ []).
    { intros ->. simpl in Hlen. lia. }
    destruct Hfin as (Hst & _); [done | lia |]. split; [done|].
    rewrite Hpr by done. symmetry. apply Z.div_unique_exact; lia.
Qed.

End Duplicates.

(** ** C2, C3: one job through [processURL] *)

Section Retry.
Import Manager Notions.
Context `{ManagerLib}.

Lemma fs_only_ret {A} (a : A) : fs_only (mret a).
Proof. by intros w1 w2 Hfs. Qed.

Lemma fs_only_fail {A} (e : string) : fs_only (@io_fail A e).
Proof. by intros w1 w2 Hfs. Qed.

Lemma fs_only_lift {A} (r : result A) : fs_only (io_lift r).
Proof. by intros w1 w2 Hfs. Qed.

Lemma fs_only_bind {A B} (m : IO A) (f : A → IO B) :
  fs_only m → (∀ a, fs_only (f a)) → fs_only (m ≫= f).
Proof.
  intros Hm Hf w1 w2 Hfs. unfold mbind, IO_bind.
  destruct (Hm w1 w2 Hfs) as (Hr & Hfs' & Hp & Hs & Hn & Ht).
  destruct (m w1) as [[a1|e1] w1'], (m w2) as [[a2|e2] w2']; simpl in *; try done.
  - injection Hr as <-.
    destruct (Hf a1 w1' w2' Hfs') as (Hr2 & Hfs2 & Hp2 & Hs2 & Hn2 & Ht2).
    split_and!; congruence.
  - injection Hr as <-. done.
Qed.

Lemma fs_only_errorf {A} (prefix : string) (m : IO A) : fs_only m → fs_only (errorf prefix m).
Proof.
  intros Hm w1 w2 Hfs. unfold errorf.
  destruct (Hm w1 w2 Hfs) as (Hr & Hfs' & Hp & Hs & Hn & Ht).
  destruct (m w1) as [[a1|e1] w1'], (m w2) as [[a2|e2] w2']; simpl in *; try done.
  injection Hr as <-. done.
Qed.

Lemma fs_only_MkdirAll (path : string) : fs_only (os_MkdirAll path).
Proof.
  intros w1 w2 (Hm & Hw & Hd & Hf). unfold os_MkdirAll. rewrite <- Hm.
  destruct (mkdir_err w1 path); simpl; [done|].
  unfold same_fs. simpl. split_and!; congruence.
Qed.

Lemma fs_only_WriteFile (path data : string) : fs_only (os_WriteFile path data).
Proof.
  intros w1 w2 (Hm & Hw & Hd & Hf). unfold os_WriteFile. rewrite <- Hw.
  destruct (write_err w1 path); simpl; [done|].
  unfold same_fs. simpl. split_and!; congruence.
Qed.

Lemma fs_only_saveResults (job : BatchJob.t) (modelDir : string) (result : ParseResponse.t) :
  fs_only (saveResults job modelDir result).
Proof.
  unfold saveResults.
  repeat first
    [ apply fs_only_bind; [|intros ?]
    | apply fs_only_errorf
    | apply fs_only_MkdirAll
    | apply fs_only_WriteFile
    | apply fs_only_lift
    | apply fs_only_ret
    | case_bool_decide ].
Qed.

Lemma fs_only_handleResponse (job : BatchJob.t) (modelDir : string) (resp : Response) :
  fs_only (handleResponse job modelDir resp).
Proof.
  unfold handleResponse.
  apply fs_only_bind; [apply fs_only_errorf, fs_only_lift|]. intros body.
  case_bool_decide.
  - destruct (json_Unmarshal_errorResp body); apply fs_only_fail.
  - apply fs_only_bind; [apply fs_only_errorf, fs_only_lift|]. intros parseResponse.
    case_bool_decide; [apply fs_only_fail|].
    apply fs_only_errorf, fs_only_saveResults.
Qed.

(** *** The retry loop *)

Lemma postLoop_err (fuel : nat) (attempt : Z) (jsonData : string)
    (resp : option Response) (lastErr : option string) (w : World) (e : string) :
  net w (length (posts w)) = PostErr e →
  postLoop (S fuel) attempt jsonData resp lastErr w
  = postLoop fuel (GoInt.add attempt 1) jsonData None (Some e)
      (log_post serviceURL jsonData (slept attempt w)).
Proof.
  intros Hnet. simpl. unfold client_Post, slept.
  case_bool_decide; simpl; by rewrite Hnet.
Qed.

Lemma postLoop_ok (fuel : nat) (attempt : Z) (jsonData : string)
    (resp : option Response) (lastErr : option string) (w : World) (r : Response) :
  net w (length (posts w)) = PostOk r →
  postLoop (S fuel) attempt jsonData resp lastErr w
  = ((Some r, lastErr), log_post serviceURL jsonData (slept attempt w)).
Proof.
  intros Hnet. simpl. unfold client_Post, slept.
  case_bool_decide; simpl; by rewrite Hnet.
Qed.

(** A post that returns an error, with or without a response. *)
Lemma postLoop_failed (fuel : nat) (attempt : Z) (jsonData : string)
    (resp : option Response) (lastErr : option string) (w : World) (e : string) :
  post_error (net w (length (posts w))) = Some e →
  postLoop (S fuel) attempt jsonData resp lastErr w
  = postLoop fuel (GoInt.add attempt 1) jsonData
      (post_response (net w (length (posts w)))) (Some e)
      (log_post serviceURL jsonData (slept attempt w)).
Proof.
  intros Hnet. simpl. unfold client_Post, slept.
  case_bool_decide; simpl; destruct (net w (length (posts w))); simpl in *; congruence.
Qed.

Lemma transport_failures_post_errors (w : World) (k : nat) :
  transport_failures w k → post_errors w k.
Proof. intros Hfail i Hi. destruct (Hfail i Hi) as [e ->]. by eexists. Qed.

(** After [k < 3] posts that returned an error and one that returned a
    response without error, the loop ends with that response: [k + 1]
    posts have been made, with a sleep of the fixed delay before each of
    them but the first, and the file system is as before. *)
Lemma retryPosts_answered (jsonData : string) (w : World) (k : nat) (r : Response) :
  (k < 3)%nat →
  post_errors w k →
  net w (length (posts w) + k) = PostOk r →
  ∃ lastErr w',
    retryPosts jsonData w = (Ok (Some r, lastErr), w')
    ∧ same_fs w w'
    ∧ posts w' = posts w ++ replicate (S k) (serviceURL, jsonData)
    ∧ sleeps w' = sleeps w ++ replicate k retryDelay
    ∧ timeline w' = timeline w ++ attempts (S k) jsonData.
Proof.
  intros Hk Hfail Hok. unfold retryPosts.
  change (Z.to_nat maxRetries) with 3%nat.
  destruct k as [|[|[|k]]]; [| | |lia].
  - rewrite Nat.add_0_r in Hok. rewrite (postLoop_ok _ _ _ _ _ _ _ Hok).
    eexists _, _. split; [reflexivity|]. unfold same_fs. simpl.
    by rewrite app_nil_r.
  - destruct (Hfail O) as [e0 He0]; [lia|]. rewrite Nat.add_0_r in He0.
    rewrite (postLoop_failed _ _ _ _ _ _ _ He0).
    erewrite postLoop_ok; [|simpl; rewrite length_app; exact Hok].
    eexists _, _. split; [reflexivity|]. unfold same_fs. simpl.
    by rewrite <- !app_assoc.
  - destruct (Hfail O) as [e0 He0]; [lia|]. rewrite Nat.add_0_r in He0.
    destruct (Hfail 1%nat) as [e1 He1]; [lia|].
    rewrite (postLoop_failed _ _ _ _ _ _ _ He0).
    erewrite postLoop_failed; [|simpl; rewrite length_app; exact He1].
    erewrite postLoop_ok;
      [|simpl; rewrite !length_app; simpl; rewrite <- Nat.add_assoc; exact Hok].
    eexists _, _. split; [reflexivity|]. unfold same_fs. simpl.
    by rewrite <- !app_assoc.
Qed.

Lemma retryPosts_response (jsonData : string) (w : World) (k : nat) (r : Response) :
  (k < 3)%nat →
  transport_failures w k →
  net w (length (posts w) + k) = PostOk r →
  ∃ lastErr w',
    retryPosts jsonData w = (Ok (Some r, lastErr), w')
    ∧ same_fs w w'
    ∧ posts w' = posts w ++ replicate (S k) (serviceURL, jsonData)
    ∧ sleeps w' = sleeps w ++ replicate k retryDelay.
Proof.
  intros Hk Hfail Hok.
  destruct (retryPosts_answered jsonData w k r Hk
              (transport_failures_post_errors w k Hfail) Hok)
    as (lastErr & w' & ? & ? & ? & ? & _).
  by exists lastErr, w'.
Qed.

(** After three posts that returned an error, the last of them without
    a response, the loop ends without a response and with the error of
    the third attempt. *)
Lemma retryPosts_exhausted (jsonData : string) (w : World) (e2 : string) :
  post_errors w 2 →
  net w (length (posts w) + 2) = PostErr e2 →
  ∃ w',
    retryPosts jsonData w = (Ok (None, Some e2), w')
    ∧ same_fs w w'
    ∧ posts w' = posts w ++ replicate 3 (serviceURL, jsonData)
    ∧ sleeps w' = sleeps w ++ [retryDelay; retryDelay]
    ∧ timeline w' = timeline w ++ attempts 3 jsonData.
Proof.
  intros Hfail He2. unfold retryPosts.
  change (Z.to_nat maxRetries) with 3%nat.
  destruct (Hfail O) as [e0 He0]; [lia|]. rewrite Nat.add_0_r in He0.
  destruct (Hfail 1%nat) as [e1 He1]; [lia|].
  rewrite (postLoop_failed _ _ _ _ _ _ _ He0).
  erewrite postLoop_failed; [|simpl; rewrite length_app; exact He1].
  erewrite postLoop_err;
    [|simpl; rewrite !length_app; simpl; rewrite <- Nat.add_assoc; exact He2].
  eexists. split; [reflexivity|]. unfold same_fs. simpl.
  by rewrite <- !app_assoc.
Qed.

(** [processURL] once the directory exists and the request is encoded:
    the retry loop, then the response or the error of exhaustion. *)
Lemma processURL_unfold (job : BatchJob.t) (baseDir jsonData : string) (w : World) :
  let modelDir := filepath_Join baseDir (BatchJob.ModelNumber job) in
  mkdir_err w modelDir = None →
  json_Marshal_ParseRequest (requestFor job) = Ok jsonData →
  processURL job baseDir w
  = match retryPosts jsonData (log_dir modelDir w) with
    | (Ok (Some resp, _), w') => handleResponse job modelDir resp w'
    | (Ok (None, lastErr), w') =>
        (Err ("failed after " +:+ GoInt.itoa maxRetries +:+ " attempts: "
              +:+ error_string lastErr), w')
    | (Err e, w') => (Err e, w')
    end.
Proof.
  intros modelDir Hdir Hjson. unfold processURL, mbind, IO_bind, errorf, os_MkdirAll, io_lift.
  fold modelDir. rewrite Hdir, Hjson.
  destruct (retryPosts jsonData (log_dir modelDir w)) as [[[[resp|] lastErr]|e] w']; done.
Qed.

(** What [handleResponse] does with a response whose status is not 200
    and whose body could be read. *)
Lemma handleResponse_not_ok (job : BatchJob.t) (modelDir : string) (resp : Response)
    (body : string) (w : World) :
  StatusCode resp ≠ 200 →
  Body resp = Ok body →
  handleResponse job modelDir resp w
  = (Err ("server error (status " +:+ GoInt.itoa (StatusCode resp) +:+ "): "
          +:+ match json_Unmarshal_errorResp body with
              | Ok errorResp_Error => errorResp_Error
              | Err _ => body
              end), w).
Proof.
  intros Hcode Hbody. unfold handleResponse, mbind, IO_bind, errorf, io_lift, io_fail.
  rewrite Hbody. rewrite bool_decide_eq_true_2 by done.
  by destruct (json_Unmarshal_errorResp body).
Qed.

(** C2. When the service answers an attempt (the first, or one that
    follows [k < 3] transport errors) with a status other than 200 and a
    readable body, no post follows that answer: the job has made [k + 1]
    posts in all, exactly one when the first attempt is answered, and no
    sleep in that case.  The job leaves the worker failed, its error
    being the status with the message of the error record when the body
    decodes as one, and the status with the raw body otherwise. *)
Theorem C2_service_error_not_retried
    (job : BatchJob.t) (w : World) (k : nat) (resp : Response) (body jsonData : string) :
  mkdir_err w (filepath_Join "./data" (BatchJob.ModelNumber job)) = None →
  json_Marshal_ParseRequest (requestFor job) = Ok jsonData →
  (k < 3)%nat →
  transport_failures w k →
  net w (length (posts w) + k) = PostOk resp →
  StatusCode resp ≠ 200 →
  Body resp = Ok body →
  let msg :=
    "server error (status " +:+ GoInt.itoa (StatusCode resp) +:+ "): "
    +:+ match json_Unmarshal_errorResp body with
        | Ok errorResp_Error => errorResp_Error
        | Err _ => body
        end in
  (processURL job "./data" w).1 = Err msg
  ∧ posts (worker job w).2 = posts w ++ replicate (S k) (serviceURL, jsonData)
  ∧ sleeps (worker job w).2 = sleeps w ++ replicate k retryDelay
  ∧ (k = O → length (posts (worker job w).2) = S (length (posts w))
             ∧ sleeps (worker job w).2 = sleeps w)
  ∧ BatchJob.Status (worker job w).1 = "failed"
  ∧ BatchJob.Error (worker job w).1 = msg.
Proof.
  intros Hdir Hjson Hk Hfail Hnet Hcode Hbody msg.
  set (modelDir := filepath_Join "./data" (BatchJob.ModelNumber job)) in *.
  destruct (retryPosts_response jsonData (log_dir modelDir w) k resp Hk Hfail Hnet)
    as (lastErr & w' & Hloop & _ & Hposts & Hsleeps).
  assert (Hrun : processURL job "./data" w = (Err msg, w')).
  { rewrite (processURL_unfold job "./data" jsonData w Hdir Hjson).
    fold modelDir. rewrite Hloop. by apply handleResponse_not_ok. }
  unfold worker. rewrite Hrun. simpl in *.
  split_and!; try done.
  intros ->. rewrite Hposts, Hsleeps, length_app. simpl.
  split; [lia | by rewrite app_nil_r].
Qed.


Lemma same_fs_sym (w1 w2 : World) : same_fs w1 w2 → same_fs w2 w1.
Proof. intros (? & ? & ? & ?). by split_and!. Qed.

Lemma same_fs_trans (w1 w2 w3 : World) : same_fs w1 w2 → same_fs w2 w3 → same_fs w1 w3.
Proof. intros (? & ? & ? & ?) (? & ? & ? & ?). split_and!; congruence. Qed.

Lemma same_fs_log_dir (path : string) (w1 w2 : World) :
  same_fs w1 w2 → same_fs (log_dir path w1) (log_dir path w2).
Proof. intros (? & ? & ? & ?). unfold same_fs. simpl. split_and!; congruence. Qed.

(** A response whose body cannot be read ends the job at once. *)
Lemma handleResponse_unreadable (job : BatchJob.t) (modelDir : string) (resp : Response)
    (e : string) (w : World) :
  Body resp = Err e →
  handleResponse job modelDir resp w = (Err ("failed to read response: " +:+ e), w).
Proof.
  intros Hbody. unfold handleResponse, mbind, IO_bind, errorf, io_lift.
  by rewrite Hbody.
Qed.

(** A job whose attempt number [k + 1] is answered is processed like a
    job whose first attempt gets the same answer. *)
Lemma processURL_retry_invisible (job : BatchJob.t) (baseDir : string)
    (wA wB : World) (k : nat) (resp : Response) :
  same_fs wA wB →
  (k < 3)%nat →
  post_errors wA k →
  net wA (length (posts wA) + k) = PostOk resp →
  net wB (length (posts wB)) = PostOk resp →
  (processURL job baseDir wA).1 = (processURL job baseDir wB).1
  ∧ same_fs (processURL job baseDir wA).2 (processURL job baseDir wB).2.
Proof.
  intros Hfs Hk Hfail HokA HokB.
  set (modelDir := filepath_Join baseDir (BatchJob.ModelNumber job)).
  destruct (mkdir_err wA modelDir) as [e|] eqn:HdirA.
  - assert (HdirB : mkdir_err wB modelDir = Some e).
    { destruct Hfs as (<- & _). done. }
    unfold processURL, mbind, IO_bind, errorf, os_MkdirAll. fold modelDir.
    by rewrite HdirA, HdirB.
  - assert (HdirB : mkdir_err wB modelDir = None).
    { destruct Hfs as (<- & _). done. }
    destruct (json_Marshal_ParseRequest (requestFor job)) as [jsonData|e] eqn:Hjson.
    + rewrite (processURL_unfold job baseDir jsonData wA HdirA Hjson).
      rewrite (processURL_unfold job baseDir jsonData wB HdirB Hjson).
      fold modelDir.
      destruct (retryPosts_answered jsonData (log_dir modelDir wA) k resp Hk Hfail HokA)
        as (leA & wA' & -> & HfsA & _).
      destruct (retryPosts_answered jsonData (log_dir modelDir wB) O resp) as
        (leB & wB' & -> & HfsB & _); [lia | intros i Hi; lia | by rewrite Nat.add_0_r |].
      assert (Hfs' : same_fs wA' wB').
      { eapply same_fs_trans; [apply same_fs_sym, HfsA|].
        eapply same_fs_trans; [|apply HfsB]. by apply same_fs_log_dir. }
      destruct (fs_only_handleResponse job modelDir resp wA' wB' Hfs') as (? & ? & _).
      done.
    + unfold processURL, mbind, IO_bind, errorf, os_MkdirAll, io_lift. fold modelDir.
      rewrite HdirA, HdirB, Hjson. simpl. split; [done|]. by apply same_fs_log_dir.
Qed.

(** C3. The errors that the post itself returns are retried after a
    sleep of the fixed delay, three attempts at most.  (a) When the
    attempt that follows [k < 3] posts that returned an error returns a
    response without error, the outcome of [processURL], the job that
    the worker sends on and the files written are those of a job in a
    world with the same file system whose first attempt gets that
    response; the [k] retries show only in the posts and in the sleep of
    the delay before each of them.  So a job ingested without error that
    would be completed had its first attempt been answered is completed,
    with empty error, after two such errors as well.  (b) When the three
    posts return an error, the last of them without a response, the job
    is failed, its error giving the number of attempts, 3, and the error
    of the last attempt; three posts, with a sleep before the second and
    before the third, have been made.  (c) A failure that shows once a
    post has returned without error, the body of the response that
    cannot be read, is not retried: no post and no sleep follows, and
    the job is failed with the error of the read. *)
Theorem C3_transport_errors_retried (job : BatchJob.t) :
  (∀ (wA wB : World) (k : nat) (resp : Response),
     same_fs wA wB →
     (k < 3)%nat →
     post_errors wA k →
     net wA (length (posts wA) + k) = PostOk resp →
     net wB (length (posts wB)) = PostOk resp →
     (processURL job "./data" wA).1 = (processURL job "./data" wB).1
     ∧ (worker job wA).1 = (worker job wB).1
     ∧ dirs (worker job wA).2 = dirs (worker job wB).2
     ∧ files (worker job wA).2 = files (worker job wB).2
     ∧ (∀ jsonData,
          mkdir_err wA (filepath_Join "./data" (BatchJob.ModelNumber job)) = None →
          json_Marshal_ParseRequest (requestFor job) = Ok jsonData →
          posts (worker job wA).2 = posts wA ++ replicate (S k) (serviceURL, jsonData)
          ∧ sleeps (worker job wA).2 = sleeps wA ++ replicate k retryDelay
          ∧ timeline (worker job wA).2 = timeline wA ++ attempts (S k) jsonData)
     ∧ ((processURL job "./data" wB).1 = Ok () →
        BatchJob.Error job = "" →
        BatchJob.Status (worker job wA).1 = "completed"
        ∧ BatchJob.Error (worker job wA).1 = ""))
  ∧ (∀ (w : World) (jsonData e2 : string),
       mkdir_err w (filepath_Join "./data" (BatchJob.ModelNumber job)) = None →
       json_Marshal_ParseRequest (requestFor job) = Ok jsonData →
       post_errors w 2 →
       net w (length (posts w) + 2) = PostErr e2 →
       (processURL job "./data" w).1 = Err ("failed after 3 attempts: " +:+ e2)
       ∧ posts (worker job w).2 = posts w ++ replicate 3 (serviceURL, jsonData)
       ∧ sleeps (worker job w).2 = sleeps w ++ [retryDelay; retryDelay]
       ∧ timeline (worker job w).2 = timeline w ++ attempts 3 jsonData
       ∧ BatchJob.Status (worker job w).1 = "failed"
       ∧ BatchJob.Error (worker job w).1 = "failed after 3 attempts: " +:+ e2)
  ∧ (∀ (w : World) (jsonData : string) (k : nat) (resp : Response) (e : string),
       mkdir_err w (filepath_Join "./data" (BatchJob.ModelNumber job)) = None →
       json_Marshal_ParseRequest (requestFor job) = Ok jsonData →
       (k < 3)%nat →
       post_errors w k →
       net w (length (posts w) + k) = PostOk resp →
       Body resp = Err e →
       (processURL job "./data" w).1 = Err ("failed to read response: " +:+ e)
       ∧ posts (worker job w).2 = posts w ++ replicate (S k) (serviceURL, jsonData)
       ∧ sleeps (worker job w).2 = sleeps w ++ replicate k retryDelay
       ∧ timeline (worker job w).2 = timeline w ++ attempts (S k) jsonData
       ∧ BatchJob.Status (worker job w).1 = "failed"
       ∧ BatchJob.Error (worker job w).1 = "failed to read response: " +:+ e).
Proof.
  split_and!.
  - intros wA wB k resp Hfs Hk Hfail HokA HokB.
    destruct (processURL_retry_invisible job "./data" wA wB k resp Hfs Hk Hfail HokA HokB)
      as (Hres & Hfs').
    assert (Hworker : (worker job wA).1 = (worker job wB).1
                      ∧ same_fs (worker job wA).2 (worker job wB).2).
    { unfold worker.
      destruct (processURL job "./data" wA) as [[[]|eA] wA'],
               (processURL job "./data" wB) as [[[]|eB] wB']; simpl in *; try done.
      by injection Hres as <-. }
    destruct Hworker as (Hjob & _ & _ & Hdirs & Hfiles).
    split_and!; try done.
    + intros jsonData Hdir Hjson.
      set (modelDir := filepath_Join "./data" (BatchJob.ModelNumber job)) in *.
      destruct (retryPosts_answered jsonData (log_dir modelDir wA) k resp Hk Hfail HokA)
        as (lastErr & w' & Hloop & _ & Hposts & Hsleeps & Htime).
      destruct (fs_only_handleResponse job modelDir resp w' w') as (_ & _ & Hp & Hs & _ & Ht).
      { by split_and!. }
      unfold worker. rewrite (processURL_unfold job "./data" jsonData wA Hdir Hjson).
      fold modelDir. rewrite Hloop.
      destruct (handleResponse job modelDir resp w') as [[[]|e] w'']; simpl in *;
        split_and!; congruence.
    + intros HB Hempty. rewrite Hjob. unfold worker.
      destruct (processURL job "./data" wB) as [[[]|eB] wB']; simpl in *; done.
  - intros w jsonData e2 Hdir Hjson Hfail He2.
    set (modelDir := filepath_Join "./data" (BatchJob.ModelNumber job)) in *.
    destruct (retryPosts_exhausted jsonData (log_dir modelDir w) e2 Hfail He2)
      as (w' & Hloop & _ & Hposts & Hsleeps & Htime).
    assert (Hrun : processURL job "./data" w
                   = (Err ("failed after 3 attempts: " +:+ e2), w')).
    { rewrite (processURL_unfold job "./data" jsonData w Hdir Hjson).
      fold modelDir. by rewrite Hloop. }
    unfold worker. rewrite Hrun. simpl in *. done.
  - intros w jsonData k resp e Hdir Hjson Hk Hfail Hok Hbody.
    set (modelDir := filepath_Join "./data" (BatchJob.ModelNumber job)) in *.
    destruct (retryPosts_answered jsonData (log_dir modelDir w) k resp Hk Hfail Hok)
      as (lastErr & w' & Hloop & _ & Hposts & Hsleeps & Htime).
    assert (Hrun : processURL job "./data" w
                   = (Err ("failed to read response: " +:+ e), w')).
    { rewrite (processURL_unfold job "./data" jsonData w Hdir Hjson).
      fold modelDir. rewrite Hloop. by apply handleResponse_unreadable. }
    unfold worker. rewrite Hrun. simpl in *. done.
Qed.


End Retry.

(** ** The merge of the records of the chunk groups *)

Section Merge.
Import Parser MergeNotions.
Context `{GoStrings} `{JSON}.
Variable rangeOrder : gmap string value → list (string * value).
Hypothesis rangeOrder_enumerates : ∀ m, rangeOrder m ≡ₚ map_to_list m.

Lemma listsTyped_insert_strings (c : gmap string value) (k : string) (l : list string) :
  listsTyped c → listsTyped (<[k := VStrings l]> c).
Proof.
  intros (Hu & Ho & Ha). unfold listsTyped.
  split_and!; match goal with |- ∃ _, <[_ := _]> _ !! ?k' = _ =>
    destruct (decide (k = k')) as [->|Hne];
      [eexists; apply lookup_insert_eq | by rewrite lookup_insert_ne] end.
Qed.

Lemma listsTyped_insert_scalar (c : gmap string value) (k cur : string) (v : value) :
  listsTyped c → c !! k = Some (VString cur) → listsTyped (<[k := v]> c).
Proof.
  intros (Hu & Ho & Ha) Hk. unfold listsTyped.
  split_and!; match goal with |- ∃ _, <[_ := _]> _ !! ?k' = _ =>
    destruct (decide (k = k')) as [->|Hne];
      [destruct Hu, Ho, Ha; congruence | by rewrite lookup_insert_ne] end.
Qed.

Lemma isListKey_typed (c : gmap string value) (k : string) :
  listsTyped c → isListKey k = true → ∃ cur, c !! k = Some (VStrings cur).
Proof.
  intros (Hu & Ho & _). unfold isListKey.
  rewrite orb_true_iff, !bool_decide_eq_true. by intros [-> | ->].
Qed.

(** One entry: no panic, the lists stay typed, the value for the key of
    the entry changes as [step] says, and no other value changes. *)
Lemma mergeEntry_spec (c : gmap string value) (k : string) (v : value) :
  listsTyped c →
  ∃ c', mergeEntry c (k, v) = Some c'
        ∧ listsTyped c'
        ∧ c' !! k = step k (c !! k) (Some v)
        ∧ ∀ k', k' ≠ k → c' !! k' = c !! k'.
Proof.
  intros Hty. unfold mergeEntry, step. fold (isListKey k).
  destruct (isListKey k) eqn:Hlk.
  - destruct (isListKey_typed c k Hty Hlk) as [cur Hcur]. rewrite Hcur. simpl.
    destruct v as [s|l| | | | |]; try by (exists c).
    + case_bool_decide; [|by exists c].
      eexists. split; [reflexivity|]. split; [by apply listsTyped_insert_strings|].
      split; [apply lookup_insert_eq | intros; by apply lookup_insert_ne].
    + eexists. split; [reflexivity|]. split; [by apply listsTyped_insert_strings|].
      split; [apply lookup_insert_eq | intros; by apply lookup_insert_ne].
  - destruct v as [s|l| | | | |]; try by (exists c; destruct (c !! k) as [[]|]).
    case_bool_decide; simpl; [|by exists c; destruct (c !! k) as [[]|]].
    destruct (c !! k) as [[cur| | | | | |]|] eqn:Hk; try by (exists c; rewrite Hk).
    case_bool_decide; [|by exists c; rewrite Hk].
    eexists. split; [reflexivity|]. split; [by eapply listsTyped_insert_scalar|].
    split; [apply lookup_insert_eq | intros; by apply lookup_insert_ne].
Qed.

(** The entries of one record, in any order without repeated key. *)
Lemma mergeEntries_spec (entries : list (string * value)) (c : gmap string value) :
  NoDup entries.*1 →
  listsTyped c →
  ∃ c', mergeEntries entries c = Some c'
        ∧ listsTyped c'
        ∧ ∀ k, (∀ v, (k, v) ∈ entries → c' !! k = step k (c !! k) (Some v))
               ∧ (k ∉ entries.*1 → c' !! k = c !! k).
Proof.
  revert c. induction entries as [|[k1 v1] entries IH]; intros c Hnd Hty.
  - exists c. split_and!; [done..|]. intros k. split; [|done].
    intros v Hin. by apply elem_of_nil in Hin.
  - simpl in Hnd. apply NoDup_cons in Hnd as [Hfresh Hnd].
    destruct (mergeEntry_spec c k1 v1 Hty) as (c1 & Hc1 & Hty1 & Hk1 & Hother).
    destruct (IH c1 Hnd Hty1) as (c' & Hc' & Hty' & Hspec).
    exists c'. cbn [mergeEntries]. rewrite Hc1. simpl. split_and!; [done..|].
    intros k. destruct (Hspec k) as [Hin Hout]. split.
    + intros v Hv. apply elem_of_cons in Hv as [[= -> ->] | Hv].
      * by rewrite Hout, Hk1.
      * assert (k ≠ k1).
        { intros ->. apply Hfresh. apply list_elem_of_fmap. by exists (k1, v). }
        by rewrite (Hin v Hv), Hother.
    + intros Hk. apply not_elem_of_cons in Hk as [Hne Hk].
      by rewrite Hout, Hother.
Qed.

(** One record that is not a raw fragment, whatever the order in which
    its entries are visited. *)
Lemma mergeRecord_spec (r c : gmap string value) :
  listsTyped c →
  ∃ c', mergeEntries (rangeOrder r) c = Some c'
        ∧ listsTyped c'
        ∧ ∀ k, c' !! k = step k (c !! k) (r !! k).
Proof.
  intros Hty.
  destruct (mergeEntries_spec (rangeOrder r) c) as (c' & Hc' & Hty' & Hspec); [|done|].
  { rewrite rangeOrder_enumerates. apply NoDup_fst_map_to_list. }
  exists c'. split_and!; [done..|]. intros k. destruct (Hspec k) as [Hin Hout].
  destruct (r !! k) as [v|] eqn:Hk.
  - apply Hin. rewrite rangeOrder_enumerates. by apply elem_of_map_to_list.
  - simpl. apply Hout. rewrite rangeOrder_enumerates. intros Hin'.
    apply list_elem_of_fmap in Hin' as ([k' v] & -> & Hkv).
    apply elem_of_map_to_list in Hkv. simpl in Hk. congruence.
Qed.

(** The loop over the records: no panic as long as the raw fragments
    are strings, and every value but [additional_info] is the fold of
    [mergeKey] over the records in their order. *)
Lemma combineLoop_spec (records : list (gmap string value)) (c : gmap string value) :
  listsTyped c →
  (∀ r v, r ∈ records → r !! "raw_content" = Some v → ∃ s, v = VString s) →
  ∃ c', combineLoop rangeOrder (FoundRecord <$> records) c = Some c'
        ∧ listsTyped c'
        ∧ ∀ k, k ≠ "additional_info" → c' !! k = foldl (mergeKey k) (c !! k) records.
Proof.
  revert c. induction records as [|r records IH]; intros c Hty Hraw.
  - by exists c.
  - assert (Hraw' : ∀ r' v, r' ∈ records → r' !! "raw_content" = Some v → ∃ s, v = VString s).
    { intros r' v Hin. apply Hraw. by right. }
    cbn [fmap list_fmap combineLoop foldl]. unfold mergeKey at 2.
    destruct (r !! "raw_content") as [raw|] eqn:Hr.
    + destruct (Hraw r raw) as [s ->]; [by left | done |].
      destruct Hty as (Hu & Ho & [info Ha]). rewrite Ha. simpl.
      destruct (IH (<["additional_info" := VStrings (info ++ [s])]> c)) as (c' & Hc' & Hty' & Hk);
        [apply listsTyped_insert_strings; by split_and!; [| |exists info] | done |].
      exists c'. split_and!; [done..|]. intros k Hne.
      rewrite (Hk k Hne). by rewrite lookup_insert_ne.
    + destruct (mergeRecord_spec r c Hty) as (c1 & Hc1 & Hty1 & Hstep).
      rewrite Hc1. simpl.
      destruct (IH c1 Hty1 Hraw') as (c' & Hc' & Hty' & Hk).
      exists c'. split_and!; [done..|]. intros k Hne.
      rewrite (Hk k Hne). by rewrite Hstep.
Qed.

(** A scalar field: the first value offered wins. *)
Lemma fold_scalar (k : string) (records : list (gmap string value)) (cur : string) :
  isListKey k = false →
  foldl (mergeKey k) (Some (VString cur)) records
  = Some (VString (if bool_decide (cur = "NO_MATCH") then firstScalar k records else cur)).
Proof.
  intros Hk. revert cur. induction records as [|r records IH]; intros cur.
  - unfold firstScalar. cbn [foldl omap list_omap head default].
    case_bool_decide; congruence.
  - cbn [foldl]. unfold firstScalar. cbn [omap list_omap].
    unfold mergeKey at 2, scalarOf, step. rewrite Hk.
    destruct (r !! "raw_content"); [apply IH|].
    destruct (r !! k) as [[s| | | | | |]|]; try apply IH.
    case_bool_decide as Hs; simpl; [|apply IH].
    case_bool_decide as Hcur; simpl.
    + rewrite IH. by rewrite bool_decide_eq_false_2.
    + rewrite IH. by rewrite bool_decide_eq_false_2.
Qed.

(** A list field: the strings of the records, appended in order. *)
Lemma fold_list (k : string) (records : list (gmap string value)) (cur : list string) :
  isListKey k = true →
  foldl (mergeKey k) (Some (VStrings cur)) records
  = Some (VStrings (cur ++ concat (listOf k <$> records))).
Proof.
  intros Hk. revert cur. induction records as [|r records IH]; intros cur.
  - simpl. by rewrite app_nil_r.
  - cbn [foldl fmap list_fmap concat]. unfold mergeKey at 2, listOf, step. rewrite Hk.
    destruct (r !! "raw_content"); [apply IH|].
    destruct (r !! k) as [[s|l| | | | |]|]; try apply IH.
    + case_bool_decide; [|apply IH]. rewrite IH. by rewrite <- app_assoc.
    + rewrite IH. by rewrite <- app_assoc.
Qed.

(** [dedupeStringSlice] leaves the other keys alone. *)
Lemma dedupeStringSlice_other (m : gmap string value) (key k : string) :
  k ≠ key → dedupeStringSlice m key !! k = m !! k.
Proof.
  intros Hne. unfold dedupeStringSlice.
  destruct (m !! key) as [[]|]; try done. by rewrite lookup_insert_ne.
Qed.






(** *** The lists of the merged record *)

(** [dedupeLoop] appends to [lst] the elements of [slice] that are new,
    each once and in the order of first occurrence; [seen] holds the
    elements of [lst]. *)
Lemma dedupeLoop_spec (slice : list string) (seen : gmap string bool) (lst : list string) :
  (∀ x, is_Some (seen !! x) ↔ x ∈ lst) →
  dedupeLoop slice seen lst = lst ++ filter (λ y, y ∉ lst) (firstSeen slice).
Proof.
  revert seen lst. induction slice as [|item rest IH]; intros seen lst Hseen.
  - simpl. by rewrite app_nil_r.
  - cbn [dedupeLoop firstSeen]. destruct (seen !! item) as [b|] eqn:Hitem.
    + assert (Hin : item ∈ lst) by (apply Hseen; eauto).
      rewrite (IH seen lst Hseen). rewrite filter_cons_False by (intros Hn; by apply Hn).
      rewrite list_filter_filter_l; [done|]. intros x Hx ->. by apply Hx.
    + assert (Hnin : item ∉ lst).
      { intros Hin. apply Hseen in Hin as [? ?]. congruence. }
      rewrite (IH (<[item := true]> seen) (lst ++ [item])).
      * rewrite filter_cons_True by done. rewrite <- app_assoc. simpl. do 2 f_equal.
        rewrite list_filter_filter. apply list_filter_iff. intros x.
        rewrite not_elem_of_app, not_elem_of_cons. split; [intros (? & ? & _)|intros (? & ?)].
        -- done.
        -- split_and!; try done. apply not_elem_of_nil.
      * intros x. rewrite elem_of_app, list_elem_of_singleton.
        destruct (decide (item = x)) as [->|Hne].
        -- rewrite lookup_insert_eq. split; [by right | eauto].
        -- rewrite lookup_insert_ne by done. rewrite Hseen. split; [by left|].
           intros [?|?]; [done | congruence].
Qed.

Lemma removeDuplicates_firstSeen (slice : list string) :
  removeDuplicates slice = firstSeen slice.
Proof.
  unfold removeDuplicates. rewrite dedupeLoop_spec.
  - simpl. induction (firstSeen slice) as [|x l IH]; [done|].
    rewrite filter_cons_True by apply not_elem_of_nil. by rewrite IH.
  - intros x. rewrite lookup_empty. split; [by intros [? ?] | by intros ?%elem_of_nil].
Qed.

Lemma elem_of_firstSeen (l : list string) (x : string) : x ∈ firstSeen l ↔ x ∈ l.
Proof.
  induction l as [|y l IH]; [done|]. cbn [firstSeen].
  rewrite !elem_of_cons, list_elem_of_filter, IH.
  destruct (decide (x = y)) as [->|Hne].
  - split; intros _; by left.
  - split.
    + intros [?|[_ ?]]; [done | by right].
    + intros [?|?]; [done | by right].
Qed.

Lemma NoDup_firstSeen (l : list string) : NoDup (firstSeen l).
Proof.
  induction l as [|y l IH]; [constructor|]. cbn [firstSeen].
  apply NoDup_cons. split; [|by apply NoDup_filter].
  rewrite list_elem_of_filter. by intros [? _].
Qed.

(** The lists that reach the merge: for a list field of the merged
    record, the strings held as [[]string] (or as one string) by the
    records, in order, without repetitions.  A value of any other type,
    such as the [[]interface{}] that a JSON array decodes to, adds
    nothing ([listOf]). *)
Lemma combineProduct_list (records : list (gmap string value)) (k : string) :
  k ∈ listKeys →
  (∀ r v, r ∈ records → r !! "raw_content" = Some v → ∃ s, v = VString s) →
  ∃ merged, combineProduct rangeOrder (FoundRecord <$> records) = Some merged
            ∧ merged !! k = Some (VStrings (firstSeen (concat (listOf k <$> records)))).
Proof.
  intros Hk Hraw.
  destruct (combineLoop_spec records initialCombined) as (c' & Hc' & Hty & Hfold);
    [by split_and!; eexists | done |].
  unfold combineProduct. rewrite Hc'. simpl. eexists. split; [reflexivity|].
  unfold listKeys in Hk. rewrite !elem_of_cons, elem_of_nil in Hk.
  destruct Hk as [->|[->|[]]].
  - rewrite !dedupeStringSlice_other by done. unfold dedupeStringSlice.
    rewrite (Hfold "user_manual") by done.
    change (initialCombined !! "user_manual") with (Some (VStrings [])).
    rewrite fold_list by done. rewrite lookup_insert_eq. simpl.
    by rewrite removeDuplicates_firstSeen.
  - rewrite dedupeStringSlice_other by done.
    assert (Hod : dedupeStringSlice c' "user_manual" !! "other_documents"
                  = c' !! "other_documents") by by apply dedupeStringSlice_other.
    unfold dedupeStringSlice at 1. rewrite Hod, (Hfold "other_documents") by done.
    change (initialCombined !! "other_documents") with (Some (VStrings [])).
    rewrite fold_list by done. rewrite lookup_insert_eq. simpl.
    by rewrite removeDuplicates_firstSeen.
Qed.


End Merge.

(** ** The loop over the chunk groups *)

Section Groups.
Import Parser MergeNotions.
Context `{GoStrings} `{JSON}.
Variable rangeOrder : gmap string value → list (string * value).

(** The groups are the slices of three chunks that the loop of the
    source takes, the last one shorter when the chunks run out. *)
Lemma chunkGroups_slice (domChunks : list string) (j : nat) :
  (3 * j < length domChunks)%nat →
  chunkGroups domChunks !! j
  = Some (slice domChunks (3 * Z.of_nat j)
            (min (3 * Z.of_nat j + chunkSize) (GoInt.len domChunks))).
Proof.
  revert domChunks. induction j as [|j IH]; intros domChunks Hj.
  - unfold slice, min, chunkSize, GoInt.len.
    destruct domChunks as [|a [|b [|c l]]]; simpl in Hj; try lia; try done.
    cbn [chunkGroups lookup list_lookup length].
    case_bool_decide as Hlen.
    + by replace (Z.to_nat (3 * Z.of_nat 0 + 3 - 3 * Z.of_nat 0)) with 3%nat by lia.
    + destruct l as [|d l]; [done | simpl in Hlen; lia].
  - destruct domChunks as [|a [|b [|c l]]]; simpl in Hj; try lia.
    change (chunkGroups (a :: b :: c :: l)) with ([a; b; c] :: chunkGroups l).
    cbn [lookup list_lookup]. rewrite IH by lia.
    f_equal. unfold slice, min, chunkSize, GoInt.len. cbn [length].
    replace (Z.to_nat (3 * Z.of_nat (S j))) with (S (S (S (3 * j)))) by lia.
    replace (Z.to_nat (3 * Z.of_nat j)) with (3 * j)%nat by lia.
    cbn [drop]. f_equal. repeat case_bool_decide; lia.
Qed.

(** A response that is discarded leaves [foundResults] as it is. *)
Lemma classify_discarded (isProductInfo : bool) (content : string) :
  discarded content → classify isProductInfo content = Ret None.
Proof.
  unfold discarded, classify, isNoResult. intros Hd.
  assert (Htest : bool_decide (strings_TrimSpace content = "")
                  || bool_decide (strings_ToLower (strings_TrimSpace content) = "no match")
                  || bool_decide (strings_ToLower (strings_TrimSpace content) = "not found")
                  || bool_decide (strings_ToLower (strings_TrimSpace content) = "no information")
                  = true).
  { rewrite !orb_true_iff, !bool_decide_eq_true. tauto. }
  by rewrite Htest.
Qed.

(** When every group is answered by a response that is discarded, the
    loop ends with [foundResults] unchanged, after one request for each
    group. *)
Lemma groupLoop_all_discarded (p : UnifiedParser) (isProductInfo : bool)
    (parseDescription : string) (groups : list (list string)) (call : nat)
    (foundResults : list found) :
  (∀ i g, groups !! i = Some g →
     ∃ content others,
       client p (call + i) (ModelName p)
         (promptFor p (Strings.Join g " ") parseDescription) = Ok (content :: others)
       ∧ discarded content) →
  groupLoop p isProductInfo parseDescription groups call foundResults
  = (Ret foundResults, (call + length groups)%nat).
Proof.
  revert call. induction groups as [|g groups IH]; intros call Hall.
  - simpl. by rewrite Nat.add_0_r.
  - destruct (Hall O g eq_refl) as (content & others & Hcall & Hd).
    rewrite Nat.add_0_r in Hcall.
    cbn [groupLoop]. rewrite Hcall, (classify_discarded _ _ Hd).
    rewrite IH.
    + f_equal. simpl. lia.
    + intros i g' Hg'. destruct (Hall (S i) g' Hg') as (c & o & Hc & Hd').
      exists c, o. split; [|done]. by rewrite <- Hc, Nat.add_succ_comm.
Qed.

(** The first request that fails ends the loop with its error: the
    groups after it are not requested and what was found is lost.  (The
    groups before it are answered, by responses that are kept or
    discarded.) *)
Lemma groupLoop_error (p : UnifiedParser) (isProductInfo : bool)
    (parseDescription : string) (groups : list (list string)) (call : nat)
    (foundResults : list found) (i : nat) (g : list string) (e : string) :
  groups !! i = Some g →
  client p (call + i) (ModelName p) (promptFor p (Strings.Join g " ") parseDescription)
  = Err e →
  (∀ j gj, (j < i)%nat → groups !! j = Some gj →
     ∃ content others kept,
       client p (call + j) (ModelName p)
         (promptFor p (Strings.Join gj " ") parseDescription) = Ok (content :: others)
       ∧ classify isProductInfo content = Ret kept) →
  groupLoop p isProductInfo parseDescription groups call foundResults
  = (Fail ("gemini request failed: " +:+ e), S (call + i)).
Proof.
  revert groups call foundResults.
  induction i as [|i IH]; intros groups call foundResults Hg He Hbefore.
  - destruct groups as [|g0 groups]; [done|]. injection Hg as ->.
    rewrite Nat.add_0_r in He. cbn [groupLoop]. rewrite He. by rewrite Nat.add_0_r.
  - destruct groups as [|g0 groups]; [done|]. simpl in Hg.
    destruct (Hbefore O g0) as (content & others & kept & Hcall & Hkept); [lia | done |].
    rewrite Nat.add_0_r in Hcall. cbn [groupLoop]. rewrite Hcall, Hkept.
    assert (Hnext : ∀ found', groupLoop p isProductInfo parseDescription groups (S call) found'
                      = (Fail ("gemini request failed: " +:+ e), S (call + S i))).
    { intros found'. rewrite (IH groups (S call) found' Hg).
      - f_equal. lia.
      - by rewrite <- He, Nat.add_succ_comm.
      - intros j gj Hj Hgj.
        destruct (Hbefore (S j) gj) as (c & o & k & Hc & Hk); [lia | done |].
        exists c, o, k. split; [|done]. by rewrite <- Hc, Nat.add_succ_comm. }
    destruct kept; apply Hnext.
Qed.

(** C7. A response that is empty once trimmed, or that is one of the
    phrases no match, not found, no information in any case of letters,
    is classified as nothing to keep, and the iteration of the loop that
    receives it leaves the results found so far unchanged.  When every
    chunk group is answered by such a response (also when there is no
    chunk at all), [parseWithGemini] returns the string NO_MATCH without
    error, having made one request for each group. *)
Theorem C7_discarded_responses_and_sentinel (p : UnifiedParser) (parseDescription : string) :
  (∀ isProductInfo content, discarded content → classify isProductInfo content = Ret None)
  ∧ (∀ isProductInfo group groups call foundResults content others,
       client p call (ModelName p) (promptFor p (Strings.Join group " ") parseDescription)
       = Ok (content :: others) →
       discarded content →
       groupLoop p isProductInfo parseDescription (group :: groups) call foundResults
       = groupLoop p isProductInfo parseDescription groups (S call) foundResults)
  ∧ (∀ domChunks,
       sem p = None →
       (∀ i g, chunkGroups domChunks !! i = Some g →
          ∃ content others,
            client p i (ModelName p) (promptFor p (Strings.Join g " ") parseDescription)
            = Ok (content :: others)
            ∧ discarded content) →
       parseWithGemini rangeOrder p domChunks parseDescription
       = (Ret (ResultText "NO_MATCH"), length (chunkGroups domChunks))).
Proof.
  split_and!.
  - apply classify_discarded.
  - intros isProductInfo group groups call foundResults content others Hcall Hd.
    cbn [groupLoop]. by rewrite Hcall, (classify_discarded _ _ Hd).
  - intros domChunks Hsem Hall. unfold parseWithGemini. rewrite Hsem.
    rewrite groupLoop_all_discarded by exact Hall. done.
Qed.

End Groups.

(** ** C9: the lock of the batch *)

Section Locking.
Import Manager Notions Demo.

Lemma unguarded_app (held : bool) (a b : list Event) :
  unguarded held (a ++ b) = unguarded held a ++ unguarded (lockHeld held a) b.
Proof.
  revert held. induction a as [|e a IH]; intros held; [done|].
  destruct e, held; simpl; by rewrite ?IH.
Qed.


Lemma lockHeld_updateJob (b : BatchProcess.t) (job : BatchJob.t) (held : bool) :
  lockHeld held (updateJob b job).2 = false.
Proof. unfold updateJob. by destruct (findJob (BatchProcess.Jobs b) job). Qed.

(** Every iteration of the collecting loop that starts with the lock
    free writes [bp.Progress] while the lock is free. *)
Lemma collectStep_progress_unguarded (now : Z) (st : Collector) (job : BatchJob.t) :
  lockHeld false (trace st) = false →
  EvWrite FProgress ∈ unguarded false (trace (collectStep now st job)).
Proof.
  intros Hfree. unfold collectStep.
  pose proof (lockHeld_updateJob (bp st) job false) as Hunlocked.
  destruct (updateJob (bp st) job) as [b1 tr1]. simpl in Hunlocked.
  assert (Hin : EvWrite FProgress ∈ unguarded false
            (trace st ++ tr1 ++ [EvWrite FProgress]
             ++ notifyClients
                  (setProgress b1
                     (GoInt.div (GoInt.mul (GoInt.add (completed st) 1) 100) (total st))))).
  { rewrite !unguarded_app, Hfree, Hunlocked. simpl.
    rewrite !elem_of_app. right. right. left. }
  case_bool_decide; simpl; [|exact Hin].
  rewrite unguarded_app, elem_of_app. by left.
Qed.

(** C9, on the code: the collector of a batch of one job.  The accesses
    to fields of the batch that are made without holding the lock are
    the write of the status and the four reads of the job list in
    [startProcessing], and, in the loop, the write of the progress, of
    the status and of the end time; only [updateJob] and [notifyClients]
    take the lock. *)
Theorem C9_collector_writes_without_lock :
  unguarded false
    (trace (startProcessing (Demo.batch [Demo.pending "M1" "http://a.example/1"])
              [O] 99 (Demo.world [])).1)
  = [EvWrite FStatus; EvRead FJobs; EvRead FJobs; EvRead FJobs; EvRead FJobs;
     EvWrite FProgress; EvWrite FStatus; EvWrite FEndTime].
Proof. vm_compute. reflexivity. Qed.

End Locking.

(** ** C8: rows with an empty url *)

Section Ingestion.
Import Manager Demo.

(** C8, on the code: an upload with the columns model_number and url
    and three data rows, the second with an empty url, is accepted; the
    batch stored under the new identifier has three jobs, the second
    with the empty url. *)
Theorem C8_empty_url_row_is_queued :
  (handleFileUpload Demo.uploadWithEmptyURL 42 43 ∅).1
  = Ret {| batch_id := "batch_42"; status := "pending";
           message := "Successfully queued 3 jobs" |}
  ∧ BatchProcess.Jobs <$> (handleFileUpload Demo.uploadWithEmptyURL 42 43 ∅).2 !! "batch_42"
    = Some [Demo.pending "M1" "http://a.example/1"; Demo.pending "M2" "";
            Demo.pending "M3" "http://a.example/3"].
Proof. split; vm_compute; reflexivity. Qed.

End Ingestion.

(** ** C4, C6: requests that fail, and links sent as a JSON array *)

Section MergeOnTheCode.
Import Parser MergeNotions Demo.

(** C4, on the code: three chunk groups, the request for the second one
    fails.  [parseWithGemini] returns the error of that request; the
    answer of the first group is lost and the third group is never
    requested (two requests were made). *)
Theorem C4_failed_request_aborts_the_merge :
  parseWithGemini Demo.rangeOrder
    (Demo.parser [Ok ["Model X9"]; Err "context deadline exceeded"; Ok ["Serial AB123"]])
    Demo.sevenChunks "find the model"
  = (Fail "gemini request failed: context deadline exceeded", 2%nat).
Proof. vm_compute. reflexivity. Qed.

(** The same three groups when the second answers with a phrase that is
    discarded: the fragments of the other two are joined. *)
Example discarded_group_is_left_out :
  parseWithGemini Demo.rangeOrder
    (Demo.parser [Ok ["Model X9"]; Ok [" No Match "]; Ok ["Serial AB123"]])
    Demo.sevenChunks "find the model"
  = (Ret (ResultText ("Model X9" +:+ newline +:+ "Serial AB123")), 3%nat).
Proof. vm_compute. reflexivity. Qed.

(** C6, on the code: three chunk groups answer a product-information
    query with the document links manual.pdf, manual.pdf and spec.pdf,
    each as a JSON array of one string.  The merged [user_manual] is
    empty: the arrays decode to [[]interface{}], which the merge does not
    treat as a list. *)
Theorem C6_links_in_json_arrays_are_dropped :
  ∃ merged,
    parseWithGemini Demo.rangeOrder
      (Demo.parser [Ok [Demo.manualArray]; Ok [Demo.manualArray]; Ok [Demo.specArray]])
      Demo.sevenChunks "Extract product information"
    = (Ret (ResultRecord merged), 3%nat)
    ∧ merged !! "user_manual" = Some (VStrings []).
Proof. eexists. split; vm_compute; reflexivity. Qed.

(** The same links sent as JSON strings are merged as the
    specification says. *)
Example links_as_strings_are_merged :
  ∃ merged,
    parseWithGemini Demo.rangeOrder
      (Demo.parser [Ok [Demo.manualString]; Ok [Demo.manualString]; Ok [Demo.specString]])
      Demo.sevenChunks "Extract product information"
    = (Ret (ResultRecord merged), 3%nat)
    ∧ merged !! "user_manual" = Some (VStrings ["manual.pdf"; "spec.pdf"]).
Proof. eexists. split; vm_compute; reflexivity. Qed.

End MergeOnTheCode.

(** ** The theorems at concrete inputs *)

Section Instances.
Import Manager Parser Notions MergeNotions Demo.

(** Two jobs whose results arrive in the order second, first, in a
    world that refuses every connection; the batch has one client, on
    channel 7. *)
Lemma C1_witness :
  let b := Demo.batch Demo.twoJobs in
  let fin := (startProcessing b [1; 0]%nat 99 (Demo.world [])).1 in
  (1 ≤ length (BatchProcess.Jobs b))%nat
  ∧ Z.of_nat (length (BatchProcess.Jobs b)) < 2 ^ 48
  ∧ BatchProcess.Progress b = 0
  ∧ [1; 0]%nat ≡ₚ seq 0 (length (BatchProcess.Jobs b))
  ∧ BatchProcess.Progress (bp fin) = 100
  ∧ BatchProcess.Status (bp fin) = "completed"
  ∧ BatchProcess.EndTime (bp fin) = instant 99
  ∧ closes (trace fin) = 1%nat
  ∧ Sockets.sends (notifyClients (bp fin)) = [7%nat]
  ∧ Sockets.sends (trace fin) = [7; 7; 7]%nat.
Proof.
  intros b fin.
  assert (H1 : (1 ≤ length (BatchProcess.Jobs b))%nat) by (simpl; lia).
  assert (H2 : Z.of_nat (length (BatchProcess.Jobs b)) < 2 ^ 48) by reflexivity.
  assert (H3 : BatchProcess.Progress b = 0) by reflexivity.
  assert (H4 : [1; 0]%nat ≡ₚ seq 0 (length (BatchProcess.Jobs b))) by (simpl; constructor).
  destruct (C1_progress_and_single_completion (H := Demo.lib) b [1; 0]%nat 99
              (Demo.world []) H1 H2 H3 H4)
    as (_ & _ & _ & _ & Hp & Hs & He & Hc & _ & _ & Hto & Hall).
  split_and!; assumption.
Defined.

(** The first attempt is answered with status 500 and an error record. *)
Lemma C2_witness :
  let job := Demo.pending "M1" "http://a.example/1" in
  let w := Demo.world [Demo.reply 500 Demo.errorBody] in
  net w (length (posts w) + 0) = Demo.reply 500 Demo.errorBody
  ∧ transport_failures w 0
  ∧ length (posts (worker job w).2) = 1%nat
  ∧ sleeps (worker job w).2 = []
  ∧ BatchJob.Status (worker job w).1 = "failed"
  ∧ BatchJob.Error (worker job w).1 = "server error (status 500): model overloaded".
Proof.
  intros job w.
  assert (Hnet : net w (length (posts w) + 0) = Demo.reply 500 Demo.errorBody) by reflexivity.
  assert (Hfail : transport_failures w 0) by (intros i Hi; lia).
  assert (Hcode : StatusCode {| StatusCode := 500; Body := Ok Demo.errorBody |} ≠ 200)
    by (simpl; lia).
  destruct (C2_service_error_not_retried (H := Demo.lib) job w 0
              {| StatusCode := 500; Body := Ok Demo.errorBody |} Demo.errorBody
              (Demo.jobj "url" (Demo.jstr "http://a.example/1"))
              eq_refl eq_refl (Nat.lt_0_succ 2) Hfail Hnet Hcode eq_refl)
    as (_ & _ & _ & Hone & Hst & Herr).
  destruct (Hone eq_refl) as (Hposts & Hsleeps).
  split_and!; assumption.
Defined.

(** The first post returns a response whose body cannot be read
    because the client's timeout expires; the second post would have
    been answered.  No second post is made and no sleep: the job is
    failed with the error of the read, which names no number of
    attempts, whereas the same job is completed when its first attempt
    is answered. *)
Lemma C3_counterexample :
  let job := Demo.pending "M1" "http://a.example/1" in
  let cut := {| StatusCode := 200; Body := Err "context deadline exceeded" |} in
  let w := Demo.world [PostOk cut; Demo.reply 200 Demo.successBody] in
  let wB := Demo.world [Demo.reply 200 Demo.successBody] in
  same_fs w wB
  ∧ net w 0%nat = PostOk cut
  ∧ Body cut = Err "context deadline exceeded"
  ∧ net w 1%nat = net wB 0%nat
  ∧ posts (worker job w).2 = [(serviceURL, Demo.jobj "url" (Demo.jstr "http://a.example/1"))]
  ∧ sleeps (worker job w).2 = []
  ∧ BatchJob.Status (worker job w).1 = "failed"
  ∧ BatchJob.Error (worker job w).1 = "failed to read response: context deadline exceeded"
  ∧ BatchJob.Status (worker job wB).1 = "completed"
  ∧ BatchJob.Error (worker job wB).1 = "".
Proof. by vm_compute. Qed.

(** A timeout, a redirect loop that returns its last response with the
    error, and then a successful answer, against a first attempt that
    succeeds; a world that refuses every connection; and a response
    whose body cannot be read after one timeout. *)
Lemma C3_witness :
  let job := Demo.pending "M1" "http://a.example/1" in
  let jsonData := Demo.jobj "url" (Demo.jstr "http://a.example/1") in
  let moved := {| StatusCode := 302; Body := Err "http: read on closed response body" |} in
  let cut := {| StatusCode := 200; Body := Err "context deadline exceeded" |} in
  let wA := Demo.world [PostErr "timeout"; PostBoth moved "stopped after 10 redirects";
                        Demo.reply 200 Demo.successBody] in
  let wB := Demo.world [Demo.reply 200 Demo.successBody] in
  let w := Demo.world [] in
  let wC := Demo.world [PostErr "timeout"; PostOk cut] in
  same_fs wA wB
  ∧ post_errors wA 2
  ∧ (worker job wA).1 = (worker job wB).1
  ∧ files (worker job wA).2 = files (worker job wB).2
  ∧ timeline (worker job wA).2
    = [Posted serviceURL jsonData; Slept 5; Posted serviceURL jsonData;
       Slept 5; Posted serviceURL jsonData]
  ∧ BatchJob.Status (worker job wA).1 = "completed"
  ∧ BatchJob.Error (worker job wA).1 = ""
  ∧ BatchJob.Status (worker job w).1 = "failed"
  ∧ BatchJob.Error (worker job w).1 = "failed after 3 attempts: connection refused"
  ∧ timeline (worker job wC).2
    = [Posted serviceURL jsonData; Slept 5; Posted serviceURL jsonData]
  ∧ BatchJob.Error (worker job wC).1 = "failed to read response: context deadline exceeded".
Proof.
  intros job jsonData moved cut wA wB w wC.
  assert (Hfs : same_fs wA wB) by (repeat split).
  assert (Hfail : post_errors wA 2).
  { intros i Hi. destruct i as [|[|i]]; [by eexists | by eexists | lia]. }
  assert (Hrefused : post_errors w 2).
  { intros i Hi. destruct i as [|[|i]]; [by eexists | by eexists | lia]. }
  assert (Hone : post_errors wC 1).
  { intros i Hi. destruct i as [|i]; [by eexists | lia]. }
  assert (Hlt : (1 < 3)%nat) by lia.
  destruct (C3_transport_errors_retried (H := Demo.lib) job)
    as (Hretry & Hexhausted & Hunread).
  destruct (Hretry wA wB 2%nat {| StatusCode := 200; Body := Ok Demo.successBody |}
              Hfs (Nat.lt_succ_diag_r 2) Hfail eq_refl eq_refl)
    as (_ & Hjob & _ & Hfiles & Hlog & Hdone).
  destruct (Hlog jsonData eq_refl eq_refl) as (_ & _ & Htime).
  destruct (Hdone eq_refl eq_refl) as (Hst & Herr).
  destruct (Hexhausted w jsonData "connection refused" eq_refl eq_refl Hrefused eq_refl)
    as (_ & _ & _ & _ & Hst' & Herr').
  destruct (Hunread wC jsonData 1%nat cut "context deadline exceeded"
              eq_refl eq_refl Hlt Hone eq_refl eq_refl)
    as (_ & _ & _ & Htime' & _ & Herr'').
  split_and!; assumption.
Defined.


(** Three chunk groups, each answered by a response that is discarded. *)
Lemma C7_witness :
  parseWithGemini Demo.rangeOrder
    (Demo.parser [Ok [" No Match "]; Ok [""]; Ok ["NOT FOUND"; "a second choice"]])
    Demo.sevenChunks "find the model"
  = (Ret (ResultText "NO_MATCH"), 3%nat).
Proof.
  destruct (C7_discarded_responses_and_sentinel Demo.rangeOrder
              (Demo.parser [Ok [" No Match "]; Ok [""]; Ok ["NOT FOUND"; "a second choice"]])
              "find the model") as (_ & _ & Hall).
  apply (Hall Demo.sevenChunks eq_refl).
  intros i g Hg. destruct i as [|[|[|i]]]; simpl in Hg; [| | |discriminate];
    injection Hg as <-; eexists _, _; (split; [reflexivity|]); vm_compute; auto.
Defined.

(** A job list that holds the pair (M1, http://a.example/1) at
    positions 0 and 2; all three jobs are processed.  Entry 0 ends up
    with the result of the third job, entry 2 is never written. *)
Lemma C10_witness :
  let b := Demo.batch Demo.duplicateJobs in
  let w := Demo.world [Demo.reply 200 Demo.successBody; Demo.reply 500 Demo.errorBody;
                       Demo.reply 502 Demo.htmlBody] in
  let rs := (runWorkers (BatchProcess.Jobs b) [0; 1; 2]%nat w).1 in
  BatchProcess.Jobs b !! 0%nat = Some (Demo.pending "M1" "http://a.example/1")
  ∧ BatchProcess.Jobs b !! 2%nat = Some (Demo.pending "M1" "http://a.example/1")
  ∧ (∃ r, rs !! 2%nat = Some r
          ∧ BatchJob.Status r = "failed"
          ∧ BatchProcess.Jobs (bp (collect 99 (startCollector b) rs)) !! 0%nat = Some r)
  ∧ BatchProcess.Jobs (bp (collect 99 (startCollector b) rs)) !! 2%nat
    = Some (Demo.pending "M1" "http://a.example/1")
  ∧ completed (collect 99 (startCollector b) rs) = 3
  ∧ BatchProcess.Status (bp (collect 99 (startCollector b) rs)) = "completed"
  ∧ BatchProcess.Progress (bp (collect 99 (startCollector b) rs)) = 100.
Proof.
  intros b w rs.
  destruct (C10_later_duplicate_never_updated b 99 rs 2 0
              (Demo.pending "M1" "http://a.example/1") (Demo.pending "M1" "http://a.example/1")
              eq_refl (Nat.lt_0_succ 1) eq_refl eq_refl eq_refl)
    as (_ & (f & jf & Hf & _ & _ & _ & Hlast) & Hkept & Hcount & Hfin).
  destruct (Hfin eq_refl) as (Hst & Hpr).
  pose proof (Hcount 3%nat (le_n 3)) as H3.
  assert (Hf0 : f = 0%nat) by lia. subst f.
  destruct (rs !! 2%nat) as [r|] eqn:Hr; [|by vm_compute in Hr].
  assert (Hrs : rs = take 2 rs ++ r :: []).
  { vm_compute in Hr. injection Hr as <-. by vm_compute. }
  assert (Hkey : jobKey r = jobKey (Demo.pending "M1" "http://a.example/1")).
  { vm_compute in Hr. injection Hr as <-. by vm_compute. }
  assert (Hfailed : BatchJob.Status r = "failed").
  { vm_compute in Hr. injection Hr as <-. by vm_compute. }
  pose proof (Hlast (take 2 rs) r [] Hrs Hkey (Forall_nil_2 _)) as Hzero.
  split_and!; try assumption; try reflexivity.
  by exists r.
Defined.

End Instances.

(** * Further properties of the code *)

(** ** [processURL]: what it does to the world *)

Section ProcessURLEffects.
Import Manager Notions.
Context `{ManagerLib}.

(** The log of the retry loop: [n] posts of the same request, with a
    sleep of the delay before each of them but the one of attempt 0, in
    this order. *)
Lemma postLoop_log (remaining : nat) (attempt : Z) (jsonData : string)
    (resp : option Response) (lastErr : option string) (w : World) :
  0 ≤ attempt →
  attempt + Z.of_nat remaining ≤ GoInt.max_int →
  ∃ n, (n ≤ remaining)%nat
       ∧ (remaining ≠ O → (1 ≤ n)%nat)
       ∧ posts (postLoop remaining attempt jsonData resp lastErr w).2
         = posts w ++ replicate n (serviceURL, jsonData)
       ∧ sleeps (postLoop remaining attempt jsonData resp lastErr w).2
         = sleeps w ++ replicate (if bool_decide (0 < attempt) then n else pred n) retryDelay
       ∧ timeline (postLoop remaining attempt jsonData resp lastErr w).2
         = timeline w ++ (if bool_decide (0 < attempt)
                          then retries n jsonData else attempts n jsonData)
       ∧ same_fs w (postLoop remaining attempt jsonData resp lastErr w).2.
Proof.
  revert attempt resp lastErr w.
  induction remaining as [|r IH]; intros attempt resp lastErr w Hpos Hmax.
  - exists O. simpl. rewrite !app_nil_r. split_and!; try done.
    + case_bool_decide; simpl; by rewrite app_nil_r.
    + case_bool_decide; simpl; by rewrite app_nil_r.
  - destruct (post_error (net w (length (posts w)))) as [e|] eqn:Herr.
    + rewrite (postLoop_failed _ _ _ _ _ _ _ Herr).
      assert (Hadd : GoInt.add attempt 1 = attempt + 1).
      { apply add_small. unfold GoInt.min_int, GoInt.max_int in *. lia. }
      rewrite Hadd.
      destruct (IH (attempt + 1) (post_response (net w (length (posts w)))) (Some e)
                  (log_post serviceURL jsonData (slept attempt w))) as
        (n & Hn & _ & Hposts & Hsleeps & Htime & Hfs); [lia | lia |].
      rewrite (bool_decide_eq_true_2 (0 < attempt + 1)) in Hsleeps, Htime by lia.
      exists (S n). rewrite Hposts, Hsleeps, Htime. unfold slept in *.
      destruct (bool_decide (0 < attempt)); simpl in *.
      all: split_and!;
        [lia | lia | by rewrite <- app_assoc | by rewrite <- ?app_assoc
        | by rewrite <- ?app_assoc
        | destruct Hfs as (? & ? & ? & ?); by split_and!].
    + destruct (net w (length (posts w))) as [e|rsp|rsp e] eqn:Hnet; try discriminate.
      rewrite (postLoop_ok _ _ _ _ _ _ _ Hnet). exists 1%nat. simpl.
      split_and!; [lia | lia | | | |].
      * unfold slept. by case_bool_decide.
      * unfold slept. case_bool_decide; simpl; [done | by rewrite app_nil_r].
      * unfold slept. case_bool_decide; simpl; by rewrite <- ?app_assoc.
      * unfold same_fs, slept. case_bool_decide; simpl; by split_and!.
Qed.

(** The log of one call of [processURL]. *)
Lemma processURL_log (job : BatchJob.t) (baseDir : string) (w : World) :
  ∃ (n : nat) (jsonData : string),
    (n ≤ 3)%nat
    ∧ posts (processURL job baseDir w).2 = posts w ++ replicate n (serviceURL, jsonData)
    ∧ sleeps (processURL job baseDir w).2 = sleeps w ++ replicate (pred n) retryDelay
    ∧ timeline (processURL job baseDir w).2 = timeline w ++ attempts n jsonData.
Proof.
  set (modelDir := filepath_Join baseDir (BatchJob.ModelNumber job)).
  assert (Hnone : ∀ w', posts w' = posts w → sleeps w' = sleeps w →
            timeline w' = timeline w →
            ∃ (n : nat) (jsonData : string), (n ≤ 3)%nat
              ∧ posts w' = posts w ++ replicate n (serviceURL, jsonData)
              ∧ sleeps w' = sleeps w ++ replicate (pred n) retryDelay
              ∧ timeline w' = timeline w ++ attempts n jsonData).
  { intros w' Hp Hs Ht. exists O, "". simpl. rewrite !app_nil_r.
    split_and!; [lia | done..]. }
  destruct (mkdir_err w modelDir) as [e|] eqn:Hdir.
  { unfold processURL, mbind, IO_bind, errorf, os_MkdirAll. fold modelDir. rewrite Hdir.
    simpl. by apply Hnone. }
  destruct (json_Marshal_ParseRequest (requestFor job)) as [jsonData|e] eqn:Hjson.
  2:{ unfold processURL, mbind, IO_bind, errorf, os_MkdirAll, io_lift. fold modelDir.
      rewrite Hdir, Hjson. simpl. by apply Hnone. }
  rewrite (processURL_unfold job baseDir jsonData w Hdir Hjson). fold modelDir.
  destruct (postLoop_log (Z.to_nat maxRetries) 0 jsonData None None (log_dir modelDir w))
    as (n & Hn & _ & Hposts & Hsleeps & Htime & _); [lia | by vm_compute |].
  rewrite bool_decide_eq_false_2 in Hsleeps, Htime by lia.
  unfold retryPosts.
  destruct (postLoop (Z.to_nat maxRetries) 0 jsonData None None (log_dir modelDir w))
    as [[resp lastErr] w'] eqn:Hloop.
  simpl in Hposts, Hsleeps, Htime. exists n, jsonData.
  split; [exact Hn|].
  destruct resp as [resp|]; [|by split_and!].
  destruct (fs_only_handleResponse job modelDir resp w' w') as (_ & _ & Hp & Hs & _ & Ht).
  { by split_and!. }
  rewrite Hp, Hs, Ht. by split_and!.
Qed.

(** X1. Whatever the network and the file system do, one call of
    [processURL] posts the same request at most three times, always to
    the service URL, and what it posts and sleeps is, in this order: the
    first post, then before every further post one sleep of the fixed
    delay.  So it sleeps exactly once between two consecutive posts,
    never before the first post nor after the last. *)
Theorem processURL_at_most_three_posts (job : BatchJob.t) (baseDir : string) (w : World) :
  ∃ (n : nat) (jsonData : string),
    (n ≤ 3)%nat
    ∧ posts (processURL job baseDir w).2 = posts w ++ replicate n (serviceURL, jsonData)
    ∧ sleeps (processURL job baseDir w).2 = sleeps w ++ replicate (pred n) retryDelay
    ∧ timeline (processURL job baseDir w).2 = timeline w ++ attempts n jsonData
    ∧ (∀ before after,
         attempts n jsonData = before ++ Posted serviceURL jsonData :: after →
         after ≠ [] →
         ∃ rest, after = Slept retryDelay :: Posted serviceURL jsonData :: rest).
Proof.
  destruct (processURL_log job baseDir w) as (n & jsonData & Hn & Hposts & Hsleeps & Htime).
  exists n, jsonData. split_and!; try done.
  assert (Hretries : ∀ m before after,
            retries m jsonData = before ++ Posted serviceURL jsonData :: after →
            after ≠ [] →
            ∃ rest, after = Slept retryDelay :: Posted serviceURL jsonData :: rest).
  { induction m as [|m IH]; intros before after Heq Hne.
    - by destruct before.
    - cbn [retries] in Heq. destruct before as [|a [|a' before]].
      + discriminate.
      + injection Heq as _ <-. destruct m as [|m]; [done|]. by eexists.
      + injection Heq as _ _ Heq. by apply (IH before after). }
  intros before after Heq Hne. destruct n as [|n]; [by destruct before|].
  cbn [attempts] in Heq. destruct before as [|a before].
  - injection Heq as <-. destruct n as [|n]; [done|]. by eexists.
  - injection Heq as _ Heq. by apply (Hretries n before after).
Qed.

Lemma HasPrefix_app (prefix s : string) : Strings.HasPrefix (prefix +:+ s) prefix = true.
Proof.
  induction prefix as [|c prefix IH]; [by destruct s|].
  simpl. rewrite bool_decide_eq_true_2 by done. exact IH.
Qed.

(** A response that is not saved leaves the world as it is. *)
Lemma handleResponse_error_world (job : BatchJob.t) (modelDir : string) (resp : Response)
    (w : World) (e : string) :
  (handleResponse job modelDir resp w).1 = Err e →
  Strings.HasPrefix e "failed to save results: " = false →
  (handleResponse job modelDir resp w).2 = w.
Proof.
  unfold handleResponse, mbind, IO_bind, errorf, io_lift, io_fail.
  destruct (Body resp) as [body|eb]; [|done].
  case_bool_decide.
  { by destruct (json_Unmarshal_errorResp body). }
  destruct (json_Unmarshal_ParseResponse body) as [pr|ep]; [|done].
  case_bool_decide; [done|].
  destruct (saveResults job modelDir pr w) as [[[]|es] w']; simpl; [done|].
  intros [= <-]. by rewrite HasPrefix_app.
Qed.

(** X2. A job that fails before the results are saved (directory,
    encoding, transport, status, decoding) leaves no file behind: when
    [processURL] returns an error that is not one of saving the results,
    the files are those that were there before. *)
Theorem processURL_failure_writes_no_file
    (job : BatchJob.t) (baseDir : string) (w : World) (e : string) :
  (processURL job baseDir w).1 = Err e →
  Strings.HasPrefix e "failed to save results: " = false →
  files (processURL job baseDir w).2 = files w.
Proof.
  set (modelDir := filepath_Join baseDir (BatchJob.ModelNumber job)).
  destruct (mkdir_err w modelDir) as [ed|] eqn:Hdir.
  { unfold processURL, mbind, IO_bind, errorf, os_MkdirAll. fold modelDir. by rewrite Hdir. }
  destruct (json_Marshal_ParseRequest (requestFor job)) as [jsonData|ej] eqn:Hjson.
  2:{ unfold processURL, mbind, IO_bind, errorf, os_MkdirAll, io_lift. fold modelDir.
      by rewrite Hdir, Hjson. }
  rewrite (processURL_unfold job baseDir jsonData w Hdir Hjson). fold modelDir.
  destruct (postLoop_log (Z.to_nat maxRetries) 0 jsonData None None (log_dir modelDir w))
    as (n & _ & _ & _ & _ & _ & Hfs); [lia | by vm_compute |].
  unfold retryPosts.
  destruct (postLoop (Z.to_nat maxRetries) 0 jsonData None None (log_dir modelDir w))
    as [[resp lastErr] w'] eqn:Hloop.
  destruct Hfs as (_ & _ & _ & Hfiles). simpl in Hfiles.
  destruct resp as [resp|]; [|by intros _ _].
  intros He Hpre. rewrite (handleResponse_error_world job modelDir resp w' e He Hpre).
  by rewrite <- Hfiles.
Qed.

(** [saveResults] on a file system that works. *)
Lemma saveResults_ok (job : BatchJob.t) (modelDir : string) (pr : ParseResponse.t)
    (w : World) (doc imgs : string) :
  let resultsDir := filepath_Join modelDir "results" in
  (∀ path, mkdir_err w path = None) →
  (∀ path, write_err w path = None) →
  json_MarshalIndent_ParseResponse pr = Ok doc →
  (ParseResponse.ImageMatches pr ≠ [] →
   json_MarshalIndent_ImageMatches (ParseResponse.ImageMatches pr) = Ok imgs) →
  (saveResults job modelDir pr w).1 = Ok ()
  ∧ dirs (saveResults job modelDir pr w).2 = dirs w ++ [resultsDir]
  ∧ files (saveResults job modelDir pr w).2
    = files w
      ++ [(filepath_Join resultsDir "parse_results.json", doc)]
      ++ match ParseResponse.ImageMatches pr with
         | [] => []
         | _ => [(filepath_Join resultsDir "image_matches.csv", imgs)]
         end
      ++ match ParseResponse.PDFLinks pr with
         | [] => []
         | links => [(filepath_Join resultsDir "pdf_links.txt", Strings.Join links newline)]
         end.
Proof.
  intros resultsDir Hmk Hwr Hdoc Himgs.
  unfold saveResults, mbind, IO_bind, errorf, io_lift, os_MkdirAll, os_WriteFile,
    mret, IO_ret.
  fold resultsDir. rewrite Hmk, Hdoc. cbn [log_dir write_err]. rewrite Hwr.
  destruct (ParseResponse.ImageMatches pr) as [|im ims] eqn:Him;
    destruct (ParseResponse.PDFLinks pr) as [|l ls] eqn:Hpdf;
    rewrite ?(bool_decide_eq_false_2 (0 < GoInt.len [])) by (unfold GoInt.len; simpl; lia);
    rewrite ?bool_decide_eq_true_2 by (unfold GoInt.len; simpl; lia);
    rewrite ?Himgs by done;
    repeat (progress (simpl; rewrite ?Hwr));
    by rewrite <- ?app_assoc.
Qed.

(** X3. The artifacts of a job that succeeds.  When the file system
    works, the first attempt is answered with status 200 and the body
    decodes to a response whose status is success, [processURL] returns
    no error after creating the directory of the model number and its
    results directory, and writes, in this order: the result document;
    the image matches, if there are any; the document links joined by
    line feeds, if there are any. *)
Theorem processURL_success_artifacts
    (job : BatchJob.t) (baseDir : string) (w : World) (resp : Response)
    (body jsonData doc imgs : string) (pr : ParseResponse.t) :
  let modelDir := filepath_Join baseDir (BatchJob.ModelNumber job) in
  let resultsDir := filepath_Join modelDir "results" in
  (∀ path, mkdir_err w path = None) →
  (∀ path, write_err w path = None) →
  json_Marshal_ParseRequest (requestFor job) = Ok jsonData →
  net w (length (posts w)) = PostOk resp →
  StatusCode resp = 200 →
  Body resp = Ok body →
  json_Unmarshal_ParseResponse body = Ok pr →
  ParseResponse.Status pr = "success" →
  json_MarshalIndent_ParseResponse pr = Ok doc →
  (ParseResponse.ImageMatches pr ≠ [] →
   json_MarshalIndent_ImageMatches (ParseResponse.ImageMatches pr) = Ok imgs) →
  (processURL job baseDir w).1 = Ok ()
  ∧ dirs (processURL job baseDir w).2 = dirs w ++ [modelDir; resultsDir]
  ∧ files (processURL job baseDir w).2
    = files w
      ++ [(filepath_Join resultsDir "parse_results.json", doc)]
      ++ match ParseResponse.ImageMatches pr with
         | [] => []
         | _ => [(filepath_Join resultsDir "image_matches.csv", imgs)]
         end
      ++ match ParseResponse.PDFLinks pr with
         | [] => []
         | links => [(filepath_Join resultsDir "pdf_links.txt", Strings.Join links newline)]
         end.
Proof.
  intros modelDir resultsDir Hmk Hwr Hjson Hnet Hcode Hbody Hdec Hst Hdoc Himgs.
  rewrite (processURL_unfold job baseDir jsonData w (Hmk _) Hjson). fold modelDir.
  destruct (retryPosts_response jsonData (log_dir modelDir w) O resp) as
    (lastErr & w' & -> & (Hm' & Hw' & Hd' & Hf') & _ & _);
    [lia | intros i Hi; lia | by rewrite Nat.add_0_r |].
  simpl in Hm', Hw', Hd', Hf'.
  assert (Hmk' : ∀ path, mkdir_err w' path = None) by (intros; by rewrite <- Hm').
  assert (Hwr' : ∀ path, write_err w' path = None) by (intros; by rewrite <- Hw').
  destruct (saveResults_ok job modelDir pr w' doc imgs Hmk' Hwr' Hdoc Himgs)
    as (Hok & Hdirs & Hfiles).
  fold resultsDir in Hdirs, Hfiles.
  unfold handleResponse, mbind, IO_bind, errorf, io_lift.
  rewrite Hbody, Hdec. rewrite bool_decide_eq_false_2 by (rewrite Hcode; intros Hne; by apply Hne).
  rewrite bool_decide_eq_false_2 by (rewrite Hst; intros Hne; by apply Hne).
  destruct (saveResults job modelDir pr w') as [[[]|es] w'']; simpl in *; [|done].
  rewrite Hdirs, Hfiles, <- Hd', <- Hf'. by rewrite <- !app_assoc.
Qed.

(** X4. An answer with status 200 that is not a success is a failure of
    the job without retry: when the attempt that follows [k < 3]
    transport errors is answered with status 200, no post follows; the
    job fails with the error of reading the body, or of decoding it, or,
    when the decoded status is not success, with the error text of the
    response; and no file is written. *)
Theorem processURL_answer_without_success
    (job : BatchJob.t) (baseDir : string) (w : World) (k : nat) (resp : Response)
    (jsonData : string) :
  mkdir_err w (filepath_Join baseDir (BatchJob.ModelNumber job)) = None →
  json_Marshal_ParseRequest (requestFor job) = Ok jsonData →
  (k < 3)%nat →
  transport_failures w k →
  net w (length (posts w) + k) = PostOk resp →
  StatusCode resp = 200 →
  posts (processURL job baseDir w).2 = posts w ++ replicate (S k) (serviceURL, jsonData)
  ∧ (∀ e, Body resp = Err e →
       (processURL job baseDir w).1 = Err ("failed to read response: " +:+ e)
       ∧ files (processURL job baseDir w).2 = files w)
  ∧ (∀ body e, Body resp = Ok body → json_Unmarshal_ParseResponse body = Err e →
       (processURL job baseDir w).1 = Err ("failed to parse response: " +:+ e)
       ∧ files (processURL job baseDir w).2 = files w)
  ∧ (∀ body pr, Body resp = Ok body → json_Unmarshal_ParseResponse body = Ok pr →
       ParseResponse.Status pr ≠ "success" →
       (processURL job baseDir w).1
       = Err ("processing failed: " +:+ ParseResponse.Error pr)
       ∧ files (processURL job baseDir w).2 = files w).
Proof.
  intros Hdir Hjson Hk Hfail Hnet Hcode.
  set (modelDir := filepath_Join baseDir (BatchJob.ModelNumber job)) in *.
  rewrite (processURL_unfold job baseDir jsonData w Hdir Hjson). fold modelDir.
  destruct (retryPosts_response jsonData (log_dir modelDir w) k resp Hk Hfail Hnet)
    as (lastErr & w' & -> & (_ & _ & _ & Hfiles) & Hposts & _).
  simpl in Hfiles, Hposts.
  destruct (fs_only_handleResponse job modelDir resp w' w') as (_ & _ & Hp & _ & _).
  { by split_and!. }
  split; [by rewrite Hp|].
  unfold handleResponse, mbind, IO_bind, errorf, io_lift, io_fail.
  rewrite (bool_decide_eq_false_2 (StatusCode resp ≠ 200))
    by (rewrite Hcode; intros Hne; by apply Hne).
  split_and!.
  - intros e ->. by rewrite Hfiles.
  - intros body e -> ->. by rewrite Hfiles.
  - intros body pr -> -> Hst. rewrite bool_decide_eq_true_2 by done. by rewrite Hfiles.
Qed.

(** X5. A result that cannot be saved is a failure of the job of its
    own kind: when the answer is a success but the result document
    cannot be written, the job fails with the error of saving the
    results around that of writing the file, and neither the image
    matches nor the document links are written. *)
Theorem processURL_results_not_written
    (job : BatchJob.t) (baseDir : string) (w : World) (resp : Response)
    (body jsonData doc e : string) (pr : ParseResponse.t) :
  let modelDir := filepath_Join baseDir (BatchJob.ModelNumber job) in
  let resultsDir := filepath_Join modelDir "results" in
  (∀ path, mkdir_err w path = None) →
  write_err w (filepath_Join resultsDir "parse_results.json") = Some e →
  json_Marshal_ParseRequest (requestFor job) = Ok jsonData →
  net w (length (posts w)) = PostOk resp →
  StatusCode resp = 200 →
  Body resp = Ok body →
  json_Unmarshal_ParseResponse body = Ok pr →
  ParseResponse.Status pr = "success" →
  json_MarshalIndent_ParseResponse pr = Ok doc →
  (processURL job baseDir w).1
  = Err ("failed to save results: failed to write results file: " +:+ e)
  ∧ files (processURL job baseDir w).2 = files w.
Proof.
  intros modelDir resultsDir Hmk Hwr Hjson Hnet Hcode Hbody Hdec Hst Hdoc.
  rewrite (processURL_unfold job baseDir jsonData w (Hmk _) Hjson). fold modelDir.
  destruct (retryPosts_response jsonData (log_dir modelDir w) O resp) as
    (lastErr & w' & -> & (Hm' & Hw' & _ & Hf') & _ & _);
    [lia | intros i Hi; lia | by rewrite Nat.add_0_r |].
  simpl in Hm', Hw', Hf'.
  unfold handleResponse, mbind, IO_bind, errorf, io_lift.
  rewrite Hbody, Hdec. rewrite bool_decide_eq_false_2 by (rewrite Hcode; intros Hne; by apply Hne).
  rewrite bool_decide_eq_false_2 by (rewrite Hst; intros Hne; by apply Hne).
  unfold saveResults, mbind, IO_bind, errorf, io_lift, os_MkdirAll, os_WriteFile.
  fold resultsDir. rewrite <- Hm', Hmk, Hdoc. cbn [log_dir write_err].
  rewrite <- Hw', Hwr. simpl. by rewrite Hf'.
Qed.


End ProcessURLEffects.

(** ** [handleFileUpload]: which files become a batch, and which batch *)

Section UploadProperties.
Import Manager UploadNotions.
Context `{GoStrings}.

Lemma add_index (i : Z) : 0 ≤ i < GoInt.max_int → GoInt.add i 1 = i + 1.
Proof. intros Hi. apply add_small. unfold GoInt.min_int, GoInt.max_int in *. lia. Qed.

Lemma lastIndex_lt (name : string) (headers : list string) (j : nat) :
  lastIndex name headers = Some j → (j < length headers)%nat.
Proof.
  revert j. induction headers as [|h rest IH]; intros j; simpl; [done|].
  destruct (lastIndex name rest) as [j'|].
  - intros [= <-]. specialize (IH j' eq_refl). lia.
  - case_bool_decide; [|done]. intros [= <-]. lia.
Qed.

Lemma lastIndex_Some_iff (name : string) (headers : list string) :
  is_Some (lastIndex name headers) ↔ name ∈ normalize <$> headers.
Proof.
  induction headers as [|h rest IH]; simpl.
  - split; [by intros [? ?] | by intros ?%elem_of_nil].
  - rewrite elem_of_cons, <- IH. destruct (lastIndex name rest) as [j|].
    + split; eauto.
    + case_bool_decide as Hh.
      * split; [intros _; by left | eauto].
      * split; [by intros [? ?] | intros [? | [? ?]]; done].
Qed.

Lemma firstIndex_lt (name : string) (headers : list string) (j : nat) :
  firstIndex name headers = Some j → (j < length headers)%nat.
Proof.
  revert j. induction headers as [|h rest IH]; intros j; simpl; [done|].
  case_bool_decide; [intros [= <-]; lia|].
  destruct (firstIndex name rest) as [j'|]; [|done].
  intros [= <-]. specialize (IH j' eq_refl). lia.
Qed.

(** [getColumnIndex]: the position of the first header that matches, or
    -1. *)
Lemma getColumnIndex_from_spec (i : Z) (headers : list string) (columnName : string) :
  0 ≤ i →
  i + GoInt.len headers ≤ GoInt.max_int →
  getColumnIndex_from i headers columnName
  = match firstIndex (strings_ToLower columnName) headers with
    | Some j => i + Z.of_nat j
    | None => -1
    end.
Proof.
  revert i. unfold GoInt.len.
  induction headers as [|h rest IH]; intros i Hi Hmax; simpl; [done|].
  fold (normalize h). case_bool_decide; [lia|].
  rewrite add_index by (simpl in Hmax; lia).
  rewrite IH by (simpl in Hmax; lia).
  destruct (firstIndex (strings_ToLower columnName) rest); simpl; lia.
Qed.

(** The loop over the headers: a required column ends with the position
    of the last header that matches it, other keys are never added. *)
Lemma locateColumns_spec (i : Z) (headers : list string) (cols : gmap string Z)
    (name : string) :
  0 ≤ i →
  i + GoInt.len headers ≤ GoInt.max_int →
  locateColumns i headers cols !! name
  = match cols !! name with
    | None => None
    | Some v =>
        Some (match lastIndex name headers with
              | Some j => i + Z.of_nat j
              | None => v
              end)
    end.
Proof.
  revert i cols. unfold GoInt.len.
  induction headers as [|h rest IH]; intros i cols Hi Hmax; simpl.
  - by destruct (cols !! name).
  - fold (normalize h). rewrite add_index by (simpl in Hmax; lia).
    rewrite IH by (simpl in Hmax; lia).
    destruct (decide (normalize h = name)) as [Heq|Hne].
    + rewrite Heq. rewrite bool_decide_eq_true_2 by done.
      destruct (cols !! name) as [v|] eqn:Hc.
      * rewrite lookup_insert_eq. f_equal.
        destruct (lastIndex name rest); lia.
      * by rewrite Hc.
    + rewrite bool_decide_eq_false_2 by done.
      assert (Hsame : (match cols !! normalize h with
                       | Some _ => <[normalize h := i]> cols
                       | None => cols
                       end) !! name = cols !! name).
      { destruct (cols !! normalize h); [by rewrite lookup_insert_ne | done]. }
      rewrite Hsame. destruct (cols !! name); [|done]. f_equal.
      destruct (lastIndex name rest); lia.
Qed.

Lemma elem_of_missingColumns (cols : gmap string Z) (column : string) :
  column ∈ missingColumns cols ↔ cols !! column = Some (-1).
Proof.
  unfold missingColumns. rewrite list_elem_of_fmap. split.
  - intros ([k v] & -> & Hin). apply list_elem_of_filter in Hin as [Hv Hin].
    simpl in *. subst v. by apply elem_of_map_to_list.
  - intros Hc. exists (column, -1). split; [done|].
    apply list_elem_of_filter. split; [done | by apply elem_of_map_to_list].
Qed.

(** The map of required columns after the loop over the headers. *)
Lemma requiredColumns_lookup (headers : list string) (name : string) :
  GoInt.len headers ≤ GoInt.max_int →
  name = "url" ∨ name = "model_number" →
  locateColumns 0 headers {[ "url" := -1; "model_number" := -1 ]} !! name
  = Some (match lastIndex name headers with
          | Some j => Z.of_nat j
          | None => -1
          end).
Proof.
  intros Hlen Hname. rewrite locateColumns_spec by lia.
  destruct Hname as [-> | ->]; by vm_compute (_ !! _).
Qed.

Lemma requiredColumns_other (headers : list string) (name : string) :
  GoInt.len headers ≤ GoInt.max_int →
  name ≠ "url" → name ≠ "model_number" →
  locateColumns 0 headers {[ "url" := -1; "model_number" := -1 ]} !! name = None.
Proof.
  intros Hlen Hu Hm. rewrite locateColumns_spec by lia.
  rewrite lookup_insert_ne by done. rewrite lookup_singleton_ne by done. done.
Qed.

(** No column is missing exactly when both required names are among the
    normalized headers. *)
Lemma missingColumns_nil (headers : list string) :
  GoInt.len headers ≤ GoInt.max_int →
  missingColumns (locateColumns 0 headers {[ "url" := -1; "model_number" := -1 ]}) = []
  ↔ "url" ∈ normalize <$> headers ∧ "model_number" ∈ normalize <$> headers.
Proof.
  intros Hlen. rewrite <- !lastIndex_Some_iff. split.
  - intros Hnil.
    assert (Hno : ∀ c, c = "url" ∨ c = "model_number" → is_Some (lastIndex c headers)).
    { intros c Hc. destruct (lastIndex c headers) as [j|] eqn:Hj; [eauto|].
      assert (Hin : c ∈ missingColumns
                (locateColumns 0 headers {[ "url" := -1; "model_number" := -1 ]})).
      { apply elem_of_missingColumns. rewrite requiredColumns_lookup by done. by rewrite Hj. }
      rewrite Hnil in Hin. by apply elem_of_nil in Hin. }
    split; apply Hno; auto.
  - intros [[ju Hu] [jm Hm]].
    destruct (missingColumns _) as [|c rest] eqn:Hmiss; [done|].
    assert (Hin : c ∈ missingColumns
              (locateColumns 0 headers {[ "url" := -1; "model_number" := -1 ]})).
    { rewrite Hmiss. by left. }
    apply elem_of_missingColumns in Hin.
    destruct (decide (c = "url")) as [->|Hnu].
    { rewrite requiredColumns_lookup, Hu in Hin by auto. injection Hin. lia. }
    destruct (decide (c = "model_number")) as [->|Hnm].
    { rewrite requiredColumns_lookup, Hm in Hin by auto. injection Hin. lia. }
    by rewrite requiredColumns_other in Hin.
Qed.

(** The loop over the records when both columns were found and every
    record has the width of the header line. *)
Lemma readRecords_rows (headers : list string) (rows : list (list string))
    (tail : list (result (list string))) (jobs : list BatchJob.t) :
  GoInt.len headers ≤ GoInt.max_int →
  "url" ∈ normalize <$> headers →
  "model_number" ∈ normalize <$> headers →
  Forall (λ row, length row = length headers) rows →
  readRecords headers (locateColumns 0 headers {[ "url" := -1; "model_number" := -1 ]})
    ((Ok <$> rows) ++ tail) jobs
  = readRecords headers (locateColumns 0 headers {[ "url" := -1; "model_number" := -1 ]})
      tail (jobs ++ (jobOfRecord headers <$> rows)).
Proof.
  intros Hlen Hu Hm Hrows. revert jobs.
  apply lastIndex_Some_iff in Hu as [ju Hu]. apply lastIndex_Some_iff in Hm as [jm Hm].
  induction Hrows as [|row rows Hrow _ IH]; intros jobs.
  - simpl. by rewrite app_nil_r.
  - cbn [fmap list_fmap app readRecords]. unfold columnOf.
    rewrite !requiredColumns_lookup by auto. rewrite Hu, Hm. simpl.
    unfold index.
    rewrite (bool_decide_eq_true_2 (0 ≤ Z.of_nat ju)) by lia.
    rewrite (bool_decide_eq_true_2 (0 ≤ Z.of_nat jm)) by lia.
    rewrite !Nat2Z.id.
    assert (Hju : (ju < length row)%nat) by (rewrite Hrow; by eapply lastIndex_lt).
    assert (Hjm : (jm < length row)%nat) by (rewrite Hrow; by eapply lastIndex_lt).
    destruct (lookup_lt_is_Some_2 row ju Hju) as [u Hfu].
    destruct (lookup_lt_is_Some_2 row jm Hjm) as [m Hfm].
    rewrite Hfu, Hfm. rewrite IH. rewrite <- app_assoc. do 2 f_equal. simpl. f_equal.
    unfold jobOfRecord, fieldAt. rewrite Hu, Hm. simpl. rewrite Hfu, Hfm. simpl.
    f_equal. unfold getColumnIndex. rewrite getColumnIndex_from_spec by lia.
    destruct (firstIndex (strings_ToLower "parse_description") headers) as [jd|] eqn:Hd;
      simpl; [|done].
    apply firstIndex_lt in Hd.
    rewrite (bool_decide_eq_true_2 (Z.of_nat jd ≠ -1)) by lia.
    rewrite (bool_decide_eq_true_2 (Z.of_nat jd < GoInt.len row)) by (unfold GoInt.len; lia).
    simpl. rewrite (bool_decide_eq_true_2 (0 ≤ Z.of_nat jd)) by lia.
    by replace (Z.to_nat (0 + Z.of_nat jd)) with jd by lia.
Qed.

(** X6. An upload whose header line has both required columns (found
    after trimming and lower-casing) and whose records all have the
    width of the header line, at least one of them, is accepted whole:
    the batch stored under the new identifier has one pending job for
    every record, in the order of the file, duplicates and empty fields
    included; a job takes its model number and url from the last header
    of that name and its description from the first [parse_description]
    header, if the field is not empty. *)
Theorem upload_accepts_every_row
    (headers : list string) (rows : list (list string)) (t_id t_start : Z)
    (processes : gmap string BatchProcess.t) :
  GoInt.len headers ≤ GoInt.max_int →
  "url" ∈ normalize <$> headers →
  "model_number" ∈ normalize <$> headers →
  Forall (λ row, length row = length headers) rows →
  rows ≠ [] →
  handleFileUpload (Some (Ok headers :: (Ok <$> rows))) t_id t_start processes
  = (Ret {| batch_id := "batch_" +:+ GoInt.itoa t_id;
            status := "pending";
            message := "Successfully queued " +:+ GoInt.itoa (GoInt.len rows) +:+ " jobs" |},
     <["batch_" +:+ GoInt.itoa t_id :=
         BatchProcess.mk ("batch_" +:+ GoInt.itoa t_id) (jobOfRecord headers <$> rows)
           "pending" 0 (instant t_start) zeroTime []]> processes).
Proof.
  intros Hlen Hu Hm Hrows Hne. unfold handleFileUpload.
  rewrite (proj2 (missingColumns_nil headers Hlen)) by done.
  pose proof (readRecords_rows headers rows [] [] Hlen Hu Hm Hrows) as Hread.
  rewrite app_nil_r in Hread. rewrite Hread. simpl.
  rewrite bool_decide_eq_false_2.
  - unfold GoInt.len. by rewrite length_fmap.
  - unfold GoInt.len. rewrite length_fmap. destruct rows; [done | simpl; lia].
Qed.

(** X7. Uploads that are rejected, the registry of batches staying as it
    was: a header line that lacks a required column (the reply names one
    that is missing); a header line with both columns and no record
    after it; a read error after any number of good records, which are
    then not ingested either. *)
Theorem upload_rejections
    (headers : list string) (t_id t_start : Z) (processes : gmap string BatchProcess.t) :
  GoInt.len headers ≤ GoInt.max_int →
  (∀ reader,
     ¬ ("url" ∈ normalize <$> headers ∧ "model_number" ∈ normalize <$> headers) →
     ∃ column,
       (column = "url" ∨ column = "model_number")
       ∧ (column ∉ normalize <$> headers)
       ∧ handleFileUpload (Some (Ok headers :: reader)) t_id t_start processes
         = (Fail ("Missing required column: " +:+ column), processes))
  ∧ ("url" ∈ normalize <$> headers → "model_number" ∈ normalize <$> headers →
     handleFileUpload (Some [Ok headers]) t_id t_start processes
     = (Fail "No valid jobs found in the CSV file", processes))
  ∧ (∀ rows e rest,
       "url" ∈ normalize <$> headers → "model_number" ∈ normalize <$> headers →
       Forall (λ row, length row = length headers) rows →
       handleFileUpload (Some (Ok headers :: ((Ok <$> rows) ++ Err e :: rest)))
         t_id t_start processes
       = (Fail "Error reading CSV file", processes)).
Proof.
  intros Hlen. split_and!.
  - intros reader Hnot. unfold handleFileUpload.
    destruct (missingColumns (locateColumns 0 headers {[ "url" := -1; "model_number" := -1 ]}))
      as [|column others] eqn:Hmiss.
    { exfalso. apply Hnot. by apply missingColumns_nil. }
    exists column.
    assert (Hin : column ∈ missingColumns
              (locateColumns 0 headers {[ "url" := -1; "model_number" := -1 ]})).
    { rewrite Hmiss. by left. }
    apply elem_of_missingColumns in Hin.
    assert (Hname : column = "url" ∨ column = "model_number").
    { destruct (decide (column = "url")); [by left|].
      destruct (decide (column = "model_number")); [by right|].
      by rewrite requiredColumns_other in Hin. }
    split_and!; [done| |done].
    rewrite requiredColumns_lookup in Hin by done.
    rewrite <- lastIndex_Some_iff.
    destruct (lastIndex column headers) as [j|]; [injection Hin; lia|].
    by intros [? ?].
  - intros Hu Hm. unfold handleFileUpload.
    by rewrite (proj2 (missingColumns_nil headers Hlen)) by done.
  - intros rows e rest Hu Hm Hrows. unfold handleFileUpload.
    rewrite (proj2 (missingColumns_nil headers Hlen)) by done.
    by rewrite (readRecords_rows headers rows (Err e :: rest) [] Hlen Hu Hm Hrows).
Qed.

(** Every job that the loop over the records adds is fresh. *)
Lemma readRecords_fresh (headers : list string) (cols : gmap string Z)
    (reader : list (result (list string))) (jobs jobs' : list BatchJob.t) :
  Forall freshJob jobs →
  readRecords headers cols reader jobs = Ret jobs' →
  Forall freshJob jobs'.
Proof.
  revert jobs. induction reader as [|[record|e] reader IH]; intros jobs Hfresh; simpl.
  - by intros [= <-].
  - destruct (index record (columnOf cols "model_number")) as [m|]; [|done].
    destruct (index record (columnOf cols "url")) as [u|]; [|done].
    apply IH. apply Forall_app. split; [done|]. by repeat constructor.
  - done.
Qed.

(** X8. Whatever is uploaded: a reply other than success leaves the
    registry of batches as it was; a success stores, under the
    identifier that the reply gives, a batch with that identifier which
    is pending with progress 0, no end time and no client, and whose
    jobs, at least one, are all pending with no error and progress 0. *)
Theorem upload_batch_is_fresh
    (file : option (list (result (list string)))) (t_id t_start : Z)
    (processes : gmap string BatchProcess.t) :
  let reply := (handleFileUpload file t_id t_start processes).1 in
  let processes' := (handleFileUpload file t_id t_start processes).2 in
  (∀ r, reply = Ret r →
     ∃ b, processes' = <[batch_id r := b]> processes
          ∧ BatchProcess.ID b = batch_id r
          ∧ BatchProcess.Status b = "pending"
          ∧ BatchProcess.Progress b = 0
          ∧ BatchProcess.EndTime b = zeroTime
          ∧ BatchProcess.clients b = []
          ∧ BatchProcess.Jobs b ≠ []
          ∧ Forall freshJob (BatchProcess.Jobs b))
  ∧ ((∀ r, reply ≠ Ret r) → processes' = processes).
Proof.
  unfold handleFileUpload.
  destruct file as [[|[headers|e] reader]|]; simpl; try (split; [intros r [=] | done]).
  destruct (missingColumns _) as [|c cs]; simpl; [|split; [intros r [=] | done]].
  destruct (readRecords headers _ reader []) as [jobs|msg|msg] eqn:Hread; simpl;
    try (split; [intros r [=] | done]).
  apply readRecords_fresh in Hread; [|constructor].
  case_bool_decide as Hzero; simpl; [split; [intros r [=] | done]|].
  split.
  - intros r [= <-]. simpl. eexists. split; [reflexivity|]. simpl.
    split_and!; try done. intros ->. by apply Hzero.
  - intros Hno. exfalso. by eapply Hno.
Qed.


End UploadProperties.

(** ** [updateJob] and the collector on batches with distinct pairs *)

Section CollectorMore.
Import Manager Notions.

(** X9. [updateJob] never changes which pairs the job list holds, nor
    where.  A job whose pair is not in the list leaves the batch as it
    is.  A job whose pair is in the list is stored at the first position
    that holds the pair, in place of the entry there, and nowhere else;
    a later update for the same pair is stored at that position again.
    No other field of the batch changes. *)
Theorem updateJob_keeps_pairs (b : BatchProcess.t) (job : BatchJob.t) :
  jobKey <$> BatchProcess.Jobs (updateJob b job).1 = jobKey <$> BatchProcess.Jobs b
  ∧ (jobKey job ∉ jobKey <$> BatchProcess.Jobs b → (updateJob b job).1 = b)
  ∧ (jobKey job ∈ jobKey <$> BatchProcess.Jobs b →
     ∃ i ji,
       BatchProcess.Jobs b !! i = Some ji
       ∧ jobKey ji = jobKey job
       ∧ (∀ k jk, (k < i)%nat → BatchProcess.Jobs b !! k = Some jk → jobKey jk ≠ jobKey job)
       ∧ BatchProcess.Jobs (updateJob b job).1 = <[i := job]> (BatchProcess.Jobs b)
       ∧ BatchProcess.Jobs (updateJob b job).1 !! i = Some job
       ∧ ∀ job', jobKey job' = jobKey job →
           BatchProcess.Jobs (updateJob (updateJob b job).1 job').1
           = <[i := job']> (BatchProcess.Jobs b))
  ∧ BatchProcess.Status (updateJob b job).1 = BatchProcess.Status b
  ∧ BatchProcess.Progress (updateJob b job).1 = BatchProcess.Progress b
  ∧ BatchProcess.clients (updateJob b job).1 = BatchProcess.clients b.
Proof.
  destruct (updateJob_spec b job) as (Hkeys & Hnone & _ & Hst & Hpr & Hcl).
  split_and!; try done.
  intros Hin. destruct (key_first_position _ _ Hin) as (i & ji & Hi & Hkey & Hfirst).
  exists i, ji. split_and!; try done.
  - by apply updateJob_first with ji.
  - rewrite (updateJob_first b job i ji) by done.
    apply list_lookup_insert_eq. by eapply lookup_lt_Some.
  - intros job' Hkey'.
    rewrite (updateJob_first (updateJob b job).1 job' i job).
    + rewrite (updateJob_first b job i ji) by done. apply list_insert_insert_eq.
    + rewrite (updateJob_first b job i ji) by done.
      apply list_lookup_insert_eq. by eapply lookup_lt_Some.
    + done.
    + rewrite (updateJob_first b job i ji) by done.
      intros k jk Hk Hjk. rewrite list_lookup_insert_ne in Hjk by lia.
      rewrite Hkey'. by apply (Hfirst k).
Qed.



(** With distinct pairs, the entry of a job holds the result that
    arrived for its pair, once one has arrived. *)
Lemma collect_distinct (now : Z) (st : Collector) (rs : list BatchJob.t)
    (i : nat) (ji : BatchJob.t) :
  NoDup (jobKey <$> BatchProcess.Jobs (bp st)) →
  BatchProcess.Jobs (bp st) !! i = Some ji →
  ∃ x, BatchProcess.Jobs (bp (collect now st rs)) !! i = Some x
       ∧ jobKey x = jobKey ji
       ∧ ((∃ r, r ∈ rs ∧ jobKey r = jobKey ji) → x ∈ rs).
Proof.
  intros Hnd Hi. induction rs as [|r rs IH] using rev_ind.
  - exists ji. split_and!; [done..|]. intros (r & Hr & _). by apply elem_of_nil in Hr.
  - destruct IH as (x & Hx & Hkx & Hin).
    rewrite collect_snoc, collectStep_jobs.
    set (J := BatchProcess.Jobs (bp (collect now st rs))) in *.
    assert (HndJ : NoDup (jobKey <$> J)) by (unfold J; by rewrite collect_keys).
    destruct (updateJob_spec (bp (collect now st rs)) r) as (_ & Hnone & Hsome & _).
    fold J in Hnone, Hsome.
    destruct (findJob J r) as [idx|] eqn:Hfind.
    + destruct (Hsome idx eq_refl) as (Hat & _ & Hother).
      destruct (findJob_Some _ _ _ Hfind) as [(jx & Hjx & Hkey) _].
      destruct (decide (idx = i)) as [->|Hne].
      * exists r. split_and!; [done | congruence |]. intros _. apply elem_of_app. right.
        by left.
      * exists x. rewrite (Hother i) by done. split_and!; [done..|].
        intros (r' & Hr' & Hkr'). apply elem_of_app. left. apply Hin.
        apply elem_of_app in Hr' as [Hr'|Hr']; [by exists r'|].
        apply list_elem_of_singleton in Hr' as ->. exfalso. apply Hne.
        apply (NoDup_lookup (jobKey <$> J) idx i (jobKey ji)); [done | |].
        -- rewrite list_lookup_fmap, Hjx. simpl. congruence.
        -- rewrite list_lookup_fmap, Hx. simpl. congruence.
    + apply findJob_None in Hfind. rewrite (Hnone Hfind).
      exists x. split_and!; [done..|].
      intros (r' & Hr' & Hkr'). apply elem_of_app. left. apply Hin.
      apply elem_of_app in Hr' as [Hr'|Hr']; [by exists r'|].
      apply list_elem_of_singleton in Hr' as ->. exfalso. apply Hfind.
      apply list_elem_of_fmap. exists x. split; [congruence|].
      by eapply list_elem_of_lookup_2.
Qed.

Lemma worker_key `{ManagerLib} (job : BatchJob.t) (w : World) :
  jobKey (worker job w).1 = jobKey job.
Proof. unfold worker. by destruct (processURL job "./data" w) as [[?|?] ?]. Qed.

Lemma runWorkers_covers `{ManagerLib} (jobs : list BatchJob.t) (sched : list nat) (w : World)
    (i : nat) (ji : BatchJob.t) :
  i ∈ sched → jobs !! i = Some ji →
  ∃ r, r ∈ (runWorkers jobs sched w).1 ∧ jobKey r = jobKey ji.
Proof.
  revert w. induction sched as [|i' sched IH]; intros w Hin Hi.
  { by apply elem_of_nil in Hin. }
  simpl. apply elem_of_cons in Hin as [->|Hin].
  - rewrite Hi. pose proof (worker_key ji w) as Hk.
    destruct (worker ji w) as [d w1]. destruct (runWorkers jobs sched w1) as [more w2].
    exists d. split; [by left | done].
  - destruct (jobs !! i') as [j'|]; [|by apply IH].
    destruct (worker j' w) as [d w1]. destruct (IH w1 Hin Hi) as (r & Hr & Hk).
    destruct (runWorkers jobs sched w1) as [more w2]. exists r. split; [by right | done].
Qed.

(** X10. In a batch whose pairs are distinct, when processing is over
    every entry of the job list holds the result that the workers sent
    for the job ingested at that position: a job with the same pair and
    a terminal status. *)
Theorem distinct_pairs_every_job_updated `{ManagerLib}
    (b : BatchProcess.t) (sched : list nat) (now : Z) (w : World) (i : nat) (ji : BatchJob.t) :
  NoDup (jobKey <$> BatchProcess.Jobs b) →
  sched ≡ₚ seq 0 (length (BatchProcess.Jobs b)) →
  BatchProcess.Jobs b !! i = Some ji →
  ∃ r, BatchProcess.Jobs (bp (startProcessing b sched now w).1) !! i = Some r
       ∧ r ∈ (runWorkers (BatchProcess.Jobs b) sched w).1
       ∧ jobKey r = jobKey ji
       ∧ (BatchJob.Status r = "completed" ∨ BatchJob.Status r = "failed").
Proof.
  intros Hnd Hperm Hi. unfold startProcessing. simpl.
  assert (Hin : i ∈ sched).
  { rewrite Hperm. apply elem_of_seq. apply lookup_lt_Some in Hi. lia. }
  destruct (runWorkers_covers (BatchProcess.Jobs b) sched w i ji Hin Hi) as (r0 & Hr0 & Hk0).
  pose proof (runWorkers_terminal (BatchProcess.Jobs b) sched w) as Hterm.
  destruct (runWorkers (BatchProcess.Jobs b) sched w) as [rs w'] eqn:Hrun. simpl in *.
  destruct (collect_distinct now (startCollector b) rs i ji Hnd Hi) as (x & Hx & Hkx & Hxin).
  exists x. assert (Hxrs : x ∈ rs) by (apply Hxin; by exists r0).
  split_and!; [done..|].
  rewrite Forall_forall in Hterm. by apply Hterm.
Qed.






Lemma collectStep_updates (now : Z) (st : Collector) (job : BatchJob.t) :
  0 ≤ completed st < total st →
  total st * 100 ≤ GoInt.max_int →
  let st' := collectStep now st job in
  let shown (status : string) :=
    {| update_id := BatchProcess.ID (bp st); update_status := status;
       update_progress := ((completed st + 1) * 100) `div` total st;
       update_jobs := BatchProcess.Jobs (bp st') |} in
  updates (trace st') =
  updates (trace st) ++ shown (BatchProcess.Status (bp st))
    :: (if bool_decide (completed st + 1 = total st) then [shown "completed"] else []).
Proof.
  intros Hc Ht. unfold collectStep.
  pose proof (updateJob_frame (bp st) job) as Hu.
  destruct (updateJob (bp st) job) as [b1 tr1] eqn:Hupd.
  destruct Hu as (Hid & Hst & Hpr & Het & Hcl & Hlen & Hclose).
  assert (Hnone : updates tr1 = []).
  { unfold updateJob in Hupd.
    destruct (findJob (BatchProcess.Jobs (bp st)) job); by injection Hupd as <- <-. }
  assert (Hadd : GoInt.add (completed st) 1 = completed st + 1).
  { apply add_small. unfold GoInt.min_int, GoInt.max_int in *. lia. }
  assert (Hmul : GoInt.mul (completed st + 1) 100 = (completed st + 1) * 100).
  { apply mul_small. unfold GoInt.min_int, GoInt.max_int in *. lia. }
  assert (Hdiv : GoInt.div ((completed st + 1) * 100) (total st)
                 = ((completed st + 1) * 100) `div` total st).
  { apply div_small; unfold GoInt.max_int in *; lia. }
  rewrite Hadd, Hmul, Hdiv. case_bool_decide as Hfin; cbn [trace bp].
  - rewrite !updates_app, !updates_cons, !updates_notifyClients, Hnone. simpl.
    rewrite <- app_assoc. simpl. by rewrite Hid, Hst.
  - rewrite !updates_app, !updates_cons, !updates_notifyClients, Hnone. simpl.
    by rewrite Hid, Hst.
Qed.

Lemma collect_updates (b : BatchProcess.t) (now : Z) (rs : list BatchJob.t) :
  let N := length (BatchProcess.Jobs b) in
  (1 ≤ N)%nat →
  Z.of_nat N * 100 ≤ GoInt.max_int →
  (length rs ≤ N)%nat →
  let after (k : nat) := collect now (startCollector b) (take k rs) in
  let shown (status : string) (k : nat) :=
    {| update_id := BatchProcess.ID b; update_status := status;
       update_progress := (100 * Z.of_nat k) `div` Z.of_nat N;
       update_jobs := BatchProcess.Jobs (bp (after k)) |} in
  updates (trace (collect now (startCollector b) rs)) =
  (shown "processing" <$> seq 1 (length rs))
  ++ (if bool_decide (length rs = N) then [shown "completed" N] else []).
Proof.
  intros N HN Hmax. induction rs as [|r rs IH] using rev_ind; intros Hlen after shown.
  - simpl. rewrite bool_decide_eq_false_2 by (simpl; lia). done.
  - rewrite length_app in Hlen. simpl in Hlen.
    specialize (IH ltac:(lia)). simpl in IH.
    rewrite bool_decide_eq_false_2, app_nil_r in IH by lia.
    pose proof (collect_spec now (startCollector b) rs) as Hc.
    simpl in Hc. unfold GoInt.len in Hc. fold N in Hc.
    destruct Hc as (Hcmp & Htot & Hid & _ & _ & Hbefore & _); [lia | lia | exact Hmax |].
    destruct Hbefore as (Hst & _ & _); [lia|].
    rewrite collect_snoc.
    rewrite collectStep_updates by (rewrite ?Hcmp, ?Htot; first [lia | exact Hmax]).
    rewrite Hcmp, Htot, Hid, Hst, IH. simpl.
    rewrite length_app. simpl. rewrite seq_app, fmap_app. simpl.
    rewrite <- app_assoc. f_equal.
    + apply list_fmap_ext. intros i k Hk. unfold shown, after.
      apply lookup_seq in Hk as [-> Hi]. by rewrite take_app_le by lia.
    + unfold shown, after. rewrite <- collect_snoc.
      rewrite (take_ge (rs ++ [r])) by (rewrite length_app; simpl; lia).
      replace ((0 + Z.of_nat (length rs) + 1) * 100)
        with (100 * Z.of_nat (1 + length rs)) by lia.
      simpl. f_equal.
      destruct (decide (length rs + 1 = N)%nat) as [Heq|Hne].
      * rewrite !bool_decide_eq_true_2 by lia.
        rewrite <- Heq, take_ge by (rewrite length_app; simpl; lia).
        do 2 f_equal. f_equal; lia.
      * by rewrite !bool_decide_eq_false_2 by lia.
Qed.

(** X12. What the observers of a batch of [N >= 1] jobs are shown,
    whatever the workers do and in whatever order the results arrive:
    [notifyClients] builds exactly [N + 1] updates.  The [k]-th of the
    first [N] shows the status processing, the progress
    [floor (100 * k / N)] and the job list as it is after [k] results;
    the last one shows the status completed, the progress 100 and the
    final job list.  The progress shown never decreases. *)
Theorem observers_see_every_result `{ManagerLib}
    (b : BatchProcess.t) (sched : list nat) (now : Z) (w : World) :
  let N := length (BatchProcess.Jobs b) in
  (1 ≤ N)%nat →
  Z.of_nat N < 2 ^ 48 →
  sched ≡ₚ seq 0 N →
  let results := (runWorkers (BatchProcess.Jobs b) sched w).1 in
  let after (k : nat) := collect now (startCollector b) (take k results) in
  let fin := (startProcessing b sched now w).1 in
  updates (trace fin) =
    ((λ k, {| update_id := BatchProcess.ID b; update_status := "processing";
              update_progress := (100 * Z.of_nat k) `div` Z.of_nat N;
              update_jobs := BatchProcess.Jobs (bp (after k)) |}) <$> seq 1 N)
    ++ [{| update_id := BatchProcess.ID b; update_status := "completed";
           update_progress := 100; update_jobs := BatchProcess.Jobs (bp fin) |}]
  ∧ ∀ i j u v, (i ≤ j)%nat →
      updates (trace fin) !! i = Some u → updates (trace fin) !! j = Some v →
      update_progress u ≤ update_progress v.
Proof.
  intros N HN Hbound Hperm results after fin.
  assert (Hlen : length results = N).
  { unfold results. rewrite runWorkers_length.
    - rewrite Hperm. apply length_seq.
    - rewrite Hperm. apply Forall_forall. intros i Hi. apply elem_of_seq in Hi. lia. }
  assert (Hfin : fin = collect now (startCollector b) results).
  { unfold fin, results, startProcessing. simpl.
    by destruct (runWorkers (BatchProcess.Jobs b) sched w). }
  assert (Hmax : Z.of_nat N * 100 ≤ GoInt.max_int) by (unfold GoInt.max_int; lia).
  assert (Hupd := collect_updates b now results HN Hmax ltac:(lia)).
  simpl in Hupd. rewrite Hlen, bool_decide_eq_true_2 in Hupd by done.
  rewrite <- Hfin in Hupd. fold N in Hupd.
  replace (take N results) with results in Hupd by (by rewrite take_ge by lia).
  rewrite <- Hfin in Hupd.
  replace ((100 * Z.of_nat N) `div` Z.of_nat N) with 100 in Hupd
    by (apply Z.div_unique_exact; lia).
  split; [exact Hupd|].
  assert (Hval : ∀ i u, updates (trace fin) !! i = Some u →
            (i ≤ N)%nat ∧ update_progress u = (100 * Z.of_nat (Nat.min (S i) N)) `div` Z.of_nat N).
  { intros i u. rewrite Hupd. intros Hi.
    apply lookup_app_Some in Hi as [Hi|[Hge Hi]].
    - rewrite list_lookup_fmap in Hi. destruct (seq 1 N !! i) as [k|] eqn:Hk; [|done].
      apply lookup_seq in Hk as [-> Hlt]. injection Hi as <-. cbn [update_progress].
      split; [lia|]. do 2 f_equal. lia.
    - rewrite length_fmap, length_seq in Hge, Hi.
      destruct (i - N)%nat eqn:Hd; [|by destruct n]. injection Hi as <-.
      cbn [update_progress]. split; [lia|]. replace (Nat.min (S i) N) with N by lia.
      apply Z.div_unique_exact; lia. }
  intros i j u v Hij Hu Hv.
  destruct (Hval i u Hu) as [_ ->]. destruct (Hval j v Hv) as [_ ->].
  apply Z.div_le_mono; lia.
Qed.

End CollectorMore.

(** ** The requests of [parseWithGemini] and what it returns *)

Section ChunkRequests.
Import Parser MergeNotions ParseNotions.
Context `{GoStrings} `{JSON}.
Variable rangeOrder : gmap string value → list (string * value).

(** Induction three chunks at a time. *)
Lemma chunks_ind (P : list string → Prop) :
  P [] → (∀ a, P [a]) → (∀ a b, P [a; b]) →
  (∀ a b c rest, P rest → P (a :: b :: c :: rest)) →
  ∀ l, P l.
Proof.
  intros Hnil Hone Htwo Hthree l.
  assert (Hall : ∀ n l, (length l ≤ n)%nat → P l).
  { clear l. induction n as [|n IH]; intros l Hl.
    - destruct l; [done | simpl in Hl; lia].
    - destruct l as [|a [|b [|c rest]]]; try done.
      apply Hthree, IH. simpl in Hl. lia. }
  by apply (Hall (length l)).
Qed.

Lemma chunkGroups_cons3 (a b c : string) (rest : list string) :
  chunkGroups (a :: b :: c :: rest) = [a; b; c] :: chunkGroups rest.
Proof. done. Qed.

Lemma chunkGroups_concat (domChunks : list string) :
  concat (chunkGroups domChunks) = domChunks.
Proof.
  induction domChunks as [| | |a b c rest IH] using chunks_ind; try done.
  rewrite chunkGroups_cons3. cbn [concat app]. by rewrite IH.
Qed.

Lemma chunkGroups_length (domChunks : list string) :
  length (chunkGroups domChunks) = ((length domChunks + 2) `div` 3)%nat.
Proof.
  induction domChunks as [| | |a b c rest IH] using chunks_ind; try done.
  rewrite chunkGroups_cons3. cbn [length]. rewrite IH.
  replace (S (S (S (length rest))) + 2)%nat with ((length rest + 2) + 1 * 3)%nat by lia.
  rewrite Nat.div_add by lia. lia.
Qed.

Lemma chunkGroups_sizes (domChunks : list string) (i : nat) (g : list string) :
  chunkGroups domChunks !! i = Some g →
  (1 ≤ length g ≤ 3)%nat
  ∧ ((S i < length (chunkGroups domChunks))%nat → length g = 3%nat).
Proof.
  revert i. induction domChunks as [| | |a b c rest IH] using chunks_ind; intros i Hg.
  - done.
  - destruct i; [|done]. injection Hg as <-. simpl. lia.
  - destruct i; [|done]. injection Hg as <-. simpl. lia.
  - rewrite chunkGroups_cons3 in *. destruct i as [|i].
    + injection Hg as <-. simpl. lia.
    + destruct (IH i Hg) as [Hsz Hfull]. split; [done|].
      intros Hlt. apply Hfull. simpl in Hlt. lia.
Qed.

(** The loop makes its requests one after the other and stops at the
    first that it cannot use. *)
Lemma groupLoop_calls (p : UnifiedParser) (isProductInfo : bool) (parseDescription : string)
    (groups : list (list string)) (call : nat) (foundResults : list found) :
  let out := groupLoop p isProductInfo parseDescription groups call foundResults in
  (call ≤ out.2 ≤ call + length groups)%nat
  ∧ (∀ fr, out.1 = Ret fr → out.2 = (call + length groups)%nat)
  ∧ (groups ≠ [] → (call < out.2)%nat).
Proof.
  revert call foundResults. induction groups as [|g groups IH]; intros call foundResults.
  - simpl. split_and!; [lia | lia | intros; lia | done].
  - cbn [groupLoop length].
    destruct (client p call (ModelName p) (promptFor p (Strings.Join g " ") parseDescription))
      as [[|content others]|e]; cbn [fst snd].
    + split_and!; [lia | lia | done | intros; lia].
    + destruct (classify isProductInfo content) as [[f|]|e|msg]; cbn [fst snd].
      * destruct (IH (S call) (foundResults ++ [f])) as ((Hlo & Hhi) & Hret & _).
        split_and!; [lia | lia | | intros; lia].
        intros fr Hfr. rewrite (Hret fr Hfr). lia.
      * destruct (IH (S call) foundResults) as ((Hlo & Hhi) & Hret & _).
        split_and!; [lia | lia | | intros; lia].
        intros fr Hfr. rewrite (Hret fr Hfr). lia.
      * split_and!; [lia | lia | done | intros; lia].
      * split_and!; [lia | lia | done | intros; lia].
    + split_and!; [lia | lia | done | intros; lia].
Qed.

(** X13. [parseWithGemini] cuts the chunks, in their order, into groups
    of three, the last group holding the one or two chunks left over, so
    into [ceil (n / 3)] groups for [n] chunks.  It never makes more
    requests than there are groups; it makes none when the semaphore
    cannot be acquired, at least one when it is acquired and there is a
    chunk, and exactly one for every group whenever it returns without
    error. *)
Theorem parseWithGemini_request_count (p : UnifiedParser) (domChunks : list string)
    (parseDescription : string) :
  let groups := chunkGroups domChunks in
  let out := parseWithGemini rangeOrder p domChunks parseDescription in
  concat groups = domChunks
  ∧ length groups = ((length domChunks + 2) `div` 3)%nat
  ∧ (∀ i g, groups !! i = Some g →
       (1 ≤ length g ≤ 3)%nat ∧ ((S i < length groups)%nat → length g = 3%nat))
  ∧ (out.2 ≤ length groups)%nat
  ∧ (∀ e, sem p = Some e →
       out = (Fail ("failed to acquire semaphore: " +:+ e), O))
  ∧ (sem p = None → domChunks ≠ [] → (1 ≤ out.2)%nat)
  ∧ (∀ r, out.1 = Ret r → out.2 = length groups).
Proof.
  intros groups out. split_and!.
  - apply chunkGroups_concat.
  - apply chunkGroups_length.
  - intros i g. apply chunkGroups_sizes.
  - unfold out, parseWithGemini. destruct (sem p); [simpl; lia|].
    pose proof (groupLoop_calls p (containsAny (strings_ToLower parseDescription)
                  ["extract product"; "product information"; "product details"])
                  parseDescription groups O []) as ((_ & Hhi) & _).
    fold groups. simpl in Hhi.
    destruct (groupLoop _ _ _ groups O []) as [[fr|e|msg] calls]; simpl in *; try lia.
    case_bool_decide; [done|]. by repeat case_match.
  - intros e He. unfold out, parseWithGemini. by rewrite He.
  - intros Hsem Hne. unfold out, parseWithGemini. rewrite Hsem.
    pose proof (groupLoop_calls p (containsAny (strings_ToLower parseDescription)
                  ["extract product"; "product information"; "product details"])
                  parseDescription groups O []) as (_ & _ & Hpos).
    fold groups.
    assert (Hg : groups ≠ []).
    { intros Hnil. apply Hne. unfold groups in Hnil.
      by rewrite <- (chunkGroups_concat domChunks), Hnil. }
    specialize (Hpos Hg).
    destruct (groupLoop _ _ _ groups O []) as [[fr|e|msg] calls]; simpl in *; try lia.
    case_bool_decide; [simpl; lia|]. repeat case_match; simpl; lia.
  - intros r. unfold out, parseWithGemini. destruct (sem p); [done|].
    pose proof (groupLoop_calls p (containsAny (strings_ToLower parseDescription)
                  ["extract product"; "product information"; "product details"])
                  parseDescription groups O []) as (_ & Hret & _).
    fold groups.
    destruct (groupLoop _ _ _ groups O []) as [[fr|e|msg] calls]; simpl in *; try done.
    specialize (Hret fr eq_refl). intros _. 
    case_bool_decide; [done|]. by repeat case_match.
Qed.

End ChunkRequests.

Section ParseResults.
Import Parser MergeNotions ParseNotions.
Context `{GoStrings} `{JSON}.
Variable rangeOrder : gmap string value → list (string * value).
Hypothesis rangeOrder_enumerates : ∀ m, rangeOrder m ≡ₚ map_to_list m.

(** When every group is answered and every answer classified, the loop
    keeps what [classify] keeps, in the order of the groups. *)
Lemma groupLoop_kept (p : UnifiedParser) (isProductInfo : bool) (parseDescription : string)
    (groups : list (list string)) (call : nat) (foundResults : list found)
    (answers : list string) (keep : string → option found) :
  length answers = length groups →
  (∀ i g c, groups !! i = Some g → answers !! i = Some c →
     ∃ others, client p (call + i) (ModelName p)
                 (promptFor p (Strings.Join g " ") parseDescription) = Ok (c :: others)) →
  (∀ c, c ∈ answers → classify isProductInfo c = Ret (keep c)) →
  groupLoop p isProductInfo parseDescription groups call foundResults
  = (Ret (foundResults ++ omap keep answers), (call + length groups)%nat).
Proof.
  revert call foundResults answers.
  induction groups as [|g groups IH]; intros call foundResults answers Hlen Hans Hkeep.
  - destruct answers; [|done]. simpl. by rewrite app_nil_r, Nat.add_0_r.
  - destruct answers as [|c answers]; [done|]. injection Hlen as Hlen.
    destruct (Hans O g c eq_refl eq_refl) as [others Hcall]. rewrite Nat.add_0_r in Hcall.
    cbn [groupLoop]. rewrite Hcall, (Hkeep c) by by left.
    assert (Hnext : ∀ found', groupLoop p isProductInfo parseDescription groups (S call) found'
                      = (Ret (found' ++ omap keep answers), (call + S (length groups))%nat)).
    { intros found'. rewrite (IH (S call) found' answers Hlen).
      - f_equal. lia.
      - intros i g' c' Hg' Hc'. destruct (Hans (S i) g' c' Hg' Hc') as [o Ho].
        exists o. by rewrite <- Ho, Nat.add_succ_comm.
      - intros c' Hc'. apply Hkeep. by right. }
    cbn [omap list_omap length]. destruct (keep c) as [f|].
    + by rewrite Hnext, <- app_assoc.
    + apply Hnext.
Qed.

Lemma classify_text (content : string) :
  classify false content = Ret (FoundText <$> keptText content).
Proof. unfold classify, keptText. by destruct (isNoResult _). Qed.

Lemma interfaceSliceToStringSlice_texts (l : list string) :
  interfaceSliceToStringSlice (FoundText <$> l) = Some l.
Proof.
  induction l as [|s l IH]; [done|].
  cbn [fmap list_fmap interfaceSliceToStringSlice]. fold (fmap FoundText l).
  by rewrite IH.
Qed.

Lemma omap_fmap_found {A} (f : A → found) (keep : string → option A) (l : list string) :
  omap (λ c, f <$> keep c) l = f <$> omap keep l.
Proof.
  induction l as [|c l IH]; [done|]. cbn [omap list_omap].
  destruct (keep c); simpl; by rewrite IH.
Qed.

(** X14. A query that does not ask for product information, when the
    semaphore is acquired and every request is answered: the result is
    the trimmed first choices of the responses that are not discarded,
    in the order of the chunk groups, joined by newlines, and the string
    NO_MATCH when all are discarded; one request is made for each group
    and the other choices of a response are ignored. *)
Theorem parseWithGemini_text (p : UnifiedParser) (domChunks : list string)
    (parseDescription : string) (answers : list string) :
  sem p = None →
  isProductQuery parseDescription = false →
  answered p parseDescription (chunkGroups domChunks) answers →
  parseWithGemini rangeOrder p domChunks parseDescription
  = (Ret (ResultText (match omap keptText answers with
                      | [] => "NO_MATCH"
                      | kept => Strings.Join kept newline
                      end)),
     length (chunkGroups domChunks)).
Proof.
  intros Hsem Hquery [Hlen Hans]. unfold parseWithGemini. rewrite Hsem.
  unfold isProductQuery in Hquery. rewrite Hquery.
  rewrite (groupLoop_kept p false parseDescription (chunkGroups domChunks) O [] answers
             (λ c, FoundText <$> keptText c) Hlen).
  - rewrite omap_fmap_found. cbn [app]. unfold GoInt.len. rewrite length_fmap.
    destruct (omap keptText answers) as [|t kept] eqn:Hkept; [done|].
    rewrite bool_decide_eq_false_2 by (simpl; lia).
    by rewrite interfaceSliceToStringSlice_texts.
  - intros i g c Hg Hc. by apply Hans.
  - intros c _. apply classify_text.
Qed.

(** *** The merged record *)

Lemma fold_absent (k : string) (records : list (gmap string value)) :
  foldl (mergeKey k) None records = None.
Proof.
  induction records as [|r records IH]; [done|]. cbn [foldl].
  replace (mergeKey k None r) with (@None value); [done|].
  unfold mergeKey, step. destruct (r !! "raw_content"); [done|].
  destruct (r !! k) as [v|]; [|done]. by destruct (isListKey k), v.
Qed.

(** [additional_info] collects the raw fragments, and nothing else. *)
Lemma combineLoop_info (records : list (gmap string value)) (c : gmap string value)
    (info : list string) :
  listsTyped c →
  rawTyped records →
  c !! "additional_info" = Some (VStrings info) →
  ∃ c', combineLoop rangeOrder (FoundRecord <$> records) c = Some c'
        ∧ c' !! "additional_info" = Some (VStrings (info ++ omap rawOf records)).
Proof.
  revert c info. induction records as [|r records IH]; intros c info Hty Hraw Hinfo.
  - exists c. by rewrite app_nil_r.
  - assert (Hraw' : rawTyped records).
    { intros r' v Hin. apply Hraw. by right. }
    cbn [fmap list_fmap combineLoop omap list_omap]. unfold rawOf at 1.
    destruct (r !! "raw_content") as [raw|] eqn:Hr.
    + destruct (Hraw r raw) as [s ->]; [by left | done |].
      rewrite Hinfo. simpl.
      destruct (IH (<["additional_info" := VStrings (info ++ [s])]> c) (info ++ [s]))
        as (c' & Hc' & Hk); [by apply listsTyped_insert_strings | done | |].
      { apply lookup_insert_eq. }
      exists c'. split; [done|]. by rewrite Hk, <- app_assoc.
    + destruct (mergeRecord_spec rangeOrder rangeOrder_enumerates r c Hty)
        as (c1 & Hc1 & Hty1 & Hstep).
      rewrite Hc1. simpl. apply IH; [done..|].
      rewrite Hstep, Hinfo. unfold step.
      destruct (r !! "additional_info") as [v|]; [|done].
      change (isListKey "additional_info") with false. by destruct v.
Qed.

Lemma dedupeStringSlice_at (m : gmap string value) (key : string) (l : list string) :
  m !! key = Some (VStrings l) →
  dedupeStringSlice m key !! key = Some (VStrings (firstSeen l)).
Proof.
  intros Hkey. unfold dedupeStringSlice. rewrite Hkey, lookup_insert_eq.
  by rewrite removeDuplicates_firstSeen.
Qed.

(** The merge computes [mergedRecord], whatever the order in which the
    entries of a record are visited. *)
Lemma combineProduct_spec (records : list (gmap string value)) :
  rawTyped records →
  combineProduct rangeOrder (FoundRecord <$> records) = Some (mergedRecord records).
Proof.
  intros Hraw.
  assert (Hty0 : listsTyped initialCombined) by (by split_and!; eexists).
  destruct (combineLoop_spec rangeOrder rangeOrder_enumerates records initialCombined Hty0 Hraw)
    as (c' & Hc' & Hty & Hfold).
  destruct (combineLoop_info records initialCombined [] Hty0 Hraw eq_refl)
    as (c'' & Hc'' & Hinfo).
  rewrite Hc' in Hc''. injection Hc'' as <-.
  unfold combineProduct. rewrite Hc'. simpl. f_equal. apply map_eq. intros k.
  destruct (decide (k = "additional_info")) as [->|Hai].
  { erewrite dedupeStringSlice_at; [done|]. by rewrite !dedupeStringSlice_other. }
  rewrite dedupeStringSlice_other by done.
  destruct (decide (k = "other_documents")) as [->|Hod].
  { erewrite dedupeStringSlice_at; [done|]. rewrite dedupeStringSlice_other by done.
    rewrite Hfold by done. by apply (fold_list "other_documents" records []). }
  rewrite dedupeStringSlice_other by done.
  destruct (decide (k = "user_manual")) as [->|Hum].
  { erewrite dedupeStringSlice_at; [done|].
    rewrite Hfold by done. by apply (fold_list "user_manual" records []). }
  rewrite dedupeStringSlice_other by done. rewrite Hfold by done.
  destruct (decide (k = "name")) as [->|Hn].
  { by apply (fold_scalar "name" records "NO_MATCH"). }
  destruct (decide (k = "model_number")) as [->|Hm].
  { by apply (fold_scalar "model_number" records "NO_MATCH"). }
  destruct (decide (k = "serial_number")) as [->|Hs].
  { by apply (fold_scalar "serial_number" records "NO_MATCH"). }
  destruct (decide (k = "warranty_info")) as [->|Hw].
  { by apply (fold_scalar "warranty_info" records "NO_MATCH"). }
  unfold initialCombined, mergedRecord.
  rewrite !lookup_insert_ne, !lookup_singleton_ne, fold_absent by done. done.
Qed.

Lemma elem_of_concat {A} (x : A) (ls : list (list A)) :
  x ∈ concat ls ↔ ∃ l, x ∈ l ∧ l ∈ ls.
Proof.
  induction ls as [|l ls IH]; simpl.
  - split; [by intros ?%elem_of_nil | by intros (? & _ & ?%elem_of_nil)].
  - rewrite elem_of_app, IH. split.
    + intros [Hx|(l' & Hx & Hl')]; [exists l; split; [done | by left]|].
      exists l'. split; [done | by right].
    + intros (l' & Hx & [->|Hl']%elem_of_cons); [by left|]. right. by exists l'.
Qed.

Lemma mergedRecord_keys (records : list (gmap string value)) (k : string) :
  is_Some (mergedRecord records !! k) ↔ k ∈ scalarKeys ++ listKeys ++ ["additional_info"].
Proof.
  unfold scalarKeys, listKeys. cbn [app]. rewrite !elem_of_cons, elem_of_nil.
  unfold mergedRecord. split.
  - intros Hsome.
    repeat match goal with
    | Hs : is_Some (<[?i := _]> _ !! k) |- _ =>
        destruct (decide (k = i)) as [->|?]; [tauto | rewrite lookup_insert_ne in Hs by done]
    end.
    destruct (decide (k = "additional_info")) as [->|?]; [tauto|].
    rewrite lookup_singleton_ne in Hsome by done. by destruct Hsome.
  - intros [->|[->|[->|[->|[->|[->|[->|[]]]]]]]]; by eexists.
Qed.

(** X15. The merge of the records of a product-information query, when
    their raw fragments are strings, is the same record whatever order
    Go ranges over the entries of a record in: the four scalar fields
    hold the first value offered, the two lists of links the strings
    offered, and additional_info the raw fragments, each list in the
    order of the groups and without repetition.  The merged record has
    these seven fields and no other: a field of a response with another
    name is dropped. *)
Theorem merged_record_is_determined (records : list (gmap string value)) :
  rawTyped records →
  combineProduct rangeOrder (FoundRecord <$> records) = Some (mergedRecord records)
  ∧ (∀ k, is_Some (mergedRecord records !! k)
          ↔ k ∈ scalarKeys ++ listKeys ++ ["additional_info"])
  ∧ (∀ k l, mergedRecord records !! k = Some (VStrings l) →
       NoDup l
       ∧ ∀ x, x ∈ l ↔ ∃ r, r ∈ records
                ∧ if bool_decide (k = "additional_info")
                  then rawOf r = Some x else x ∈ listOf k r).
Proof.
  intros Hraw. split_and!.
  - by apply combineProduct_spec.
  - apply mergedRecord_keys.
  - intros k l Hk.
    assert (Hcases : (k = "additional_info" ∧ l = firstSeen (omap rawOf records))
                     ∨ (k ≠ "additional_info"
                        ∧ l = firstSeen (concat (listOf k <$> records)))).
    { unfold mergedRecord in Hk.
      repeat match type of Hk with
      | <[?i := _]> _ !! k = _ =>
          destruct (decide (k = i)) as [->|?];
            [rewrite lookup_insert_eq in Hk; first [discriminate | injection Hk as <-; by right]
            | rewrite lookup_insert_ne in Hk by done]
      end.
      destruct (decide (k = "additional_info")) as [->|?].
      - rewrite lookup_singleton_eq in Hk. injection Hk as <-. by left.
      - by rewrite lookup_singleton_ne in Hk. }
    destruct Hcases as [[-> ->]|[Hne ->]]; (split; [apply NoDup_firstSeen|]); intros x;
      rewrite elem_of_firstSeen.
    + rewrite bool_decide_eq_true_2 by done. rewrite list_elem_of_omap.
      split; intros (r & ? & ?); by exists r.
    + rewrite bool_decide_eq_false_2 by done. rewrite elem_of_concat.
      split.
      * intros (xs & Hx & Hxs). apply list_elem_of_fmap in Hxs as (r & -> & Hr). by exists r.
      * intros (r & Hr & Hx). exists (listOf k r). split; [done|].
        apply list_elem_of_fmap. by exists r.
Qed.

(** *** A product-information query, from the responses *)

Lemma ensureKeyExists_other (m : gmap string value) (key k : string) (d : value) :
  k ≠ key → ensureKeyExists m key d !! k = m !! k.
Proof.
  intros Hne. unfold ensureKeyExists. destruct (m !! key); [done|].
  by rewrite lookup_insert_ne.
Qed.

Lemma promoteString_other (m : gmap string value) (key k : string) :
  k ≠ key → promoteString m key !! k = m !! k.
Proof.
  intros Hne. unfold promoteString. destruct (m !! key) as [[]|]; try done.
  case_bool_decide; [|done]. by rewrite lookup_insert_ne.
Qed.

Lemma backfill_raw (m : gmap string value) :
  backfill m !! "raw_content" = m !! "raw_content".
Proof.
  unfold backfill. cbn [foldl].
  by rewrite !promoteString_other, !ensureKeyExists_other by done.
Qed.

Lemma classify_product (content : string) :
  ¬ decodesToNull content →
  classify true content = Ret (FoundRecord <$> keptRecord content).
Proof.
  unfold decodesToNull, classify, keptRecord. intros Hnull.
  destruct (isNoResult (strings_TrimSpace content)); [done|].
  destruct (json_Unmarshal_map (strings_TrimSpace content)) as [[m|]|e]; try done.
  by destruct Hnull.
Qed.

Lemma keptRecord_rawTyped (answers : list string) :
  (∀ c m v, c ∈ answers → json_Unmarshal_map (strings_TrimSpace c) = Ok (Some m) →
     m !! "raw_content" = Some v → ∃ s, v = VString s) →
  rawTyped (omap keptRecord answers).
Proof.
  intros Hraw r v Hr Hv. apply list_elem_of_omap in Hr as (c & Hc & Hkept).
  unfold keptRecord in Hkept.
  destruct (isNoResult (strings_TrimSpace c)); [done|].
  destruct (json_Unmarshal_map (strings_TrimSpace c)) as [[m|]|e] eqn:Hjson; try done.
  - injection Hkept as <-. rewrite backfill_raw in Hv. by eapply Hraw.
  - injection Hkept as <-. rewrite lookup_singleton_eq in Hv. injection Hv as <-. by eexists.
Qed.

(** X16. A product-information query, when the semaphore is acquired
    and every request is answered by a response that is discarded, that
    is not JSON, or that is a JSON object (whose raw_content, if it has
    one, is a string): one request is made for each chunk group, and the
    result is the string NO_MATCH when every response is discarded, and
    otherwise the merged record of the records kept, in the order of the
    groups.  In particular a response that is not JSON is not an error:
    its trimmed text is found in additional_info. *)
Theorem parseWithGemini_product (p : UnifiedParser) (domChunks : list string)
    (parseDescription : string) (answers : list string) :
  sem p = None →
  isProductQuery parseDescription = true →
  answered p parseDescription (chunkGroups domChunks) answers →
  (∀ c, c ∈ answers → ¬ decodesToNull c) →
  (∀ c m v, c ∈ answers → json_Unmarshal_map (strings_TrimSpace c) = Ok (Some m) →
     m !! "raw_content" = Some v → ∃ s, v = VString s) →
  parseWithGemini rangeOrder p domChunks parseDescription
  = (Ret (match omap keptRecord answers with
          | [] => ResultText "NO_MATCH"
          | records => ResultRecord (mergedRecord records)
          end),
     length (chunkGroups domChunks))
  ∧ ∀ c e, c ∈ answers →
      isNoResult (strings_TrimSpace c) = false →
      json_Unmarshal_map (strings_TrimSpace c) = Err e →
      ∃ info, mergedRecord (omap keptRecord answers) !! "additional_info"
              = Some (VStrings info)
              ∧ strings_TrimSpace c ∈ info.
Proof.
  intros Hsem Hquery [Hlen Hans] Hnull Hraw. split.
  - unfold parseWithGemini. rewrite Hsem.
    unfold isProductQuery in Hquery. rewrite Hquery.
    rewrite (groupLoop_kept p true parseDescription (chunkGroups domChunks) O [] answers
               (λ c, FoundRecord <$> keptRecord c) Hlen).
    + rewrite omap_fmap_found. cbn [app]. unfold GoInt.len. rewrite length_fmap.
      pose proof (keptRecord_rawTyped answers Hraw) as Hty.
      destruct (omap keptRecord answers) as [|r records] eqn:Hkept; [done|].
      rewrite bool_decide_eq_false_2 by (simpl; lia).
      by rewrite (combineProduct_spec (r :: records) Hty).
    + intros i g c Hg Hc. by apply Hans.
    + intros c Hc. apply classify_product. by apply Hnull.
  - intros c e Hc Hkeep Hjson. eexists. split; [reflexivity|].
    apply elem_of_firstSeen. apply list_elem_of_omap.
    exists {[ "raw_content" := VString (strings_TrimSpace c) ]}. split; [|done].
    apply list_elem_of_omap. exists c. split; [done|].
    unfold keptRecord. by rewrite Hkeep, Hjson.
Qed.

(** *** Responses that make [parseWithGemini] panic *)

Lemma classify_ret (isProductInfo : bool) (content : string) :
  ¬ (isProductInfo = true ∧ decodesToNull content) →
  ∃ kept, classify isProductInfo content = Ret kept.
Proof.
  unfold decodesToNull, classify. intros Hnull.
  destruct (isNoResult (strings_TrimSpace content)); [by eexists|].
  destruct isProductInfo; [|by eexists].
  destruct (json_Unmarshal_map (strings_TrimSpace content)) as [[m|]|e]; try by eexists.
  by destruct Hnull.
Qed.

(** The loop up to a group, when the groups before it are answered by
    responses that it can classify. *)
Lemma groupLoop_skip (p : UnifiedParser) (isProductInfo : bool) (parseDescription : string)
    (i : nat) (groups : list (list string)) (call : nat) (foundResults : list found) :
  (i ≤ length groups)%nat →
  (∀ j gj, (j < i)%nat → groups !! j = Some gj →
     ∃ content others,
       client p (call + j) (ModelName p)
         (promptFor p (Strings.Join gj " ") parseDescription) = Ok (content :: others)
       ∧ ¬ (isProductInfo = true ∧ decodesToNull content)) →
  ∃ found', groupLoop p isProductInfo parseDescription groups call foundResults
            = groupLoop p isProductInfo parseDescription (drop i groups) (call + i)%nat found'.
Proof.
  revert groups call foundResults.
  induction i as [|i IH]; intros groups call foundResults Hi Hbefore.
  - exists foundResults. by rewrite drop_0, Nat.add_0_r.
  - destruct groups as [|g0 groups]; [simpl in Hi; lia|]. simpl in Hi.
    destruct (Hbefore O g0) as (content & others & Hcall & Hnull); [lia | done |].
    rewrite Nat.add_0_r in Hcall. destruct (classify_ret _ _ Hnull) as [kept Hkept].
    cbn [groupLoop drop]. rewrite Hcall, Hkept.
    assert (Hnext : ∀ found0, ∃ found',
              groupLoop p isProductInfo parseDescription groups (S call) found0
              = groupLoop p isProductInfo parseDescription (drop i groups) (call + S i)%nat found').
    { intros found0. destruct (IH groups (S call) found0) as [found' Hfound'].
      - lia.
      - intros j gj Hj Hgj. destruct (Hbefore (S j) gj) as (c & o & Hc & Hn); [lia | done |].
        exists c, o. split; [|done]. by rewrite <- Hc, Nat.add_succ_comm.
      - exists found'. rewrite Hfound'. f_equal. lia. }
    destruct kept; apply Hnext.
Qed.

(** X17. Two responses that [parseWithGemini] does not survive: when the
    groups before group [i] are answered by responses it can classify,
    a response for group [i] that has no choice at all makes it panic,
    and so does, for a product-information query, a first choice that
    is the JSON null (and is not discarded).  In both cases the
    requests for the later groups are never made. *)
Theorem parseWithGemini_unusable_response (p : UnifiedParser) (domChunks : list string)
    (parseDescription : string) (i : nat) (g : list string) (choices : list string) :
  sem p = None →
  chunkGroups domChunks !! i = Some g →
  (∀ j gj, (j < i)%nat → chunkGroups domChunks !! j = Some gj →
     ∃ content others,
       client p j (ModelName p)
         (promptFor p (Strings.Join gj " ") parseDescription) = Ok (content :: others)
       ∧ ¬ (isProductQuery parseDescription = true ∧ decodesToNull content)) →
  client p i (ModelName p) (promptFor p (Strings.Join g " ") parseDescription) = Ok choices →
  (choices = []
   ∨ ∃ content others, choices = content :: others
       ∧ isProductQuery parseDescription = true ∧ decodesToNull content) →
  ∃ msg, parseWithGemini rangeOrder p domChunks parseDescription = (Panic msg, S i).
Proof.
  intros Hsem Hg Hbefore Hcall Hbad. unfold parseWithGemini. rewrite Hsem.
  fold (isProductQuery parseDescription).
  assert (Hi : (i ≤ length (chunkGroups domChunks))%nat).
  { apply lookup_lt_Some in Hg. lia. }
  destruct (groupLoop_skip p (isProductQuery parseDescription) parseDescription i
              (chunkGroups domChunks) O [] Hi Hbefore) as [found' ->].
  rewrite (drop_S _ _ _ Hg). cbn [groupLoop]. simpl. rewrite Hcall.
  destruct Hbad as [->|(content & others & -> & Hquery & Hkeep & Hnull)].
  - by eexists.
  - unfold classify. rewrite Hkeep, Hquery, Hnull. by eexists.
Qed.

(** X24. The first request that fails ends [parseWithGemini]: when the
    groups before group [i] are answered by responses it can classify
    and the request for group [i] fails, the result is the error of that
    request behind the text gemini request failed, whatever the earlier
    responses held; and the requests for the later groups are never
    made. *)
Theorem parseWithGemini_first_error (p : UnifiedParser) (domChunks : list string)
    (parseDescription : string) (i : nat) (g : list string) (e : string) :
  sem p = None →
  chunkGroups domChunks !! i = Some g →
  (∀ j gj, (j < i)%nat → chunkGroups domChunks !! j = Some gj →
     ∃ content others,
       client p j (ModelName p)
         (promptFor p (Strings.Join gj " ") parseDescription) = Ok (content :: others)
       ∧ ¬ (isProductQuery parseDescription = true ∧ decodesToNull content)) →
  client p i (ModelName p) (promptFor p (Strings.Join g " ") parseDescription) = Err e →
  parseWithGemini rangeOrder p domChunks parseDescription
  = (Fail ("gemini request failed: " +:+ e), S i).
Proof.
  intros Hsem Hg Hbefore Hcall. unfold parseWithGemini. rewrite Hsem.
  fold (isProductQuery parseDescription).
  assert (Hi : (i ≤ length (chunkGroups domChunks))%nat).
  { apply lookup_lt_Some in Hg. lia. }
  destruct (groupLoop_skip p (isProductQuery parseDescription) parseDescription i
              (chunkGroups domChunks) O [] Hi Hbefore) as [found' ->].
  rewrite (drop_S _ _ _ Hg). cbn [groupLoop]. simpl. by rewrite Hcall.
Qed.

Lemma combineLoop_app (l1 l2 : list found) (c : gmap string value) :
  combineLoop rangeOrder (l1 ++ l2) c
  = combineLoop rangeOrder l1 c ≫= combineLoop rangeOrder l2.
Proof.
  revert c. induction l1 as [|f l1 IH]; intros c; [done|].
  cbn [app combineLoop]. destruct f as [t|r]; [done|].
  destruct (r !! "raw_content") as [raw|].
  - destruct (assertStrings (c !! "additional_info")) as [info|]; [|done].
    by destruct raw.
  - destruct (mergeEntries (rangeOrder r) c) as [c1|]; [|done]. simpl. apply IH.
Qed.

(** X18. A product-information query answered, among responses that
    are kept, by a JSON object whose raw_content is not a string (a
    number, a list, null): the object is taken for a raw fragment and
    the merge panics on it, after one request for each group. *)
Theorem parseWithGemini_raw_content_not_a_string (p : UnifiedParser) (domChunks : list string)
    (parseDescription : string) (before after : list string) (c : string)
    (m : gmap string value) (v : value) :
  sem p = None →
  isProductQuery parseDescription = true →
  answered p parseDescription (chunkGroups domChunks) (before ++ c :: after) →
  (∀ c', c' ∈ before ++ c :: after → ¬ decodesToNull c') →
  (∀ c' m' v', c' ∈ before → json_Unmarshal_map (strings_TrimSpace c') = Ok (Some m') →
     m' !! "raw_content" = Some v' → ∃ s, v' = VString s) →
  isNoResult (strings_TrimSpace c) = false →
  json_Unmarshal_map (strings_TrimSpace c) = Ok (Some m) →
  m !! "raw_content" = Some v →
  (∀ s, v ≠ VString s) →
  parseWithGemini rangeOrder p domChunks parseDescription
  = (Panic "interface conversion", length (chunkGroups domChunks)).
Proof.
  intros Hsem Hquery [Hlen Hans] Hnull Hraw Hkeep Hjson Hv Hnot.
  unfold parseWithGemini. rewrite Hsem.
  unfold isProductQuery in Hquery. rewrite Hquery.
  rewrite (groupLoop_kept p true parseDescription (chunkGroups domChunks) O []
             (before ++ c :: after) (λ c, FoundRecord <$> keptRecord c) Hlen).
  - rewrite omap_fmap_found, omap_app. cbn [app omap list_omap].
    assert (Hc : keptRecord c = Some (backfill m)).
    { unfold keptRecord. by rewrite Hkeep, Hjson. }
    rewrite Hc. cbn [mbind option_bind]. rewrite fmap_app. cbn [fmap list_fmap].
    rewrite bool_decide_eq_false_2.
    2:{ unfold GoInt.len. rewrite length_app. simpl. lia. }
    unfold combineProduct. rewrite combineLoop_app.
    assert (Hty0 : listsTyped initialCombined) by (by split_and!; eexists).
    destruct (combineLoop_spec rangeOrder rangeOrder_enumerates (omap keptRecord before)
                initialCombined Hty0 (keptRecord_rawTyped before Hraw))
      as (c1 & -> & Hty1 & _).
    cbn [mbind option_bind combineLoop]. rewrite backfill_raw, Hv.
    destruct (assertStrings (c1 !! "additional_info")); [|done].
    destruct v; try done. by destruct (Hnot s).
  - intros i g c' Hg Hc'. by apply Hans.
  - intros c' Hc'. apply classify_product. by apply Hnull.
Qed.

End ParseResults.

(** ** The walks over a parsed page *)

Section LinkProperties.
Import Parser MergeNotions Links LinksNotions.
Context `{GoStrings} `{Html} `{Url}.

Lemma Node_forall_ind (P : Node → Prop) :
  (∀ type Data Attr children, Forall P children → P (mkNode type Data Attr children)) →
  ∀ n, P n.
Proof.
  intros Hnode. fix IH 1. intros [type Data Attr children]. apply Hnode.
  induction children as [|c children IHc]; constructor; [apply IH | exact IHc].
Qed.

(** [preprocessContent] collects the texts of the nodes in document
    order. *)
Lemma walkText_spec (n : Node) (texts : list string) :
  walkText n texts = texts ++ omap textOf (nodesOf n).
Proof.
  revert texts. induction n as [type Data Attr children IH] using Node_forall_ind.
  intros texts. cbn [walkText nodesOf omap list_omap]. unfold textOf at 1.
  cbn [typeOf dataOf].
  set (texts1 := if is_text type && bool_decide (strings_TrimSpace Data ≠ "")
                 then texts ++ [strings_TrimSpace Data] else texts).
  assert (Hsib : ∀ acc,
    (fix siblings (cs : list Node) (texts : list string) : list string :=
       match cs with
       | [] => texts
       | c :: rest => siblings rest (walkText c texts)
       end) children acc
    = acc ++ omap textOf
        ((fix siblings (cs : list Node) : list Node :=
            match cs with
            | [] => []
            | c :: rest => nodesOf c ++ siblings rest
            end) children)).
  { induction IH as [|c cs Hc _ IHcs]; intros acc.
    - by rewrite app_nil_r.
    - rewrite IHcs, Hc, omap_app. by rewrite <- app_assoc. }
  rewrite Hsib. unfold texts1.
  destruct (is_text type && bool_decide (strings_TrimSpace Data ≠ "")); [|done].
  by rewrite <- app_assoc.
Qed.

(** X19. [preprocessContent] returns the texts of the text nodes of the
    parsed page in document order, each trimmed, leaving out the blank
    ones; nothing comes from elements, comments or attributes, no chunk
    is empty, and a page that cannot be parsed gives no chunk.  So
    [parseWebsite], which passes these chunks to [parseWithGemini], has
    one chunk group for every three text nodes that are not blank. *)
Theorem preprocessContent_texts (htmlContent : string) :
  (∀ doc, html_Parse htmlContent = Ok doc →
     preprocessContent htmlContent = omap textOf (nodesOf doc)
     ∧ length (chunkGroups (preprocessContent htmlContent))
       = ((length (omap textOf (nodesOf doc)) + 2) `div` 3)%nat)
  ∧ (∀ e, html_Parse htmlContent = Err e → preprocessContent htmlContent = [])
  ∧ (∀ t, t ∈ preprocessContent htmlContent →
       t ≠ "" ∧ ∃ doc n, html_Parse htmlContent = Ok doc ∧ n ∈ nodesOf doc
                         ∧ typeOf n = TextNode ∧ t = strings_TrimSpace (dataOf n)).
Proof.
  unfold preprocessContent. split_and!.
  - intros doc ->. rewrite walkText_spec. cbn [app]. split; [done|].
    apply chunkGroups_length.
  - by intros e ->.
  - intros t. destruct (html_Parse htmlContent) as [doc|e]; [|by intros ?%elem_of_nil].
    rewrite walkText_spec. cbn [app]. intros (n & Hn & Ht)%list_elem_of_omap.
    unfold textOf in Ht.
    destruct (is_text (typeOf n)) eqn:Hty; [|done].
    case_bool_decide as Hblank; [|done]. injection Ht as <-.
    split; [done|]. exists doc, n. split_and!; try done. by destruct (typeOf n).
Qed.

(** *** [findPdfLinks] *)

Lemma hasSuffix_allowed (s : string) :
  hasSuffix s allowedExtensions = true
  ↔ strings_HasSuffix (strings_ToLower s) (strings_ToLower ".pdf") = true
    ∨ strings_HasSuffix (strings_ToLower s) (strings_ToLower ".docx") = true.
Proof.
  unfold hasSuffix, allowedExtensions. cbn [hasSuffix_loop].
  destruct (strings_HasSuffix (strings_ToLower s) (strings_ToLower ".pdf")); [tauto|].
  destruct (strings_HasSuffix (strings_ToLower s) (strings_ToLower ".docx")); [tauto|].
  split; [done | by intros [?|?]].
Qed.

(** One attribute adds the link it stands for, or nothing. *)
Lemma attrLoop_step (baseURL : string) (a : Attribute) :
  (∃ link, (∀ rest links, attrLoop baseURL (a :: rest) links
                          = attrLoop baseURL rest (links ++ [link]))
           ∧ ∀ l, linked baseURL a l ↔ l = link)
  ∨ ((∀ rest links, attrLoop baseURL (a :: rest) links = attrLoop baseURL rest links)
     ∧ ∀ l, ¬ linked baseURL a l).
Proof.
  unfold linked. cbn [attrLoop].
  case_bool_decide as Hkey; [|right; split; [done | by intros l (? & _)]].
  case_bool_decide as Hne; [|right; split; [done | by intros l (_ & ? & _)]].
  destruct (Strings.HasPrefix (strings_TrimSpace (Val a)) "#") eqn:Hhash;
    [right; split; [done | by intros l (_ & _ & ? & _)]|].
  destruct (hasSuffix (strings_TrimSpace (Val a)) allowedExtensions) eqn:Hsuf.
  2:{ right. split; [done|]. intros l (_ & _ & _ & Hs & _).
      apply hasSuffix_allowed in Hs. congruence. }
  apply hasSuffix_allowed in Hsuf.
  destruct (url_Parse (strings_TrimSpace (Val a))) as [u|e] eqn:Hu.
  2:{ right. split; [done|]. by intros l (_ & _ & _ & _ & u & ? & _). }
  destruct (IsAbs u) eqn:Habs.
  - left. exists (url_String u). split; [done|]. intros l. split.
    + intros (_ & _ & _ & _ & u' & [= <-] & Hl). by rewrite Habs in Hl.
    + intros ->. split_and!; try done. exists u. by rewrite Habs.
  - destruct (url_Parse baseURL) as [base|e] eqn:Hbase.
    + left. exists (url_String (ResolveReference base u)). split; [done|]. intros l. split.
      * intros (_ & _ & _ & _ & u' & [= <-] & Hl). rewrite Habs in Hl.
        by destruct Hl as (base' & [= <-] & ->).
      * intros ->. split_and!; try done. exists u. rewrite Habs. split; [done|].
        by exists base.
    + right. split; [done|]. intros l (_ & _ & _ & _ & u' & [= <-] & Hl).
      rewrite Habs in Hl. by destruct Hl as (base' & ? & _).
Qed.

Lemma attrLoop_spec (baseURL : string) (attrs : list Attribute) (links : list string) :
  ∃ more, attrLoop baseURL attrs links = links ++ more
          ∧ ∀ link, link ∈ more ↔ ∃ a, a ∈ attrs ∧ linked baseURL a link.
Proof.
  revert links. induction attrs as [|a attrs IH]; intros links.
  - exists []. split; [by rewrite app_nil_r|]. intros link. split.
    + by intros ?%elem_of_nil.
    + by intros (a & ?%elem_of_nil & _).
  - destruct (attrLoop_step baseURL a) as [(l0 & Hstep & Hl0)|[Hstep Hnone]]; rewrite Hstep.
    + destruct (IH (links ++ [l0])) as (more & -> & Hmore).
      exists (l0 :: more). split; [by rewrite <- app_assoc|]. intros link.
      rewrite elem_of_cons, Hmore. split.
      * intros [->|(a' & Ha' & Hlink)]; [exists a; split; [by left | by apply Hl0]|].
        exists a'. split; [by right | done].
      * intros (a' & [->|Ha']%elem_of_cons & Hlink); [left; by apply Hl0|].
        right. by exists a'.
    + destruct (IH links) as (more & -> & Hmore).
      exists more. split; [done|]. intros link. rewrite Hmore. split.
      * intros (a' & Ha' & Hlink). exists a'. split; [by right | done].
      * intros (a' & [->|Ha']%elem_of_cons & Hlink); [by destruct (Hnone link)|].
        by exists a'.
Qed.

Lemma anchorAttrs_node (type : NodeType) (Data : string) (Attr : list Attribute)
    (children : list Node) :
  anchorAttrs (mkNode type Data Attr children)
  = (if is_element type && bool_decide (Data = "a") then Attr else [])
    ++ concat (anchorAttrs <$> children).
Proof.
  unfold anchorAttrs. cbn [nodesOf fmap list_fmap concat typeOf dataOf attrsOf]. f_equal.
  induction children as [|c cs IH]; [done|].
  cbn [fmap list_fmap concat]. rewrite <- IH.
  change (list_fmap ?A ?B ?f ?l) with (f <$> l). by rewrite fmap_app, concat_app.
Qed.

Lemma walkLinks_spec (baseURL : string) (n : Node) (links : list string) :
  ∃ more, walkLinks baseURL n links = links ++ more
          ∧ ∀ link, link ∈ more ↔ ∃ a, a ∈ anchorAttrs n ∧ linked baseURL a link.
Proof.
  revert links. induction n as [type Data Attr children IH] using Node_forall_ind.
  intros links. cbn [walkLinks].
  assert (Hown : ∃ own,
            (if is_element type && bool_decide (Data = "a")
             then attrLoop baseURL Attr links else links) = links ++ own
            ∧ ∀ link, link ∈ own
                ↔ ∃ a, a ∈ (if is_element type && bool_decide (Data = "a") then Attr else [])
                       ∧ linked baseURL a link).
  { destruct (is_element type && bool_decide (Data = "a")); [apply attrLoop_spec|].
    exists []. split; [by rewrite app_nil_r|]. intros link. split.
    - by intros ?%elem_of_nil.
    - by intros (a & ?%elem_of_nil & _). }
  destruct Hown as (own & -> & Hown).
  assert (Hsib : ∀ acc, ∃ more,
    (fix siblings (cs : list Node) (links : list string) : list string :=
       match cs with
       | [] => links
       | c :: rest => siblings rest (walkLinks baseURL c links)
       end) children acc = acc ++ more
    ∧ ∀ link, link ∈ more
        ↔ ∃ a, a ∈ concat (anchorAttrs <$> children) ∧ linked baseURL a link).
  { induction IH as [|c cs Hc _ IHcs]; intros acc.
    - exists []. split; [by rewrite app_nil_r|]. intros link. split.
      + by intros ?%elem_of_nil.
      + by intros (a & ?%elem_of_nil & _).
    - destruct (Hc acc) as (m1 & -> & Hm1). destruct (IHcs (acc ++ m1)) as (m2 & -> & Hm2).
      exists (m1 ++ m2). split; [by rewrite <- app_assoc|]. intros link.
      cbn [fmap list_fmap concat]. rewrite elem_of_app, Hm1, Hm2. split.
      + intros [(a & Ha & Hl)|(a & Ha & Hl)]; exists a; (split; [|done]);
          apply elem_of_app; [by left | by right].
      + intros (a & [Ha|Ha]%elem_of_app & Hl); [left | right]; by exists a. }
  destruct (Hsib (links ++ own)) as (more & -> & Hmore).
  exists (own ++ more). split; [by rewrite <- app_assoc|]. intros link.
  rewrite anchorAttrs_node, elem_of_app, Hown, Hmore. split.
  - intros [(a & Ha & Hl)|(a & Ha & Hl)]; exists a; (split; [|done]);
      apply elem_of_app; [by left | by right].
  - intros (a & [Ha|Ha]%elem_of_app & Hl); [left | right]; by exists a.
Qed.

(** X20. [findPdfLinks] on a page that parses returns, without
    repetition, exactly the addresses that the [href] attributes of the
    [a] elements of the page stand for: an [href] that, once trimmed,
    is not empty, does not start with [#], ends in .pdf or .docx
    whatever the case of its letters, and parses as a URL, gives its own
    address when it is absolute and otherwise the address it resolves to
    from the base URL of the scraper (nothing when the base URL does not
    parse).  A page without such an attribute gives no link; a page that
    cannot be parsed gives the error of the parser. *)
Theorem findPdfLinks_links (baseURL htmlContent : string) :
  (∀ doc, html_Parse htmlContent = Ok doc →
     ∃ links, findPdfLinks baseURL htmlContent = Ok links
              ∧ NoDup links
              ∧ (∀ link, link ∈ links
                   ↔ ∃ a, a ∈ anchorAttrs doc ∧ linked baseURL a link)
              ∧ ((∀ a, a ∈ anchorAttrs doc → Key a ≠ "href") → links = []))
  ∧ (∀ e, html_Parse htmlContent = Err e →
       findPdfLinks baseURL htmlContent = Err ("failed to parse HTML content: " +:+ e)).
Proof.
  unfold findPdfLinks. split.
  - intros doc ->. eexists. split; [reflexivity|].
    rewrite removeDuplicates_firstSeen.
    destruct (walkLinks_spec baseURL doc []) as (more & -> & Hmore). cbn [app].
    assert (Hin : ∀ link, link ∈ firstSeen more
                    ↔ ∃ a, a ∈ anchorAttrs doc ∧ linked baseURL a link).
    { intros link. by rewrite elem_of_firstSeen. }
    split_and!; [apply NoDup_firstSeen | exact Hin |].
    intros Hnone. destruct (firstSeen more) as [|l ls]; [done|].
    destruct (Hin l) as [Hl _]. destruct Hl as (a & Ha & Hkey & _); [by left|].
    by destruct (Hnone a).
  - by intros e ->.
Qed.

End LinkProperties.

(** ** The clients of a batch *)

Section SocketProperties.
Import Manager Notions Sockets.

Lemma findClient_fresh (clients : list chan) (updates : chan) :
  updates ∉ clients → findClient clients updates = None.
Proof.
  induction clients as [|ch clients IH]; [done|]. intros [Hne Hnot]%not_elem_of_cons.
  cbn [findClient]. rewrite bool_decide_eq_false_2 by done. by rewrite IH.
Qed.

Lemma findClient_app (before later : list chan) (updates : chan) :
  updates ∉ before →
  findClient (before ++ updates :: later) updates = Some (length before).
Proof.
  induction before as [|ch before IH]; intros Hnot.
  - cbn [app findClient length]. by rewrite bool_decide_eq_true_2.
  - apply not_elem_of_cons in Hnot as [Hne Hnot].
    cbn [app findClient length]. rewrite bool_decide_eq_false_2 by done.
    by rewrite IH.
Qed.

(** X21. The clients of a batch, as [handleWebSocket] registers and
    removes them.  A handler appends its new channel to the clients;
    from then on every [notifyClients] tries one send on each
    registered channel, in the order of registration.  When the handler
    ends, whatever handlers have registered since (and whichever of the
    earlier ones are left), its channel is taken out and the other
    clients stay, in their order; no later [notifyClients] sends on the
    removed channel, which is closed only after that.  Removing a
    channel that is not registered changes nothing, and neither
    operation touches another field of the batch. *)
Theorem clients_register_unregister (b : BatchProcess.t) (updates : chan)
    (before later : list chan) :
  updates ∉ before →
  updates ∉ later →
  sends (notifyClients (register b updates).1) = BatchProcess.clients b ++ [updates]
  ∧ (BatchProcess.clients b = before ++ updates :: later →
       BatchProcess.clients (unregister b updates).1 = before ++ later
       ∧ updates ∉ sends (notifyClients (unregister b updates).1))
  ∧ (BatchProcess.clients b = before →
       (unregister b updates).1 = b
       ∧ BatchProcess.clients (unregister (register b updates).1 updates).1 = before)
  ∧ (∀ b', b' = (register b updates).1 ∨ b' = (unregister b updates).1 →
       BatchProcess.ID b' = BatchProcess.ID b
       ∧ BatchProcess.Jobs b' = BatchProcess.Jobs b
       ∧ BatchProcess.Status b' = BatchProcess.Status b
       ∧ BatchProcess.Progress b' = BatchProcess.Progress b
       ∧ BatchProcess.StartTime b' = BatchProcess.StartTime b
       ∧ BatchProcess.EndTime b' = BatchProcess.EndTime b)
  ∧ unguarded false (register b updates).2 = []
  ∧ unguarded false (unregister b updates).2 = []
  ∧ lockHeld false (register b updates).2 = false
  ∧ lockHeld false (unregister b updates).2 = false.
Proof.
  intros Hbefore Hlater. split_and!.
  - by rewrite sends_notifyClients.
  - intros Hclients. unfold unregister.
    rewrite Hclients, findClient_app by done. cbn [fst setClients BatchProcess.clients].
    assert (Hrest : take (length before) (before ++ updates :: later)
                    ++ drop (S (length before)) (before ++ updates :: later)
                    = before ++ later).
    { rewrite take_app_length. f_equal.
      replace (before ++ updates :: later) with ((before ++ [updates]) ++ later)
        by (by rewrite <- app_assoc).
      apply drop_app_length'. rewrite length_app. simpl. lia. }
    rewrite sends_notifyClients. cbn [BatchProcess.clients]. rewrite Hrest.
    split; [done|]. by apply not_elem_of_app.
  - intros Hclients. unfold unregister at 1. rewrite Hclients, findClient_fresh by done.
    split; [done|]. unfold unregister, register. cbn [fst setClients BatchProcess.clients].
    rewrite Hclients.
    replace (before ++ [updates]) with (before ++ updates :: []) by done.
    rewrite findClient_app by done. cbn [fst BatchProcess.clients].
    rewrite take_app_length.
    replace (S (length before)) with (length (before ++ [updates]))
      by (rewrite length_app; simpl; lia).
    by rewrite drop_all, app_nil_r.
  - intros b' [->| ->]; [done|]. unfold unregister.
    by destruct (findClient (BatchProcess.clients b) updates).
  - done.
  - unfold unregister. by destruct (findClient (BatchProcess.clients b) updates).
  - done.
  - unfold unregister. by destruct (findClient (BatchProcess.clients b) updates).
Qed.

End SocketProperties.

(** ** Removing duplicates *)

Section Deduplication.
Import Parser MergeNotions.

Lemma firstSeen_sublist (l : list string) : firstSeen l `sublist_of` l.
Proof.
  induction l as [|x l IH]; [constructor|]. cbn [firstSeen].
  apply sublist_skip. by etrans; [apply sublist_filter|].
Qed.

Lemma firstSeen_NoDup_id (l : list string) : NoDup l → firstSeen l = l.
Proof.
  induction l as [|x l IH]; [done|]. intros [Hx Hnd]%NoDup_cons.
  cbn [firstSeen]. rewrite IH by done. f_equal.
  clear IH Hnd. induction l as [|y l IH]; [done|].
  apply not_elem_of_cons in Hx as [Hne Hx].
  rewrite filter_cons_True by done. by rewrite IH.
Qed.

Lemma firstSeen_snoc (l : list string) (x : string) :
  firstSeen (l ++ [x]) = if decide (x ∈ l) then firstSeen l else firstSeen l ++ [x].
Proof.
  induction l as [|y l IH].
  - cbn [app firstSeen]. rewrite decide_False by apply not_elem_of_nil. done.
  - cbn [app firstSeen]. rewrite IH. destruct (decide (x ∈ l)) as [Hin|Hnot].
    + rewrite decide_True by (by right). done.
    + rewrite filter_app. destruct (decide (x = y)) as [->|Hne].
      * rewrite decide_True by (by left).
        rewrite filter_cons_False by (by intros Hy; apply Hy). by rewrite app_nil_r.
      * rewrite decide_False by (by intros [?|?]%elem_of_cons).
        by rewrite filter_cons_True by done.
Qed.

(** X22. [removeDuplicates] (and so the list that [dedupeStringSlice]
    stores) keeps the first occurrence of every element and drops the
    later ones.  Read from the front: the first element is kept and
    every later copy of it is dropped from what the rest gives.  Read
    from the back: the last element is dropped when it occurred before,
    and is appended to what the elements before it give when it did
    not.  So the result has no repetition and the same elements as the
    input, in the order of the input; a list without repetition is
    returned as it is, and removing duplicates twice changes nothing
    more. *)
Theorem removeDuplicates_first_occurrences (slice : list string) :
  NoDup (removeDuplicates slice)
  ∧ (∀ x, x ∈ removeDuplicates slice ↔ x ∈ slice)
  ∧ removeDuplicates slice `sublist_of` slice
  ∧ head (removeDuplicates slice) = head slice
  ∧ (NoDup slice → removeDuplicates slice = slice)
  ∧ removeDuplicates (removeDuplicates slice) = removeDuplicates slice
  ∧ (∀ (m : gmap string value) (key : string),
      m !! key = Some (VStrings slice) →
      dedupeStringSlice m key !! key = Some (VStrings (removeDuplicates slice))
      ∧ ∀ k, k ≠ key → dedupeStringSlice m key !! k = m !! k)
  ∧ removeDuplicates [] = []
  ∧ (∀ x, removeDuplicates (x :: slice)
          = x :: filter (λ y, y ≠ x) (removeDuplicates slice))
  ∧ (∀ x, removeDuplicates (slice ++ [x])
          = if decide (x ∈ slice) then removeDuplicates slice
            else removeDuplicates slice ++ [x]).
Proof.
  rewrite !removeDuplicates_firstSeen. split_and!.
  - apply NoDup_firstSeen.
  - intros x. apply elem_of_firstSeen.
  - apply firstSeen_sublist.
  - by destruct slice.
  - apply firstSeen_NoDup_id.
  - apply firstSeen_NoDup_id, NoDup_firstSeen.
  - intros m key Hkey. split.
    + unfold dedupeStringSlice. rewrite Hkey, lookup_insert_eq.
      by rewrite removeDuplicates_firstSeen.
    + intros k Hne. by apply dedupeStringSlice_other.
  - done.
  - intros x. by rewrite removeDuplicates_firstSeen.
  - intros x. rewrite removeDuplicates_firstSeen. apply firstSeen_snoc.
Qed.

End Deduplication.

(** ** The load that a batch puts on the service *)

Section BatchLoad.
Import Manager Notions.
Context `{ManagerLib}.

Lemma worker_world (job : BatchJob.t) (w : World) :
  (worker job w).2 = (processURL job "./data" w).2.
Proof. unfold worker. by destruct (processURL job "./data" w) as [[?|?] ?]. Qed.

Lemma runWorkers_log (jobs : list BatchJob.t) (sched : list nat) (w : World) :
  ∃ requests naps,
    posts (runWorkers jobs sched w).2 = posts w ++ requests
    ∧ sleeps (runWorkers jobs sched w).2 = sleeps w ++ naps
    ∧ (length requests ≤ 3 * length sched)%nat
    ∧ (length naps ≤ 2 * length sched)%nat
    ∧ Forall (λ request, request.1 = serviceURL) requests
    ∧ Forall (λ nap, nap = retryDelay) naps.
Proof.
  revert w. induction sched as [|i sched IH]; intros w.
  - exists [], []. simpl. rewrite !app_nil_r. split_and!; try done; constructor.
  - cbn [runWorkers length]. destruct (jobs !! i) as [job|].
    + pose proof (worker_world job w) as Hw.
      destruct (processURL_log job "./data" w) as (n & jsonData & Hn & Hposts & Hsleeps & _).
      destruct (worker job w) as [d w1]. simpl in Hw. subst w1.
      destruct (IH (processURL job "./data" w).2) as (rq & np & Hp & Hs & Hlp & Hls & Hrq & Hnp).
      destruct (runWorkers jobs sched (processURL job "./data" w).2) as [more w2].
      simpl in *.
      exists (replicate n (serviceURL, jsonData) ++ rq), (replicate (pred n) retryDelay ++ np).
      rewrite Hp, Hs, Hposts, Hsleeps, <- !app_assoc, !length_app, !length_replicate.
      split_and!; try done; try lia.
      * apply Forall_app. split; [|done]. apply Forall_forall.
        by intros request [-> _]%elem_of_replicate.
      * apply Forall_app. split; [|done]. apply Forall_forall.
        by intros nap [-> _]%elem_of_replicate.
    + destruct (IH w) as (rq & np & Hp & Hs & Hlp & Hls & Hrq & Hnp).
      exists rq, np. split_and!; try done; lia.
Qed.

(** X23. The load of a batch of [N] jobs, whatever the network and the
    file system do and in whatever order the workers finish: all the
    requests of the batch go to the service URL, there are at most
    [3 * N] of them, and the workers sleep the retry delay at most
    [2 * N] times between them. *)
Theorem batch_posts_at_most_three_per_job
    (b : BatchProcess.t) (sched : list nat) (now : Z) (w : World) :
  let N := length (BatchProcess.Jobs b) in
  sched ≡ₚ seq 0 N →
  let w' := (startProcessing b sched now w).2 in
  ∃ requests naps,
    posts w' = posts w ++ requests
    ∧ sleeps w' = sleeps w ++ naps
    ∧ (length requests ≤ 3 * N)%nat
    ∧ (length naps ≤ 2 * N)%nat
    ∧ Forall (λ request, request.1 = serviceURL) requests
    ∧ Forall (λ nap, nap = retryDelay) naps.
Proof.
  intros N Hperm w'.
  assert (Hlen : length sched = N) by (by rewrite Hperm, length_seq).
  destruct (runWorkers_log (BatchProcess.Jobs b) sched w)
    as (rq & np & Hp & Hs & Hlp & Hls & Hrq & Hnp).
  assert (Hw' : w' = (runWorkers (BatchProcess.Jobs b) sched w).2).
  { unfold w', startProcessing. simpl.
    by destruct (runWorkers (BatchProcess.Jobs b) sched w). }
  exists rq, np. rewrite Hw', <- Hlen. by split_and!.
Qed.

End BatchLoad.


(** ** The further properties at concrete inputs *)

Section MoreInstances.
Import Manager Parser Notions MergeNotions UploadNotions ParseNotions Links LinksNotions
  Sockets Demo.

(** The service answers with status 500 and an error record. *)
Lemma processURL_failure_writes_no_file_witness :
  let job := Demo.pending "M1" "http://a.example/1" in
  let w := Demo.world [Demo.reply 500 Demo.errorBody] in
  (processURL job "./data" w).1 = Err "server error (status 500): model overloaded"
  ∧ files (processURL job "./data" w).2 = files w.
Proof.
  intros job w.
  assert (Herr : (processURL job "./data" w).1
                 = Err "server error (status 500): model overloaded") by reflexivity.
  split; [exact Herr|].
  apply (processURL_failure_writes_no_file (H := Demo.lib) job "./data" w _ Herr).
  reflexivity.
Defined.

(** The first attempt succeeds; the response has one document link and
    no image match. *)
Lemma processURL_success_artifacts_witness :
  let job := Demo.pending "M1" "http://a.example/1" in
  let w := Demo.world [Demo.reply 200 Demo.successBody] in
  (processURL job "./data" w).1 = Ok ()
  ∧ dirs (processURL job "./data" w).2 = ["./data/M1"; "./data/M1/results"]
  ∧ files (processURL job "./data" w).2
    = [("./data/M1/results/parse_results.json", Demo.jobj "site_id" (Demo.jstr "example.com"));
       ("./data/M1/results/pdf_links.txt", "http://example.com/manual.pdf")].
Proof.
  intros job w.
  exact (processURL_success_artifacts (H := Demo.lib) job "./data" w
           {| StatusCode := 200; Body := Ok Demo.successBody |} Demo.successBody
           (Demo.jobj "url" (Demo.jstr "http://a.example/1"))
           (Demo.jobj "site_id" (Demo.jstr "example.com")) "[]" Demo.successResponse
           (λ _, eq_refl) (λ _, eq_refl) eq_refl eq_refl eq_refl eq_refl eq_refl eq_refl
           eq_refl (λ _, eq_refl)).
Defined.

(** A timeout, then an answer with status 200 that is no JSON. *)
Lemma processURL_answer_without_success_witness :
  let job := Demo.pending "M1" "http://a.example/1" in
  let w := Demo.world [PostErr "timeout"; Demo.reply 200 Demo.htmlBody] in
  transport_failures w 1
  ∧ length (posts (processURL job "./data" w).2) = 2%nat
  ∧ (processURL job "./data" w).1
    = Err "failed to parse response: unexpected end of JSON input"
  ∧ files (processURL job "./data" w).2 = [].
Proof.
  intros job w.
  assert (Hfail : transport_failures w 1).
  { intros i Hi. destruct i as [|i]; [by eexists | lia]. }
  assert (Hk : (1 < 3)%nat) by lia.
  destruct (processURL_answer_without_success (H := Demo.lib) job "./data" w 1
              {| StatusCode := 200; Body := Ok Demo.htmlBody |}
              (Demo.jobj "url" (Demo.jstr "http://a.example/1"))
              eq_refl eq_refl Hk Hfail eq_refl eq_refl)
    as (Hposts & _ & Hparse & _).
  destruct (Hparse Demo.htmlBody "unexpected end of JSON input" eq_refl eq_refl)
    as [Herr Hfiles].
  split_and!; [exact Hfail | by rewrite Hposts | exact Herr | exact Hfiles].
Defined.

(** The answer is a success and the disk is full. *)
Lemma processURL_results_not_written_witness :
  let job := Demo.pending "M1" "http://a.example/1" in
  (processURL job "./data" Samples.fullDisk).1
  = Err "failed to save results: failed to write results file: no space left on device"
  ∧ files (processURL job "./data" Samples.fullDisk).2 = [].
Proof.
  intros job.
  exact (processURL_results_not_written (H := Demo.lib) job "./data" Samples.fullDisk
           {| StatusCode := 200; Body := Ok Demo.successBody |} Demo.successBody
           (Demo.jobj "url" (Demo.jstr "http://a.example/1"))
           (Demo.jobj "site_id" (Demo.jstr "example.com")) "no space left on device"
           Demo.successResponse
           (λ _, eq_refl) eq_refl eq_refl eq_refl eq_refl eq_refl eq_refl eq_refl eq_refl).
Defined.

(** A header line in mixed case with blanks, and two records, the
    second with a description. *)
Lemma upload_accepts_every_row_witness :
  let headers := [" Model_Number"; "URL "; "parse_description"] in
  let rows := [["M1"; "http://a.example/1"; ""];
               ["M2"; "http://a.example/2"; "find the serial"]] in
  handleFileUpload (Some (Ok headers :: (Ok <$> rows))) 42 7 ∅
  = (Ret {| batch_id := "batch_" +:+ GoInt.itoa 42;
            status := "pending";
            message := "Successfully queued " +:+ GoInt.itoa (GoInt.len rows) +:+ " jobs" |},
     <["batch_" +:+ GoInt.itoa 42 :=
         BatchProcess.mk ("batch_" +:+ GoInt.itoa 42) (jobOfRecord headers <$> rows)
           "pending" 0 (instant 7) zeroTime []]> ∅)
  ∧ jobOfRecord headers <$> rows
    = [BatchJob.mk "M1" "http://a.example/1" "pending" "" 0 None;
       BatchJob.mk "M2" "http://a.example/2" "pending" "" 0 (Some "find the serial")].
Proof.
  intros headers rows. split; [|reflexivity].
  apply upload_accepts_every_row.
  - unfold GoInt.len, GoInt.max_int. simpl. lia.
  - apply (bool_decide_unpack _). vm_compute. exact I.
  - apply (bool_decide_unpack _). vm_compute. exact I.
  - repeat constructor.
  - discriminate.
Defined.

(** A header line without the url column; a header line alone; a read
    error after one good record. *)
Lemma upload_rejections_witness :
  handleFileUpload (Some [Ok ["model_number"; "link"]; Ok ["M1"; "http://a.example/1"]]) 42 7 ∅
  = (Fail "Missing required column: url", ∅)
  ∧ handleFileUpload (Some [Ok ["model_number"; "url"]]) 42 7 ∅
    = (Fail "No valid jobs found in the CSV file", ∅)
  ∧ handleFileUpload
      (Some [Ok ["model_number"; "url"]; Ok ["M1"; "http://a.example/1"];
             Err "record on line 3: wrong number of fields"]) 42 7 ∅
    = (Fail "Error reading CSV file", ∅).
Proof.
  assert (Hlen : ∀ h1 h2 : string, GoInt.len [h1; h2] ≤ GoInt.max_int).
  { intros h1 h2. unfold GoInt.len, GoInt.max_int. simpl. lia. }
  assert (Hurl : "url" ∈ normalize <$> ["model_number"; "url"]).
  { apply (bool_decide_unpack _). vm_compute. exact I. }
  assert (Hmodel : "model_number" ∈ normalize <$> ["model_number"; "url"]).
  { apply (bool_decide_unpack _). vm_compute. exact I. }
  split_and!.
  - destruct (upload_rejections ["model_number"; "link"] 42 7 ∅ (Hlen _ _))
      as (Hmissing & _ & _).
    destruct (Hmissing [Ok ["M1"; "http://a.example/1"]]) as (column & Hcol & Hnot & Hreply).
    + intros [Hu _]. revert Hu. apply (bool_decide_unpack _). vm_compute. exact I.
    + destruct Hcol as [-> | ->]; [exact Hreply|].
      exfalso. apply Hnot. apply (bool_decide_unpack _). vm_compute. exact I.
  - destruct (upload_rejections ["model_number"; "url"] 42 7 ∅ (Hlen _ _))
      as (_ & Hempty & _).
    exact (Hempty Hurl Hmodel).
  - destruct (upload_rejections ["model_number"; "url"] 42 7 ∅ (Hlen _ _))
      as (_ & _ & Hread).
    apply (Hread [["M1"; "http://a.example/1"]] "record on line 3: wrong number of fields" []
             Hurl Hmodel).
    repeat constructor.
Defined.

(** Two jobs with distinct pairs, the second finishing first, against a
    service that is not reachable. *)
Lemma distinct_pairs_every_job_updated_witness :
  let b := Demo.batch Demo.twoJobs in
  ∃ r, BatchProcess.Jobs (bp (startProcessing b [1; 0]%nat 99 (Demo.world [])).1) !! 0%nat
       = Some r
       ∧ jobKey r = ("M1", "http://a.example/1")
       ∧ (BatchJob.Status r = "completed" ∨ BatchJob.Status r = "failed").
Proof.
  intros b.
  assert (Hnd : NoDup (jobKey <$> BatchProcess.Jobs b)).
  { apply (bool_decide_unpack _). vm_compute. exact I. }
  assert (Hperm : [1; 0]%nat ≡ₚ seq 0 (length (BatchProcess.Jobs b))) by (simpl; constructor).
  destruct (distinct_pairs_every_job_updated (H := Demo.lib) b [1; 0]%nat 99 (Demo.world [])
              0 (Demo.pending "M1" "http://a.example/1") Hnd Hperm eq_refl)
    as (r & Hr & _ & Hkey & Hterm).
  exists r. split_and!; assumption.
Defined.

(** The two jobs again: three updates are built. *)
Lemma observers_see_every_result_witness :
  let b := Demo.batch Demo.twoJobs in
  let fin := (startProcessing b [1; 0]%nat 99 (Demo.world [])).1 in
  update_progress <$> updates (trace fin) = [50; 100; 100]
  ∧ update_status <$> updates (trace fin) = ["processing"; "processing"; "completed"].
Proof.
  intros b fin.
  assert (HN : (1 ≤ length (BatchProcess.Jobs b))%nat) by (simpl; lia).
  assert (Hbound : Z.of_nat (length (BatchProcess.Jobs b)) < 2 ^ 48) by reflexivity.
  assert (Hperm : [1; 0]%nat ≡ₚ seq 0 (length (BatchProcess.Jobs b))) by (simpl; constructor).
  destruct (observers_see_every_result (H := Demo.lib) b [1; 0]%nat 99 (Demo.world [])
              HN Hbound Hperm) as [Hupd _].
  fold fin in Hupd. rewrite Hupd. split; reflexivity.
Defined.

(** A batch with the client 7, and a handler that joins with channel 9
    while another one, with channel 8, joins after it. *)
Lemma clients_register_unregister_witness :
  let b := setClients (Demo.batch Demo.twoJobs) [7; 9; 8]%nat in
  BatchProcess.clients (unregister b 9%nat).1 = [7; 8]%nat
  ∧ (9%nat ∉ sends (notifyClients (unregister b 9%nat).1))
  ∧ sends (notifyClients (register b 9%nat).1) = [7; 9; 8; 9]%nat.
Proof.
  intros b.
  assert (Hbefore : 9%nat ∉ [7%nat]) by (apply (bool_decide_unpack _); vm_compute; exact I).
  assert (Hlater : 9%nat ∉ [8%nat]) by (apply (bool_decide_unpack _); vm_compute; exact I).
  destruct (clients_register_unregister b 9%nat [7%nat] [8%nat] Hbefore Hlater)
    as (Hsends & Hleave & _).
  destruct (Hleave eq_refl) as [Hclients Hquiet].
  split_and!; assumption.
Defined.

(** Three groups; the second response is discarded, and of the third
    only the first choice counts. *)
Lemma parseWithGemini_text_witness :
  parseWithGemini Demo.rangeOrder
    (Demo.parser [Ok [" Model X9 "]; Ok ["not found"]; Ok ["Serial AB123"; "other"]])
    Demo.sevenChunks "find the model"
  = (Ret (ResultText (Strings.Join ["Model X9"; "Serial AB123"] newline)), 3%nat).
Proof.
  assert (Hans : answered
            (Demo.parser [Ok [" Model X9 "]; Ok ["not found"]; Ok ["Serial AB123"; "other"]])
            "find the model" (chunkGroups Demo.sevenChunks)
            [" Model X9 "; "not found"; "Serial AB123"]).
  { split; [reflexivity|]. intros i g c Hg Hc.
    destruct i as [|[|[|i]]]; simpl in Hg, Hc; [| | |discriminate];
      injection Hg as <-; injection Hc as <-; eexists; reflexivity. }
  exact (parseWithGemini_text Demo.rangeOrder
           (Demo.parser [Ok [" Model X9 "]; Ok ["not found"]; Ok ["Serial AB123"; "other"]])
           Demo.sevenChunks "find the model" [" Model X9 "; "not found"; "Serial AB123"]
           eq_refl eq_refl Hans).
Defined.

(** The records of three responses: a serial number, a text that is no
    JSON, a manual. *)
Lemma merged_record_is_determined_witness :
  let records := [backfill {[ "serial_number" := VString "AB123" ]};
                  {[ "raw_content" := VString "plain text" ]};
                  backfill {[ "user_manual" := VString "manual.pdf" ]}] in
  rawTyped records
  ∧ combineProduct Demo.rangeOrder (FoundRecord <$> records) = Some (mergedRecord records)
  ∧ mergedRecord records !! "serial_number" = Some (VString "AB123")
  ∧ mergedRecord records !! "user_manual" = Some (VStrings ["manual.pdf"])
  ∧ mergedRecord records !! "additional_info" = Some (VStrings ["plain text"]).
Proof.
  intros records.
  assert (Hord : ∀ m, Demo.rangeOrder m ≡ₚ map_to_list m) by (intros m; reflexivity).
  assert (Hraw : rawTyped records).
  { intros r v. unfold records. rewrite !elem_of_cons, elem_of_nil.
    intros [->|[->|[->|[]]]]; vm_compute; intros [= <-]; by eexists. }
  destruct (merged_record_is_determined Demo.rangeOrder Hord records Hraw) as (Hm & _ & _).
  split_and!; [exact Hraw | exact Hm | reflexivity..].
Defined.

(** A product-information query answered by a record, a text that is no
    JSON, and another record. *)
Lemma parseWithGemini_product_witness :
  let answers := [Demo.serialAB; " plain text "; Demo.manualString] in
  parseWithGemini Demo.rangeOrder (Demo.parser ((λ c, Ok [c]) <$> answers))
    Demo.sevenChunks "Extract product information"
  = (Ret (ResultRecord (mergedRecord
            [backfill {[ "serial_number" := VString "AB123" ]};
             {[ "raw_content" := VString "plain text" ]};
             backfill {[ "user_manual" := VString "manual.pdf" ]}])), 3%nat).
Proof.
  intros answers.
  assert (Hord : ∀ m, Demo.rangeOrder m ≡ₚ map_to_list m) by (intros m; reflexivity).
  assert (Hcases : ∀ c, c ∈ answers
            → c = Demo.serialAB ∨ c = " plain text " ∨ c = Demo.manualString).
  { intros c. unfold answers. rewrite !elem_of_cons, elem_of_nil. tauto. }
  destruct (parseWithGemini_product Demo.rangeOrder Hord
              (Demo.parser ((λ c, Ok [c]) <$> answers))
              Demo.sevenChunks "Extract product information" answers) as [Hres _].
  - reflexivity.
  - reflexivity.
  - split; [reflexivity|]. intros i g c Hg Hc.
    destruct i as [|[|[|i]]]; simpl in Hg, Hc; [| | |discriminate];
      injection Hg as <-; injection Hc as <-; eexists; reflexivity.
  - intros c Hc [_ Hnull]. destruct (Hcases c Hc) as [->|[->| ->]]; vm_compute in Hnull;
      discriminate.
  - intros c m v Hc Hm Hv. destruct (Hcases c Hc) as [->|[->| ->]]; vm_compute in Hm;
      try discriminate; injection Hm as <-; vm_compute in Hv; discriminate.
  - exact Hres.
Defined.

(** The second of three requests is answered without any choice. *)
Lemma parseWithGemini_unusable_response_witness :
  ∃ msg, parseWithGemini Demo.rangeOrder (Demo.parser [Ok ["Model X9"]; Ok []; Ok ["AB123"]])
           Demo.sevenChunks "find the model" = (Panic msg, 2%nat).
Proof.
  apply (parseWithGemini_unusable_response Demo.rangeOrder
           (Demo.parser [Ok ["Model X9"]; Ok []; Ok ["AB123"]])
           Demo.sevenChunks "find the model" 1 ["c4"; "c5"; "c6"] []).
  - reflexivity.
  - reflexivity.
  - intros j gj Hj Hgj. destruct j as [|j]; [|lia]. injection Hgj as <-.
    exists "Model X9", []. split; [reflexivity|]. intros [Hquery _]. discriminate Hquery.
  - reflexivity.
  - by left.
Defined.

(** A record, then an object whose raw_content is a number. *)
Lemma parseWithGemini_raw_content_not_a_string_witness :
  parseWithGemini (H0 := Samples.jsonRaw) Demo.rangeOrder
    (Demo.parser [Ok [Demo.serialAB]; Ok [Samples.rawNumber]; Ok ["not found"]])
    Demo.sevenChunks "Extract product information"
  = (Panic "interface conversion", 3%nat).
Proof.
  assert (Hord : ∀ m, Demo.rangeOrder m ≡ₚ map_to_list m) by (intros m; reflexivity).
  assert (Hans : answered
            (Demo.parser [Ok [Demo.serialAB]; Ok [Samples.rawNumber]; Ok ["not found"]])
            "Extract product information" (chunkGroups Demo.sevenChunks)
            ([Demo.serialAB] ++ Samples.rawNumber :: ["not found"])).
  { split; [reflexivity|]. intros i g c Hg Hc.
    destruct i as [|[|[|i]]]; simpl in Hg, Hc; [| | |discriminate];
      injection Hg as <-; injection Hc as <-; eexists; reflexivity. }
  assert (Hnull : ∀ c, c ∈ [Demo.serialAB] ++ Samples.rawNumber :: ["not found"]
            → ¬ decodesToNull (H0 := Samples.jsonRaw) c).
  { intros c. cbn [app]. rewrite !elem_of_cons, elem_of_nil.
    intros [->|[->|[->|[]]]] [Hkeep Hn]; vm_compute in Hkeep, Hn; discriminate. }
  assert (Hraw : ∀ c m v, c ∈ [Demo.serialAB] →
            json_Unmarshal_map (JSON := Samples.jsonRaw) (strings_TrimSpace c) = Ok (Some m) →
            m !! "raw_content" = Some v → ∃ s, v = VString s).
  { intros c m v. rewrite !elem_of_cons, elem_of_nil. intros [->|[]] Hm Hv.
    vm_compute in Hm. injection Hm as <-. vm_compute in Hv. discriminate. }
  assert (Hnot : ∀ s, VFloat 4617315517961601024 ≠ VString s) by discriminate.
  exact (parseWithGemini_raw_content_not_a_string (H0 := Samples.jsonRaw) Demo.rangeOrder Hord
           (Demo.parser [Ok [Demo.serialAB]; Ok [Samples.rawNumber]; Ok ["not found"]])
           Demo.sevenChunks "Extract product information"
           [Demo.serialAB] ["not found"] Samples.rawNumber
           {[ "raw_content" := VFloat 4617315517961601024 ]} (VFloat 4617315517961601024)
           eq_refl eq_refl Hans Hnull Hraw eq_refl eq_refl eq_refl Hnot).
Defined.

(** The sample page: two texts that are not blank, so one chunk
    group. *)
Lemma preprocessContent_texts_witness :
  preprocessContent (H0 := Samples.html) "page" = ["Model X9"; "manual"]
  ∧ length (chunkGroups (preprocessContent (H0 := Samples.html) "page")) = 1%nat
  ∧ preprocessContent (H0 := Samples.html) "another page" = [].
Proof.
  destruct (preprocessContent_texts (H0 := Samples.html) "page") as (Hok & _ & _).
  destruct (Hok Samples.page eq_refl) as [Htexts Hgroups].
  destruct (preprocessContent_texts (H0 := Samples.html) "another page") as (_ & Herr & _).
  split_and!; [exact Htexts | exact Hgroups | exact (Herr "unexpected EOF" eq_refl)].
Defined.

(** The sample page: the relative link is resolved and listed once, the
    link within the page is left out. *)
Lemma findPdfLinks_links_witness :
  ∃ links,
    findPdfLinks (H0 := Samples.html) (H1 := Samples.url) "http://a.example" "page" = Ok links
    ∧ NoDup links
    ∧ "http://a.example/docs/Manual.PDF" ∈ links
    ∧ "http://b.example/spec.docx" ∈ links
    ∧ (∀ link, link ∈ links → link ≠ "#top.pdf").
Proof.
  destruct (findPdfLinks_links (H0 := Samples.html) (H1 := Samples.url)
              "http://a.example" "page") as [Hok _].
  destruct (Hok Samples.page eq_refl) as (links & Hlinks & Hnd & Hin & _).
  assert (Hattrs : anchorAttrs Samples.page
                   = [Samples.href " /docs/Manual.PDF "; Samples.href "#top.pdf";
                      {| Key := "class"; Val := "x.pdf" |};
                      Samples.href "http://b.example/spec.docx";
                      Samples.href "/docs/Manual.PDF"]) by reflexivity.
  exists links. split_and!; [exact Hlinks | exact Hnd | | |].
  - apply Hin. exists (Samples.href " /docs/Manual.PDF "). split.
    + rewrite Hattrs. by left.
    + split_and!; [reflexivity | discriminate | reflexivity | by left |].
      exists "/docs/Manual.PDF". split; [reflexivity|]. exists "http://a.example".
      split; reflexivity.
  - apply Hin. exists (Samples.href "http://b.example/spec.docx"). split.
    + rewrite Hattrs. do 3 right. by left.
    + split_and!; [reflexivity | discriminate | reflexivity | by right |].
      exists "http://b.example/spec.docx". split; reflexivity.
  - intros link Hl. rewrite Hlinks in *. clear Hin. intros ->.
    assert (Hall : ∀ l, findPdfLinks (H0 := Samples.html) (H1 := Samples.url)
                          "http://a.example" "page" = Ok l → "#top.pdf" ∉ l).
    { intros l [= <-]. apply (bool_decide_unpack _). vm_compute. exact I. }
    by apply (Hall links).
Defined.

(** Two jobs against a service that is not reachable: six requests and
    four sleeps. *)
Lemma batch_posts_at_most_three_per_job_witness :
  let b := Demo.batch Demo.twoJobs in
  let w' := (startProcessing b [1; 0]%nat 99 (Demo.world [])).2 in
  (length (posts w') ≤ 6)%nat
  ∧ length (posts w') = 6%nat
  ∧ sleeps w' = [5; 5; 5; 5].
Proof.
  intros b w'.
  assert (Hperm : [1; 0]%nat ≡ₚ seq 0 (length (BatchProcess.Jobs b))) by (simpl; constructor).
  destruct (batch_posts_at_most_three_per_job (H := Demo.lib) b [1; 0]%nat 99 (Demo.world [])
              Hperm) as (requests & naps & Hposts & _ & Hbound & _).
  fold w' in Hposts. split_and!; [|reflexivity..].
  rewrite Hposts. simpl in *. lia.
Defined.

(** The first request is answered, the second times out. *)
Lemma parseWithGemini_first_error_witness :
  parseWithGemini Demo.rangeOrder (Demo.parser [Ok ["Model X9"]]) Demo.sevenChunks
    "find the model"
  = (Fail "gemini request failed: context deadline exceeded", 2%nat).
Proof.
  apply (parseWithGemini_first_error Demo.rangeOrder (Demo.parser [Ok ["Model X9"]])
           Demo.sevenChunks "find the model" 1 ["c4"; "c5"; "c6"] "context deadline exceeded").
  - reflexivity.
  - reflexivity.
  - intros j gj Hj Hgj. destruct j as [|j]; [|lia]. injection Hgj as <-.
    exists "Model X9", []. split; [reflexivity|]. intros [Hquery _]. discriminate Hquery.
  - reflexivity.
Defined.

End MoreInstances.
